(** * Price-comparison backend (server.js): session pool, retry executor,
      scrape orchestrator and result deduplicator/sorter.

    The development is a shallow embedding of [PriceComparisonServer]:
    every definition below transcribes one method of the class, with the
    state the method mutates passed explicitly and with the outcome of
    every external call (browser launch, page navigation, timers firing)
    supplied by an explicit environment argument.

    Modelling conventions.
    - A browser object is identified by a natural number; [puppeteer.launch]
      hands out the next unused number, so two launches never alias.
    - JavaScript strings are [string]s of 8-bit characters: [toLowerCase]
      and [trim] are the ASCII fragments of the built-ins.
    - Prices and ratings are JavaScript numbers in the source.  Prices
      are modelled by integers ([Z]); [None] is [null].  Ordering, the
      falsy test [x || d], and the decimal rendering used in template
      strings agree with JavaScript on integers below 2^53.  Ratings,
      which [parseFloat] produces and only the popup inspects, are
      rationals; [None] is [null], which is also what [NaN] becomes in
      the JSON answer.
    - [Array.prototype.sort] is required to be stable by ECMAScript; it is
      modelled by a stable insertion sort driven by the source comparator.

    The modules [Rating] and [Extension] embed the browser extension in
    the same way (background.js, content.js and the popup): the storage
    keys are passed explicitly. *)

From Stdlib Require Import ZArith Lia Bool Ascii String List Sorted Permutation.
From stdpp Require Import base list strings gmap pretty sorting.
From Stdlib Require QArith Qround.
Import ListNotations.

Local Open Scope Z_scope.
Local Open Scope string_scope.

(* ===================================================================== *)
(** ** JavaScript built-ins used by the server                            *)
(* ===================================================================== *)

Module Js.

(** [c.toLowerCase()] on one ASCII character. *)
Definition lower_ascii (c : ascii) : ascii :=
  let n := nat_of_ascii c in
  if ((65 <=? n)%nat && (n <=? 90)%nat)%bool then ascii_of_nat (n + 32) else c.

(** [s.toLowerCase()]. *)
Fixpoint toLowerCase (s : string) : string :=
  match s with
  | EmptyString => EmptyString
  | String c s' => String (lower_ascii c) (toLowerCase s')
  end.

(** [s.substring(0, n)]. *)
Definition substring0 (n : nat) (s : string) : string := String.substring 0 n s.

(** White space removed by [trim] (tab, LF, VT, FF, CR, space). *)
Definition is_space (c : ascii) : bool :=
  let n := nat_of_ascii c in
  (((9 <=? n)%nat && (n <=? 13)%nat) || (n =? 32)%nat)%bool.

Fixpoint trimStart (s : string) : string :=
  match s with
  | EmptyString => EmptyString
  | String c s' => if is_space c then trimStart s' else s
  end.

(** Drops trailing white space: a character is kept when it is not a
    space or when something non-blank follows it. *)
Fixpoint trimEnd (s : string) : string :=
  match s with
  | EmptyString => EmptyString
  | String c s' =>
      match trimEnd s' with
      | EmptyString => if is_space c then EmptyString else String c EmptyString
      | r => String c r
      end
  end.

(** [s.trim()]. *)
Definition trim (s : string) : string := trimEnd (trimStart s).

(** [hay.includes(needle)], the test a regular expression made of a
    literal performs. *)
Fixpoint includes (needle hay : string) : bool :=
  if String.prefix needle hay then true
  else match hay with
       | EmptyString => false
       | String _ hay' => includes needle hay'
       end.

(** [`${x}`] for a nullable number. *)
Definition template_num (x : option Z) : string :=
  match x with
  | None => "null"
  | Some z => pretty z
  end.

(** Truthiness of a nullable number: [null] and [0] are falsy. *)
Definition truthy_num (x : option Z) : bool :=
  match x with
  | None => false
  | Some z => negb (z =? 0)%Z
  end.

(** [x || d] on a nullable number. *)
Definition or_num (x : option Z) (d : Z) : Z :=
  match x with
  | Some z => if (z =? 0)%Z then d else z
  | None => d
  end.

End Js.

(* ===================================================================== *)
(** ** Products, [deduplicateAndSort]                                     *)
(* ===================================================================== *)

(** Product JSON shape: [{ platform, name, price, image, rating, link }]. *)
Record Product : Type := mkProduct {
  platform : string;
  name : string;
  price : option Z;
  image : option string;
  rating : option QArith_base.Q;
  link : option string
}.

Module Dedup.

(** The sentinel of the comparator, [999999]. *)
Definition sentinel : Z := 999999.

(** [`${product.name.toLowerCase().substring(0, 50)}-${product.price}`] *)
Definition dedupKey (p : Product) : string :=
  Js.substring0 50 (Js.toLowerCase (name p)) ++ "-" ++ Js.template_num (price p).

(** The [forEach] of [deduplicateAndSort]: [seen] is the [Set] of keys,
    [unique] the array being pushed to. *)
Fixpoint dedup_loop (products : list Product) (seen : gset string)
         (unique : list Product) : list Product :=
  match products with
  | [] => unique
  | product :: rest =>
      let key := dedupKey product in
      if decide (key ∈ seen)
      then dedup_loop rest seen unique
      else dedup_loop rest ({[ key ]} ∪ seen) (unique ++ [product])
  end.

Definition unique_of (products : list Product) : list Product :=
  dedup_loop products ∅ [].

(** [a.price || 999999] *)
Definition effective_price (p : Product) : Z := Js.or_num (price p) sentinel.

(** [(a, b) => (a.price || 999999) - (b.price || 999999)] *)
Definition comparePrice (a b : Product) : Z :=
  effective_price a - effective_price b.

(** Stable sort by a comparator: [x] is placed in front of the first
    element it does not compare greater than. *)
Fixpoint insert_by (cmp : Product -> Product -> Z) (x : Product)
         (l : list Product) : list Product :=
  match l with
  | [] => [x]
  | y :: l' => if (0 <? cmp x y)%Z then y :: insert_by cmp x l' else x :: y :: l'
  end.

Fixpoint sort_by (cmp : Product -> Product -> Z) (l : list Product) : list Product :=
  match l with
  | [] => []
  | x :: l' => insert_by cmp x (sort_by cmp l')
  end.

(** [unique.sort(comparePrice)] *)
Definition sortByPrice (l : list Product) : list Product := sort_by comparePrice l.

Definition deduplicateAndSort (products : list Product) : list Product :=
  sortByPrice (unique_of products).

(** The deduplicator as the specification words it: the first product
    is kept, every later product with the same key is dropped, and so
    on for the products that remain. *)
Fixpoint first_occurrences (products : list Product) : list Product :=
  match products with
  | [] => []
  | p :: rest =>
      p :: List.filter (fun q => negb (String.eqb (dedupKey q) (dedupKey p)))
                       (first_occurrences rest)
  end.

Definition other_key (k : string) (q : Product) : bool :=
  negb (String.eqb (dedupKey q) k).

(** Ascending order of the value the comparator subtracts. *)
Definition by_price (a b : Product) : Prop :=
  (effective_price a <= effective_price b)%Z.

Definition has_no_price (p : Product) : bool :=
  match price p with None => true | Some _ => false end.

Definition has_effective_price (v : Z) (p : Product) : bool :=
  (effective_price p =? v)%Z.

(** Every product without a price stands after every product that has
    one. *)
Definition nulls_last (l : list Product) : Prop :=
  ∀ (i j : nat) (p q : Product),
    l !! i = Some p → l !! j = Some q →
    price p = None → price q ≠ None → (j < i)%nat.

(** Every product priced [0] stands after every product with a
    positive price. *)
Definition zero_after_positive (l : list Product) : Prop :=
  ∀ (i j : nat) (p q : Product) (z : Z),
    l !! i = Some p → l !! j = Some q →
    price p = Some 0%Z → price q = Some z → (0 < z)%Z → (j < i)%nat.

(** Products of the examples: only name and price matter. *)
Definition item (n : string) (p : option Z) : Product :=
  mkProduct "Amazon" n p None None None.

End Dedup.

(* ===================================================================== *)
(** ** The browser pool                                                   *)
(* ===================================================================== *)

(** A browser instance, by identity. *)
Definition Browser : Type := nat.

(** [const idx = arr.indexOf(x); if (idx >= 0) arr.splice(idx, 1)] *)
Fixpoint remove_first (x : nat) (l : list nat) : list nat :=
  match l with
  | [] => []
  | y :: l' => if Nat.eqb x y then l' else y :: remove_first x l'
  end.

Module Pool.

Local Open Scope nat_scope.
Local Open Scope list_scope.

(** [this.browserPool = { size, browsers, available, pending }].  A
    pending entry [{ resolve, reject, timer }] is identified by the
    arrival number of the [acquireFromPool] call that created it. *)
Record Pool : Type := mkPool {
  size : nat;
  browsers : list Browser;
  available : list Browser;
  pending : list nat
}.

(** How the promise returned by [acquireFromPool] was settled. *)
Inductive Settled : Type :=
| Resolved (b : Browser)
| Rejected (msg : string).

(** The pool together with what the JavaScript runtime holds for it:
    - [timers]: entries whose [setTimeout] is armed;
    - [launching]: replacement launches of [removeBrowserFromPool] that
      have not completed yet;
    - [nextBrowser]: identity of the next browser [puppeteer.launch]
      returns;
    - [arrivals]: number of [acquireFromPool] calls so far (the arrival
      number of the next caller);
    - [settled]: the callers served or rejected so far, oldest first. *)
Record State : Type := mkState {
  browserPool : option Pool;
  timers : list nat;
  launching : nat;
  nextBrowser : Browser;
  arrivals : nat;
  settled : list (nat * Settled)
}.

(** State of a freshly constructed server, before
    [initializeBrowserPool] has run. *)
Definition fresh : State := mkState None [] 0 0 0 [].

Definition with_pool (st : State) (p : Pool) : State :=
  mkState (Some p) (timers st) (launching st) (nextBrowser st)
          (arrivals st) (settled st).

(** One iteration of the launch loop of [initializeBrowserPool]:
    [ok] tells whether [puppeteer.launch] resolved. *)
Definition init_launch (ok : bool) (st : State) : State :=
  match browserPool st with
  | None => st
  | Some p =>
      if ok then
        let b := nextBrowser st in
        mkState (Some (mkPool (size p) (browsers p ++ [b]) (available p ++ [b])
                              (pending p)))
                (timers st) (launching st) (S b) (arrivals st) (settled st)
      else st
  end.

(** [initializeBrowserPool()], run to completion with nothing else
    running between its launches, for a numeric [this.poolSize]:
    [launch_ok i] is the outcome of the launch for index [i].  The
    module [Boot] below takes the loop apart, launch by launch, and has
    the [NaN] pool size. *)
Definition initializeBrowserPool (poolSize : Z) (launch_ok : nat -> bool)
           (st : State) : State :=
  let size := Z.to_nat (Z.max 1 poolSize) in
  fold_left (fun s i => init_launch (launch_ok i) s) (seq 0 size)
            (with_pool st (mkPool size [] [] [])).

(** What a call of [acquireFromPool] gives back synchronously. *)
Inductive Acquire : Type :=
| Immediate (b : Browser)
| Threw (msg : string)
| Waiting (entry : nat).

(** [acquireFromPool(timeoutMs)] up to the point where the caller
    either has a browser or is suspended on its promise. *)
Definition acquireFromPool (st : State) : State * Acquire :=
  let t := arrivals st in
  match browserPool st with
  | None =>
      (mkState None (timers st) (launching st) (nextBrowser st) (S t)
               (settled st ++ [(t, Rejected "No browser pool")]),
       Threw "No browser pool")
  | Some p =>
      match available p with
      | b :: rest =>
          (mkState (Some (mkPool (size p) (browsers p) rest (pending p)))
                   (timers st) (launching st) (nextBrowser st) (S t)
                   (settled st ++ [(t, Resolved b)]),
           Immediate b)
      | [] =>
          (mkState (Some (mkPool (size p) (browsers p) [] (pending p ++ [t])))
                   (timers st ++ [t]) (launching st) (nextBrowser st) (S t)
                   (settled st),
           Waiting t)
      end
  end.

(** The timer callback of entry [t].  It runs only while the timer is
    armed.  Without a pool the callback fails before it rejects. *)
Definition fireTimeout (t : nat) (st : State) : State :=
  if existsb (Nat.eqb t) (timers st) then
    match browserPool st with
    | None =>
        mkState None (remove_first t (timers st)) (launching st)
                (nextBrowser st) (arrivals st) (settled st)
    | Some p =>
        mkState (Some (mkPool (size p) (browsers p) (available p)
                              (remove_first t (pending p))))
                (remove_first t (timers st)) (launching st) (nextBrowser st)
                (arrivals st)
                (settled st ++ [(t, Rejected "Pool acquire timeout")])
    end
  else st.

(** [releaseToPool(browser)] *)
Definition releaseToPool (browser : Browser) (st : State) : State :=
  match browserPool st with
  | None => st
  | Some p =>
      match pending p with
      | entry :: rest =>
          mkState (Some (mkPool (size p) (browsers p) (available p) rest))
                  (remove_first entry (timers st)) (launching st)
                  (nextBrowser st) (arrivals st)
                  (settled st ++ [(entry, Resolved browser)])
      | [] =>
          with_pool st (mkPool (size p) (browsers p)
                               (available p ++ [browser]) [])
      end
  end.

(** [removeBrowserFromPool(browser)], the synchronous part: the browser
    leaves both arrays and a replacement launch is started. *)
Definition removeBrowserFromPool (browser : Browser) (st : State) : State :=
  match browserPool st with
  | None => st
  | Some p =>
      mkState (Some (mkPool (size p) (remove_first browser (browsers p))
                            (remove_first browser (available p)) (pending p)))
              (timers st) (S (launching st)) (nextBrowser st) (arrivals st)
              (settled st)
  end.

(** Continuation of [removeBrowserFromPool] once its launch resolved:
    the new browser is pushed on both arrays, then the oldest pending
    entry, if any, receives [available.shift()]. *)
Definition replacementLaunched (st : State) : State :=
  match launching st with
  | O => st
  | S n =>
      let nb := nextBrowser st in
      match browserPool st with
      | None => mkState None (timers st) n (S nb) (arrivals st) (settled st)
      | Some p =>
          let browsers' := browsers p ++ [nb] in
          let available' := available p ++ [nb] in
          match pending p, available' with
          | entry :: rest, b :: available'' =>
              mkState (Some (mkPool (size p) browsers' available'' rest))
                      (remove_first entry (timers st)) n (S nb) (arrivals st)
                      (settled st ++ [(entry, Resolved b)])
          | _, _ =>
              mkState (Some (mkPool (size p) browsers' available' (pending p)))
                      (timers st) n (S nb) (arrivals st) (settled st)
          end
      end
  end.

(** Continuation of [removeBrowserFromPool] when its launch rejected:
    the failure is logged. *)
Definition replacementFailed (st : State) : State :=
  match launching st with
  | O => st
  | S n =>
      mkState (browserPool st) (timers st) n (nextBrowser st) (arrivals st)
              (settled st)
  end.

(** The atomic steps between two suspension points. *)
Inductive Op : Type :=
| OpAcquire
| OpRelease (b : Browser)
| OpRemove (b : Browser)
| OpLaunched
| OpLaunchFailed
| OpTimeout (entry : nat).

Definition step (st : State) (o : Op) : State :=
  match o with
  | OpAcquire => fst (acquireFromPool st)
  | OpRelease b => releaseToPool b st
  | OpRemove b => removeBrowserFromPool b st
  | OpLaunched => replacementLaunched st
  | OpLaunchFailed => replacementFailed st
  | OpTimeout t => fireTimeout t st
  end.

Definition run (st : State) (ops : list Op) : State := fold_left step ops st.

(** Sessions handed out and not given back: owned by the pool and not
    idle in [available]. *)
Definition checkedOut (p : Pool) : list Browser :=
  List.filter (fun b => negb (existsb (Nat.eqb b) (available p))) (browsers p).

(** [checked-out + available] *)
Definition inUse (st : State) : nat :=
  match browserPool st with
  | None => 0
  | Some p => length (checkedOut p) + length (available p)
  end.

Definition capacity (st : State) : nat :=
  match browserPool st with
  | None => 0
  | Some p => size p
  end.

(** Arrival numbers of the callers that received a browser, in the
    order in which they received it. *)
Definition served_of (lg : list (nat * Settled)) : list nat :=
  omap (fun x => match snd x with Resolved _ => Some (fst x) | Rejected _ => None end) lg.

Definition served (st : State) : list nat := served_of (settled st).

Definition waiting (st : State) : list nat :=
  match browserPool st with
  | None => []
  | Some p => pending p
  end.

(** The protocol the callers of the pool follow: only a checked-out
    session is released, only a session of the pool is removed. *)
Definition op_ok (st : State) (o : Op) : bool :=
  match o, browserPool st with
  | OpRelease b, Some p =>
      existsb (Nat.eqb b) (browsers p) && negb (existsb (Nat.eqb b) (available p))
  | OpRemove b, Some p => existsb (Nat.eqb b) (browsers p)
  | _, _ => true
  end.

Fixpoint run_ok (st : State) (ops : list Op) : bool :=
  match ops with
  | [] => true
  | o :: ops' => op_ok st o && run_ok (step st o) ops'
  end.

(** Sessions idle in the [available] array. *)
Definition idle (st : State) : list Browser :=
  match browserPool st with
  | None => []
  | Some p => available p
  end.

(** What the queue discipline maintains: callers are queued and served
    in their order of arrival, every caller served so far arrived
    before every caller still queued, no session idles while a caller
    is queued, and exactly the queued entries have an armed timer. *)
Record fifo_inv (st : State) : Prop := mk_fifo_inv {
  fifo_pool : is_Some (browserPool st);
  fifo_waiting_sorted : StronglySorted lt (waiting st);
  fifo_served_sorted : StronglySorted lt (served st);
  fifo_served_first : ∀ t t', t ∈ served st → t' ∈ waiting st → t < t';
  fifo_waiting_bound : ∀ t, t ∈ waiting st → t < arrivals st;
  fifo_served_bound : ∀ t, t ∈ served st → t < arrivals st;
  fifo_no_idle : waiting st ≠ [] → idle st = [];
  fifo_timers : timers st = waiting st
}.

(** What the bookkeeping maintains when the callers follow the
    protocol: no session is listed twice, the idle sessions are owned
    by the pool, and the owned sessions together with the replacement
    launches in flight fit the capacity. *)
Definition size_inv (st : State) : Prop :=
  ∃ p, browserPool st = Some p
       ∧ NoDup (browsers p)
       ∧ NoDup (available p)
       ∧ (∀ b, b ∈ available p → b ∈ browsers p)
       ∧ length (browsers p) + launching st ≤ size p
       ∧ (∀ b, b ∈ browsers p → b < nextBrowser st).

(** The pool while [initializeBrowserPool] is launching: the sessions
    launched so far are all idle, nobody is queued, nothing is in
    flight. *)
Definition init_inv (sz k : nat) (st : State) : Prop :=
  ∃ bs, browserPool st = Some (mkPool sz bs bs [])
        ∧ NoDup bs
        ∧ (∀ b, b ∈ bs → b < nextBrowser st)
        ∧ length bs ≤ k
        ∧ timers st = [] ∧ settled st = [] ∧ launching st = 0.

End Pool.

(* ===================================================================== *)
(** ** Errors and [withRetry]                                             *)
(* ===================================================================== *)

(** A thrown [Error]: its [name] and its [message]. *)
Record Error : Type := mkError {
  err_name : string;
  message : string
}.

(** [String(err)] *)
Definition error_toString (e : Error) : string :=
  if String.eqb (message e) "" then err_name e
  else err_name e ++ ": " ++ message e.

Module Retry.

Local Open Scope list_scope.

(** [/Protocol error|Connection closed|Timeout/.test(err.message || '')] *)
Definition isTransient (err : Error) : bool :=
  Js.includes "Protocol error" (message err)
  || Js.includes "Connection closed" (message err)
  || Js.includes "Timeout" (message err).

(** [500 + i * 200] *)
Definition backoff (i : nat) : Z := 500 + Z.of_nat i * 200.

(** What [withRetry] does to the outside world, in order. *)
Inductive Event : Type :=
| Call (attempt : nat)            (* scraperFn(query) *)
| CloseShared (b : Browser)       (* this.browser.close() *)
| Reinitialize (launched : bool)  (* this.initializeBrowser() *)
| Delay (ms : Z).                 (* setTimeout(r, ms) *)

(** [this.browser] and the events so far. *)
Record State : Type := mkState {
  browser : option Browser;
  nextBrowser : Browser;
  log : list Event
}.

Definition emit (e : Event) (st : State) : State :=
  mkState (browser st) (nextBrowser st) (log st ++ [e]).

(** [initializeBrowser()]: it catches its own failures, in which case
    [this.browser] keeps its value. *)
Definition initializeBrowser (launched : bool) (st : State) : State :=
  if launched
  then mkState (Some (nextBrowser st)) (S (nextBrowser st))
               (log st ++ [Reinitialize true])
  else emit (Reinitialize false) st.

(** The recovery branch of the [catch]: close the shared browser if
    there is one (a failing [close] is caught), then reinitialize. *)
Definition recover (launched : bool) (st : State) : State :=
  let st1 := match browser st with
             | Some b => emit (CloseShared b) st
             | None => st
             end in
  initializeBrowser launched st1.

Section WithTask.

Context {A : Type}.

(** [scraperFn(query)] on its [i]-th call: it throws or returns. *)
Variable task : nat -> Error + A.

(** Outcome of the browser launch of the [i]-th recovery. *)
Variable relaunch : nat -> bool.

(** The [for] loop: [n] iterations left, [i] the loop variable,
    [lastErr] the variable of that name ([None] is [undefined]).  The
    result is [inl] for a [throw], [inr] for a [return]. *)
Fixpoint retry_loop (n i : nat) (lastErr : option Error) (st : State)
  : State * (option Error + A) :=
  match n with
  | O => (st, inl lastErr)
  | S n' =>
      let st0 := emit (Call i) st in
      match task i with
      | inr v => (st0, inr v)
      | inl err =>
          let st1 := if isTransient err then recover (relaunch i) st0 else st0 in
          let st2 := emit (Delay (backoff i)) st1 in
          retry_loop n' (S i) (Some err) st2
      end
  end.

(** [withRetry(scraperFn, query, attempts)] *)
Definition withRetry (attempts : nat) (st : State) : State * (option Error + A) :=
  retry_loop attempts 0%nat None st.

End WithTask.

(** The delays slept, in order. *)
Definition delays (st : State) : list Z :=
  omap (fun e => match e with Delay ms => Some ms | _ => None end) (log st).

(** The number of times the task was executed. *)
Definition executions (st : State) : nat :=
  length (List.filter (fun e => match e with Call _ => true | _ => false end) (log st)).

Definition idle : State := mkState None 0%nat [].

End Retry.

(* ===================================================================== *)
(** ** [scrapeSiteWithTempBrowser] and [scrapeMultipleSites]              *)
(* ===================================================================== *)

Module Orchestrator.

Local Open Scope list_scope.

(** Observable actions on sessions. *)
Inductive Event : Type :=
| Site (site : string)           (* scrapeMultipleSites starts a site *)
| Attempt (number : nat)         (* 'scrapeSiteWithTempBrowser attempt', attempt + 1 *)
| Borrow (b : Browser)           (* acquireFromPool resolved with b *)
| AcquireFailed                  (* acquireFromPool rejected *)
| Launch (b : Browser)           (* pupp.launch resolved with b *)
| Remove (b : Browser)           (* removeBrowserFromPool(b) *)
| Release (b : Browser)          (* releaseToPool(b) *)
| Close (b : Browser)            (* b.close() *)
| Delay (ms : Z).                (* setTimeout(r, ms) *)

(** A piece of the server run on a pool state: the state it leaves,
    the actions it performed, in order, and its result. *)
Definition Run (A : Type) : Type := Pool.State * list Event * A.

Definition final {A} (x : Run A) : Pool.State := fst (fst x).
Definition events {A} (x : Run A) : list Event := snd (fst x).
Definition result {A} (x : Run A) : A := snd x.

(** Everything one pass through the [try] block gets from outside. *)
Record AttemptEnv : Type := mkAttemptEnv {
  (** pool operations of other requests, timers and replacement
      launches that run while [acquireFromPool] is suspended *)
  while_waiting : list Pool.Op;
  (** [pupp.launch(launchOpts)]: rejected with an error, or resolved *)
  launch : option Error;
  (** [browser.newPage()] *)
  newPage : option Error;
  (** [page.setViewport], [page.setUserAgent] *)
  pageSetup : option Error;
  (** [page.goto], [page.waitForTimeout], [page.evaluate] of the site *)
  extraction : Error + list Product;
  (** [page.url()] *)
  pageUrl : string
}.

Definition known_site (site : string) : bool :=
  String.eqb site "amazon" || String.eqb site "flipkart"
  || String.eqb site "myntra" || String.eqb site "snapdeal".

(** [/^https?:\/\//i.test(link)] *)
Definition is_absolute (link : string) : bool :=
  let l := Js.toLowerCase link in
  String.prefix "http://" l || String.prefix "https://" l.

(** How the promise of entry [t] was settled, if it was. *)
Definition settlement (t : nat) (st : Pool.State) : option Pool.Settled :=
  snd <$> List.find (fun x => Nat.eqb (fst x) t) (Pool.settled st).

(** [puppeteer.launch] resolved: the next identity is used up. *)
Definition launched (st : Pool.State) : Pool.State :=
  Pool.mkState (Pool.browserPool st) (Pool.timers st) (Pool.launching st)
               (S (Pool.nextBrowser st)) (Pool.arrivals st) (Pool.settled st).




Definition is_attempt (e : Event) : bool :=
  match e with Attempt _ => true | _ => false end.

Section WithUrl.

(** [new URL(link, base).href]; [None] when the constructor throws.
    The URL parser belongs to the runtime. *)
Variable resolveUrl : string -> string -> option string.

(** The body of [map] in "normalize links relative to final page url". *)
Definition normalize (base : string) (p : Product) : Product :=
  let link0 := match link p with
               | Some l => if String.eqb l "" then None else Some l
               | None => None
               end in
  let link1 := match link0 with
               | Some l =>
                   if is_absolute l then Some l
                   else match resolveUrl l base with
                        | Some href => Some href
                        | None => Some l
                        end
               | None => None
               end in
  mkProduct (platform p) (name p) (price p) (image p) (rating p) link1.

(** [browser = await this.acquireFromPool(30000)] inside its
    [try/catch]: the session borrowed, if any. *)
Definition borrow (env : AttemptEnv) (st : Pool.State) : Run (option Browser) :=
  match Pool.acquireFromPool st with
  | (st', Pool.Immediate b) => (st', [Borrow b], Some b)
  | (st', Pool.Threw _) => (st', [AcquireFailed], None)
  | (st', Pool.Waiting t) =>
      let st1 := Pool.run st' (while_waiting env) in
      let st2 := match settlement t st1 with
                 | Some _ => st1
                 | None => Pool.fireTimeout t st1
                 end in
      match settlement t st2 with
      | Some (Pool.Resolved b) => (st2, [Borrow b], Some b)
      | _ => (st2, [AcquireFailed], None)
      end
  end.

(** The part of the [try] block that obtains [browser]: from the pool
    when there is one and a session can be acquired, by a fresh
    launch otherwise.  The result is the browser and the value of
    [borrowedFromPool], or the error [pupp.launch] threw. *)
Definition obtain_browser (env : AttemptEnv) (st : Pool.State)
  : Run (Error + Browser * bool) :=
  let '(st1, evs, borrowed) :=
    match Pool.browserPool st with
    | None => (st, [], None)
    | Some _ => borrow env st
    end in
  match borrowed with
  | Some b => (st1, evs, inr (b, true))
  | None =>
      match launch env with
      | Some err => (st1, evs, inl err)
      | None =>
          let b := Pool.nextBrowser st1 in
          (launched st1, evs ++ [Launch b], inr (b, false))
      end
  end.

(** One iteration of the attempt loop, [catch] block included, up to
    but not including the delay: [inr] is the value returned, [inl]
    the error assigned to [lastErr]. *)
Definition attempt (site : string) (number : nat) (env : AttemptEnv)
           (st : Pool.State) : Run (Error + list Product) :=
  match obtain_browser env st with
  | (st1, evs, inl err) => (st1, Attempt (S number) :: evs, inl err)
  | (st1, evs, inr (b, borrowed)) =>
      match newPage env with
      | Some err =>
          (* inner catch: remove if borrowed, close, rethrow *)
          if borrowed
          then (Pool.removeBrowserFromPool b st1,
                Attempt (S number) :: evs ++ [Remove b; Close b], inl err)
          else (st1, Attempt (S number) :: evs ++ [Close b], inl err)
      | None =>
          let outcome :=
            match pageSetup env with
            | Some err => inl err
            | None => if known_site site then extraction env else inr []
            end in
          match outcome with
          | inl err =>
              (* outer catch: remove if borrowed, close otherwise *)
              if borrowed
              then (Pool.removeBrowserFromPool b st1,
                    Attempt (S number) :: evs ++ [Remove b], inl err)
              else (st1, Attempt (S number) :: evs ++ [Close b], inl err)
          | inr data =>
              let normalized := map (normalize (pageUrl env)) data in
              if borrowed
              then (Pool.releaseToPool b st1,
                    Attempt (S number) :: evs ++ [Release b], inr normalized)
              else (st1, Attempt (S number) :: evs ++ [Close b], inr normalized)
          end
      end
  end.

(** The message of the [Error] thrown after the loop. *)
Definition final_message (lastErr : option Error) : string :=
  match lastErr with
  | Some e => if String.eqb (message e) "" then error_toString e else message e
  | None => "temp-scrape failed"
  end.

(** The [for (let attempt = 0; attempt < 2; attempt++)] loop followed
    by the final [throw]. *)
Fixpoint attempt_loop (site : string) (envs : nat -> AttemptEnv)
         (n number : nat) (lastErr : option Error) (st : Pool.State)
  : Run (Error + list Product) :=
  match n with
  | O => (st, [], inl (mkError "Error" (final_message lastErr)))
  | S n' =>
      match attempt site number (envs number) st with
      | (st1, evs, inr normalized) => (st1, evs, inr normalized)
      | (st1, evs, inl err) =>
          let '(st2, evs', r) :=
            attempt_loop site envs n' (S number) (Some err) st1 in
          (st2, evs ++ Delay 600 :: evs', r)
      end
  end.

Definition scrapeSiteWithTempBrowser (site : string) (envs : nat -> AttemptEnv)
           (st : Pool.State) : Run (Error + list Product) :=
  attempt_loop site envs 2 0%nat None st.

(** [const sites = ['amazon', 'flipkart', 'myntra', 'snapdeal']] *)
Definition sites : list string := ["amazon"; "flipkart"; "myntra"; "snapdeal"].

(** The body of the loop over [sites]: [products] is the array being
    filled. *)
Definition scrape_one (envs : string -> nat -> AttemptEnv)
           (acc : Run (list Product)) (site : string) : Run (list Product) :=
  let '(st, sofar, products) := acc in
  match scrapeSiteWithTempBrowser site (envs site) st with
  | (st1, evs, inr result) =>
      match result with
      | [] => (st1, sofar ++ Site site :: evs, products)
      | _ :: _ => (st1, sofar ++ Site site :: evs, products ++ result)
      end
  | (st1, evs, inl _) => (st1, sofar ++ Site site :: evs, products)
  end.

(** The products pushed by the loop of [scrapeMultipleSites]. *)
Definition gather (envs : string -> nat -> AttemptEnv) (st : Pool.State)
  : Run (list Product) :=
  fold_left (scrape_one envs) sites (st, [], []).

(** [scrapeMultipleSites(query)]; [envs] is what the sites answer for
    this query. *)
Definition scrapeMultipleSites (envs : string -> nat -> AttemptEnv)
           (st : Pool.State) : Run (list Product) :=
  let '(st1, evs, products) := gather envs st in
  (st1, evs, Dedup.deduplicateAndSort products).

End WithUrl.

End Orchestrator.

(* ===================================================================== *)
(** ** The route [POST /api/compare-prices]                               *)
(* ===================================================================== *)

Module Routes.

(** The value of [req.body.query] after [express.json()]. *)
Inductive JsValue : Type :=
| JUndefined
| JNull
| JBool (b : bool)
| JNumber (z : Z)
| JString (s : string)
| JObject.

(** The JSON bodies the route sends. *)
Inductive Body : Type :=
| ErrorBody (error : string)
| FailureBody (error : string) (msg : string)
| ResultsBody (query : string) (results : list Product) (timestamp : string).

Record Response : Type := mkResponse {
  status : nat;
  body : Body
}.

(** [!query] *)
Definition falsy (v : JsValue) : bool :=
  match v with
  | JUndefined | JNull => true
  | JBool b => negb b
  | JNumber z => (z =? 0)%Z
  | JString s => String.eqb s ""
  | JObject => false
  end.

Definition bad_request : Response :=
  mkResponse 400 (ErrorBody "Query must be at least 2 characters long").

(** The [catch] of the handler, reached when [query.trim] is not a
    function. *)
Definition not_a_string : Response :=
  mkResponse 500 (FailureBody "Failed to fetch product data"
                              "query.trim is not a function").

Section WithUrl.

Variable resolveUrl : string -> string -> option string.

(** The handler: [envs q] is what the sites answer for the query [q],
    [now] is [new Date().toISOString()]. *)
Definition comparePrices (query : JsValue)
           (envs : string -> string -> nat -> Orchestrator.AttemptEnv)
           (now : string) (st : Pool.State)
  : Orchestrator.Run Response :=
  if falsy query then (st, [], bad_request)
  else match query with
       | JString s =>
           let q := Js.trim s in
           if (String.length q <? 2)%nat then (st, [], bad_request)
           else
             let '(st1, evs, results) :=
               Orchestrator.scrapeMultipleSites resolveUrl (envs q) st in
             (st1, evs, mkResponse 200 (ResultsBody q results now))
       | _ => (st, [], not_a_string)
       end.

End WithUrl.

End Routes.

(* ===================================================================== *)
(** ** Sample inputs                                                      *)
(* ===================================================================== *)

Module Sample.

(** A stand-in for the URL parser: the link appended to the base. *)
Definition resolveUrl (link base : string) : option string := Some (base ++ link).

(** A pool of two sessions, both launched. *)
Definition two_sessions : Pool.State :=
  Pool.initializeBrowserPool 2 (fun _ => true) Pool.fresh.

(** A pool of one session. *)
Definition one_session : Pool.State :=
  Pool.initializeBrowserPool 1 (fun _ => true) Pool.fresh.

Definition timeout_error : Error := mkError "TimeoutError" "Navigation Timeout".


(** The navigation times out. *)
Definition failing_page : Orchestrator.AttemptEnv :=
  Orchestrator.mkAttemptEnv [] None None None (inl timeout_error)
                            "https://www.amazon.in/s?k=ab".

(** The adapter finds one item. *)
Definition one_item_page : Orchestrator.AttemptEnv :=
  Orchestrator.mkAttemptEnv [] None None None (inr [Dedup.item "book" (Some 250%Z)])
                            "https://www.amazon.in/s?k=ab".

End Sample.


(* ===================================================================== *)
(** ** The pool: callers, owned sessions, [destroyPool]                   *)
(* ===================================================================== *)

Module PoolLaws.

Local Open Scope nat_scope.
Local Open Scope list_scope.

(** [this.browserPool.browsers]: the sessions the pool owns. *)
Definition owned (st : Pool.State) : list Browser :=
  match Pool.browserPool st with
  | None => []
  | Some p => Pool.browsers p
  end.

(** Arrival numbers of the callers whose promise is settled, resolved or
    rejected, oldest settlement first. *)
Definition settledCallers (st : Pool.State) : list nat :=
  map fst (Pool.settled st).

(** Bookkeeping of the callers: nobody is settled twice, nobody is both
    queued and settled, and every caller that arrived is queued or
    settled. *)
Record callers_inv (st : Pool.State) : Prop := mk_callers_inv {
  callers_once : NoDup (settledCallers st);
  callers_apart : ∀ t, t ∈ Pool.waiting st → t ∉ settledCallers st;
  callers_all : ∀ t, t < Pool.arrivals st →
                     t ∈ Pool.waiting st ∨ t ∈ settledCallers st;
  callers_bound : ∀ t, t ∈ settledCallers st → t < Pool.arrivals st
}.

(** The queue discipline and the bookkeeping of the callers together. *)
Definition disciplined (st : Pool.State) : Prop :=
  Pool.fifo_inv st ∧ callers_inv st.

(** What a request relies on and keeps: the bookkeeping of the sessions,
    the queue discipline, and the capacity [c]. *)
Definition sound (c : nat) (st : Pool.State) : Prop :=
  Pool.size_inv st ∧ (Pool.fifo_inv st ∧ callers_inv st) ∧ Pool.capacity st = c.

(** [destroyPool()]: the pool is dropped first, then every session it
    owned is closed (a failing [close] is swallowed).  The result lists
    the sessions closed, in order. *)
Definition destroyPool (st : Pool.State) : Pool.State * list Browser :=
  match Pool.browserPool st with
  | None => (st, [])
  | Some p =>
      (Pool.mkState None (Pool.timers st) (Pool.launching st)
                    (Pool.nextBrowser st) (Pool.arrivals st) (Pool.settled st),
       Pool.browsers p)
  end.

(** Steps that never give a session back and never take one out of the
    pool: arrivals of callers, timers, completions of replacement
    launches. *)
Definition quiet (o : Pool.Op) : bool :=
  match o with
  | Pool.OpRelease _ | Pool.OpRemove _ => false
  | _ => true
  end.

End PoolLaws.

(* ===================================================================== *)
(** ** The pool while [initializeBrowserPool] is still launching           *)
(* ===================================================================== *)

(** The constructor does not wait for [initializeBrowserPool], and the
    server listens at once: between two launches of the loop the
    handlers run, and callers of [acquireFromPool] come and go.  Here
    the loop is taken apart, one event for each launch that settles. *)
Module Boot.

Local Open Scope nat_scope.
Local Open Scope list_scope.

(** [this.poolSize]: what [parseInt(..., 10)] returned, an integer or
    [NaN] (for a setting that does not begin with a number). *)
Inductive Number : Type :=
| Int (z : Z)
| NaN.

(** [Math.max(1, this.poolSize)] *)
Definition max1 (n : Number) : Number :=
  match n with
  | Int z => Int (Z.max 1 z)
  | NaN => NaN
  end.

(** How often the body of [for (let i = 0; i < size; i++)] runs: never
    when [size] is [NaN]. *)
Definition iterations (size : Number) : nat :=
  match size with
  | Int z => Z.to_nat z
  | NaN => 0
  end.

(** [initializeBrowserPool()] up to its first [await]: the pool object
    is stored, with empty arrays.  The field [size] is written here and
    never read again except for a log line; the model keeps in it the
    number of launches the loop makes, which is the value of the field
    unless that is [NaN]. *)
Definition start (poolSize : Number) (st : Pool.State) : Pool.State :=
  Pool.with_pool st (Pool.mkPool (iterations (max1 poolSize)) [] [] []).

(** What happens between two suspension points once the pool object is
    stored: a launch of the loop settles, or one of the steps of the
    pool runs.  The loop makes [iterations] launches; nothing below
    depends on their number. *)
Inductive Event : Type :=
| Launch (ok : bool)
| Request (o : Pool.Op).

Definition step (st : Pool.State) (e : Event) : Pool.State :=
  match e with
  | Launch ok => Pool.init_launch ok st
  | Request o => Pool.step st o
  end.

Definition run (st : Pool.State) (es : list Event) : Pool.State :=
  fold_left step es st.

(** The server from its construction on. *)
Definition boot (poolSize : Number) (es : list Event) : Pool.State :=
  run (start poolSize Pool.fresh) es.

(** The launches of the loop with nothing in between. *)
Definition loop (launch_ok : nat -> bool) (n : nat) : list Event :=
  map (fun i => Launch (launch_ok i)) (seq 0 n).

(** The callers follow the protocol of [Pool.op_ok]. *)
Fixpoint run_ok (st : Pool.State) (es : list Event) : bool :=
  match es with
  | [] => true
  | e :: es' =>
      match e with
      | Launch _ => true
      | Request o => Pool.op_ok st o
      end && run_ok (step st e) es'
  end.

(** No launch of the loop brings a session while a caller is pending. *)
Fixpoint calm (st : Pool.State) (es : list Event) : bool :=
  match es with
  | [] => true
  | e :: es' =>
      match e, Pool.waiting st with
      | Launch true, _ :: _ => false
      | _, _ => true
      end && calm (step st e) es'
  end.

(** The bookkeeping of the sessions without the bound on their number:
    no session is listed twice, and the idle sessions are owned. *)
Definition tidy (st : Pool.State) : Prop :=
  ∃ p, Pool.browserPool st = Some p
       ∧ NoDup (Pool.browsers p)
       ∧ NoDup (Pool.available p)
       ∧ (∀ b, b ∈ Pool.available p → b ∈ Pool.browsers p)
       ∧ (∀ b, b ∈ Pool.browsers p → b < Pool.nextBrowser st).

End Boot.

(* ===================================================================== *)
(** ** The shared-browser scrapers                                        *)
(* ===================================================================== *)

Module Scrapers.

Local Open Scope list_scope.

(** Number of times [withRetry] reinitialized the shared browser. *)
Definition recoveries (st : Retry.State) : nat :=
  length (List.filter (fun e => match e with Retry.Reinitialize _ => true | _ => false end)
                      (Retry.log st)).

(** Number of times [withRetry] closed the shared browser. *)
Definition closings (st : Retry.State) : nat :=
  length (List.filter (fun e => match e with Retry.CloseShared _ => true | _ => false end)
                      (Retry.log st)).

(** [scrapeAmazon(query)] and [scrapeFlipkart(query)]:
    [return this.withRetry(async (q) => { ... }, query, 2).catch(err => [])].
    [task i] is the outcome of the [i]-th run of the inner function.  The
    statements that follow the [return] in [scrapeAmazon] are never
    reached. *)
Definition scrapeWithRetry (task : nat -> Error + list Product)
           (relaunch : nat -> bool) (st : Retry.State)
  : Retry.State * list Product :=
  match Retry.withRetry task relaunch 2 st with
  | (st', inr products) => (st', products)
  | (st', inl _) => (st', [])
  end.

(** What a page of the shared browser does for [scrapeMyntra] and
    [scrapeSnapdeal]. *)
Record PageEnv : Type := mkPageEnv {
  (** [this.browser.newPage()] *)
  openPage : option Error;
  (** [setUserAgent], [goto], [evaluate] *)
  extract : Error + list Product;
  (** [page.close()] *)
  closePage : option Error
}.

Inductive PageEvent : Type :=
| Opened
| CloseCalled.

(** [scrapeMyntra(query)] and [scrapeSnapdeal(query)]: [try] the page,
    [catch] gives [[]], [finally] closes the page if there is one - and a
    rejection of that [close] leaves the function. *)
Definition scrapeDirect (browser : option Browser) (env : PageEnv)
  : list PageEvent * (Error + list Product) :=
  match browser with
  | None => ([], inr [])
  | Some _ =>
      match openPage env with
      | Some _ => ([], inr [])
      | None =>
          let products := match extract env with
                          | inr l => l
                          | inl _ => []
                          end in
          match closePage env with
          | Some err => ([Opened; CloseCalled], inl err)
          | None => ([Opened; CloseCalled], inr products)
          end
      end
  end.

End Scrapers.

(* ===================================================================== *)
(** ** Counting what a scrape did                                         *)
(* ===================================================================== *)

Module OrchestratorLaws.

Local Open Scope nat_scope.
Local Open Scope list_scope.

Definition is_delay (e : Orchestrator.Event) : bool :=
  match e with Orchestrator.Delay _ => true | _ => false end.

(** Number of passes through the [try] block. *)
Definition attempts_made (evs : list Orchestrator.Event) : nat :=
  length (List.filter Orchestrator.is_attempt evs).

(** Number of 600 ms pauses. *)
Definition delays_slept (evs : list Orchestrator.Event) : nat :=
  length (List.filter is_delay evs).

(** The errors an attempt can meet. *)
Definition errors_of (env : Orchestrator.AttemptEnv) : list (option Error) :=
  [Orchestrator.launch env; Orchestrator.newPage env; Orchestrator.pageSetup env;
   match Orchestrator.extraction env with inl e => Some e | inr _ => None end].

(** A session the pool owns that is not idle: somebody holds it. *)
Definition held (b : Browser) (st : Pool.State) : Prop :=
  b ∈ PoolLaws.owned st ∧ b ∉ Pool.idle st.

(** A product that the adapter returned on attempt [i], with its link
    normalized. *)
Definition extracted (resolveUrl : string → string → option string)
           (envs : nat → Orchestrator.AttemptEnv) (i : nat) (p : Product) : Prop :=
  ∃ data, Orchestrator.extraction (envs i) = inr data
          ∧ In p (map (Orchestrator.normalize resolveUrl
                         (Orchestrator.pageUrl (envs i))) data).

(** The session caller [t] was resolved with, if any, is held. *)
Definition resolved_held (t : nat) (st : Pool.State) : Prop :=
  ∀ b, Orchestrator.settlement t st = Some (Pool.Resolved b) → held b st.

(** An attempt, listed by what happened to its session. *)
Inductive attempt_shape (env : Orchestrator.AttemptEnv) (n : nat)
  : list Orchestrator.Event → Error + list Product → Prop :=
| shape_released b data :
    attempt_shape env n [Orchestrator.Attempt (S n); Orchestrator.Borrow b; Orchestrator.Release b] (inr data)
| shape_removed b e :
    In (Some e) (errors_of env) →
    attempt_shape env n [Orchestrator.Attempt (S n); Orchestrator.Borrow b; Orchestrator.Remove b] (inl e)
| shape_removed_closed b e :
    In (Some e) (errors_of env) →
    attempt_shape env n [Orchestrator.Attempt (S n); Orchestrator.Borrow b; Orchestrator.Remove b; Orchestrator.Close b] (inl e)
| shape_fresh b r :
    (∀ e, r = inl e → In (Some e) (errors_of env)) →
    attempt_shape env n [Orchestrator.Attempt (S n); Orchestrator.Launch b; Orchestrator.Close b] r
| shape_fresh_after_failure b r :
    (∀ e, r = inl e → In (Some e) (errors_of env)) →
    attempt_shape env n [Orchestrator.Attempt (S n); Orchestrator.AcquireFailed; Orchestrator.Launch b; Orchestrator.Close b] r
| shape_no_browser e :
    In (Some e) (errors_of env) →
    attempt_shape env n [Orchestrator.Attempt (S n)] (inl e)
| shape_no_browser_after_failure e :
    In (Some e) (errors_of env) →
    attempt_shape env n [Orchestrator.Attempt (S n); Orchestrator.AcquireFailed] (inl e).

(** While this request waits for a session, the pool only sees arrivals
    of other callers, timers and completions of replacement launches. *)
Definition quiet_env (env : Orchestrator.AttemptEnv) : bool :=
  forallb PoolLaws.quiet (Orchestrator.while_waiting env).

End OrchestratorLaws.

(* ===================================================================== *)
(** ** Diagnostics: [logDebug], [/api/logs], [/api/temp-scrape],
       [/api/run-scraper]                                                 *)
(* ===================================================================== *)

Module Service.

Local Open Scope nat_scope.
Local Open Scope list_scope.

(** [this._maxDebugLogs] *)
Definition maxDebugLogs : nat := 200.

(** [arr.slice(-n)] *)
Definition lastN {A : Type} (n : nat) (l : list A) : list A :=
  drop (length l - n) l.

(** [logDebug(...args)] on [this._debugLogs]: [line] is the formatted
    line, [None] when formatting it threw (the [catch] then only prints). *)
Definition logDebug (line : option string) (logs : list string) : list string :=
  match line with
  | None => logs
  | Some l =>
      let logs' := logs ++ [l] in
      if maxDebugLogs <? length logs' then tail logs' else logs'
  end.

(** The handler of [/api/logs]: [this._debugLogs.slice(-100)]. *)
Definition apiLogs (logs : list string) : list string := lastN 100 logs.

(** [(req.query.x || '')] for a query parameter that is absent or a
    string. *)
Definition param (x : option string) : string :=
  match x with
  | Some v => v
  | None => ""
  end.

(** The JSON bodies of the two diagnostic routes. *)
Inductive Body : Type :=
| ErrorBody (error : string)
| FailureBody (error : string) (msg : string)
| TempBody (site query : string) (count : nat) (samples : list Product)
| RunBody (site query : string) (resultsCount : nat) (samples : list Product)
| RunTextBody (site query : string) (resultsCount : nat) (samples : string).

Record Response : Type := mkResponse {
  status : nat;
  body : Body
}.

Definition short_query : Response :=
  mkResponse 400 (ErrorBody "Query must be at least 2 characters").

(** [err && err.message ? err.message : String(err)] *)
Definition message_or_string (err : Error) : string :=
  if String.eqb (message err) "" then error_toString err else message err.

Section WithUrl.

Variable resolveUrl : string -> string -> option string.

(** The handler of [/api/temp-scrape]. *)
Definition tempScrape (site query : option string)
           (envs : string -> string -> nat -> Orchestrator.AttemptEnv)
           (st : Pool.State) : Orchestrator.Run Response :=
  let site := Js.toLowerCase (param site) in
  let query := Js.trim (param query) in
  if String.eqb query "" || (String.length query <? 2) then (st, [], short_query)
  else
    match Orchestrator.scrapeSiteWithTempBrowser resolveUrl site (envs query site) st with
    | (st1, evs, inr data) =>
        (st1, evs, mkResponse 200 (TempBody site query (length data) (take 5 data)))
    | (st1, evs, inl err) =>
        (st1, evs, mkResponse 500 (FailureBody "temp-scrape failed"
                                               (message_or_string err)))
    end.

End WithUrl.

(** What [mapping[site]] is for the object literal
    [{ amazon, flipkart, myntra, snapdeal }]: one of the four bound
    scrapers, a property every object inherits, or [undefined].  After
    [toLowerCase] the only inherited names that can be hit are
    ["constructor"] (the function [Object]) and ["__proto__"] (the
    prototype object). *)
Inductive Mapped : Type :=
| Scraper
| InheritedObject
| InheritedPrototype
| Unmapped.

Definition mapping (site : string) : Mapped :=
  if Orchestrator.known_site site then Scraper
  else if String.eqb site "constructor" then InheritedObject
  else if String.eqb site "__proto__" then InheritedPrototype
  else Unmapped.

(** The handler of [/api/run-scraper]; [scraper site query] is the
    outcome of the scraper of that site on that query. *)
Definition runScraper (site query : option string)
           (scraper : string -> string -> Error + list Product) : Response :=
  let site := Js.toLowerCase (param site) in
  let query := Js.trim (param query) in
  if String.eqb query "" || (String.length query <? 2) then short_query
  else
    match mapping site with
    | Unmapped => mkResponse 400 (ErrorBody "Unknown site")
    | Scraper =>
        match scraper site query with
        | inr results =>
            mkResponse 200 (RunBody site query (length results) (take 5 results))
        | inl err =>
            mkResponse 500 (FailureBody "run-scraper failed" (message err))
        end
    | InheritedObject =>
        (* Object(query) is a String object: it has a length and a slice *)
        mkResponse 200 (RunTextBody site query (String.length query)
                                    (Js.substring0 5 query))
    | InheritedPrototype =>
        mkResponse 500 (FailureBody "run-scraper failed"
                                    "mapping[site] is not a function")
    end.

End Service.

(* ===================================================================== *)
(** ** The extension: background worker, content script, popup            *)
(* ===================================================================== *)

(** The star line of a product card.  A rating is a JavaScript number,
    taken here as a rational. *)
Module Rating.

Import QArith Qround.
Local Open Scope Q_scope.

Inductive Star : Type :=
| Filled    (* U+2605 *)
| Hollow.   (* U+2606 *)

(** [x % 1]: the remainder has the sign of [x]. *)
Definition remainder1 (x : Q) : Q :=
  if Qle_bool 0 x then x - inject_Z (Qfloor x) else x - inject_Z (Qceiling x).

(** [glyph.repeat(n)] for an integer [n]: a negative count throws a
    [RangeError]. *)
Definition repeat_glyph (glyph : Star) (n : Z) : option (list Star) :=
  if (n <? 0)%Z then None else Some (replicate (Z.to_nat n) glyph).

(** [generateStars(rating)]; [None] when it throws. *)
Definition generateStars (rating : Q) : option (list Star) :=
  let fullStars := Qfloor rating in
  let hasHalfStar := Qle_bool (1 # 2) (remainder1 rating) in
  let emptyStars := (5 - fullStars - (if hasHalfStar then 1 else 0))%Z in
  match repeat_glyph Filled fullStars, repeat_glyph Hollow emptyStars with
  | Some full, Some empty =>
      Some (full ++ (if hasHalfStar then [Hollow] else []) ++ empty)%list
  | _, _ => None
  end.

Definition filled (stars : list Star) : nat :=
  length (List.filter (fun g => match g with Filled => true | Hollow => false end) stars).

(** [product.rating ? parseFloat(product.rating) : 0]: [null] and [0]
    are falsy, and [parseFloat] of a number is that number. *)
Definition shown_rating (rating : option Q) : Q :=
  match rating with
  | Some r => if Qeq_bool r 0 then 0 else r
  | None => 0
  end.

End Rating.

Module Extension.

Local Open Scope list_scope.

(** *** background.js *)

(** An entry of [searchHistory]: [{ query, timestamp }]. *)
Record Search : Type := mkSearch {
  search_query : string;
  timestamp : Z
}.

(** The key [searchHistory] of [chrome.storage.local]; [None] while it
    was never set. *)
Definition History : Type := option (list Search).

(** [result.searchHistory || []] *)
Definition entries (h : History) : list Search :=
  match h with
  | Some l => l
  | None => []
  end.

(** [trackSearchAnalytics(query)], the storage read and its callback
    taken as one step; [now] is [Date.now()]. *)
Definition trackSearchAnalytics (query : string) (now : Z) (h : History) : History :=
  let history := entries h ++ [mkSearch query now] in
  Some (Service.lastN 100 history).

(** [7 * 24 * 60 * 60 * 1000] *)
Definition week : Z := 7 * 24 * 60 * 60 * 1000.

(** [cleanupOldData()] *)
Definition cleanupOldData (now : Z) (h : History) : History :=
  match h with
  | None => None
  | Some l => Some (List.filter (fun item => (now - week <? timestamp item)%Z) l)
  end.

(** What the worker does to the history: a [trackSearch] message or the
    [cleanup] alarm. *)
Inductive Action : Type :=
| Track (query : string) (now : Z)
| Cleanup (now : Z).

Definition act (h : History) (a : Action) : History :=
  match a with
  | Track q now => trackSearchAnalytics q now h
  | Cleanup now => cleanupOldData now h
  end.

Definition tracked (a : Action) : option Search :=
  match a with
  | Track q now => Some (mkSearch q now)
  | Cleanup _ => None
  end.

(** *** content.js and the stored selection *)

(** [handleSelectionChange()]: [selection] is
    [window.getSelection().toString()], [stored] the key [selectedText]
    of the storage. *)
Definition handleSelectionChange (selection : string) (stored : option string)
  : option string :=
  let selectedText := Js.trim selection in
  if negb (String.eqb selectedText "") && (2 <? String.length selectedText)%nat
  then Some selectedText
  else stored.

(** A text that does not begin with white space. *)
Definition starts_clean (s : string) : Prop :=
  match s with
  | EmptyString => True
  | String c _ => Js.is_space c = false
  end.

(** [text.length > 30 ? text.substring(0, 30) + '...' : text] *)
Definition truncatedText (text : string) : string :=
  if (30 <? String.length text)%nat then Js.substring0 30 text ++ "..." else text.

(** [loadSelectedText()] of the popup: [selection] is what the injected
    script read, [None] when there is no tab or the injection failed. *)
Definition loadSelectedText (selection : option string) (stored : option string)
  : option string :=
  match selection with
  | None => stored
  | Some text =>
      let selectedText := Js.trim text in
      if String.eqb selectedText "" then stored else Some selectedText
  end.

(** The writers of the key [selectedText]. *)
Inductive Write : Type :=
| SelectionChanged (selection : string)
| PopupOpened (selection : option string).

Definition write (stored : option string) (w : Write) : option string :=
  match w with
  | SelectionChanged selection => handleSelectionChange selection stored
  | PopupOpened selection => loadSelectedText selection stored
  end.

Definition from_page (w : Write) : bool :=
  match w with
  | SelectionChanged _ => true
  | PopupOpened _ => false
  end.

(** *** popup.js *)

(** The double-quote character, code 34. *)
Definition dquote : string := String (ascii_of_nat 34) EmptyString.

(** [s.replace(/c/g, by)] for a one-character pattern. *)
Fixpoint replaceAll (c : ascii) (by_ : string) (s : string) : string :=
  match s with
  | EmptyString => EmptyString
  | String d s' =>
      if Ascii.eqb c d then by_ ++ replaceAll c by_ s'
      else String d (replaceAll c by_ s')
  end.

(** The five [replace] calls of [escapeHtml], in the order of the
    source. *)
Definition replaced (str : string) : string :=
  replaceAll "'" "&#39;"
    (replaceAll (ascii_of_nat 34) "&quot;"
       (replaceAll ">" "&gt;"
          (replaceAll "<" "&lt;"
             (replaceAll "&" "&amp;" str)))).

(** [escapeHtml(str)] on a string. *)
Definition escapeHtml (str : string) : string :=
  if String.eqb str "" then "" else replaced str.

(** What one character of a text becomes in HTML. *)
Definition entity (c : ascii) : string :=
  if Ascii.eqb c "&" then "&amp;"
  else if Ascii.eqb c "<" then "&lt;"
  else if Ascii.eqb c ">" then "&gt;"
  else if Ascii.eqb c (ascii_of_nat 34) then "&quot;"
  else if Ascii.eqb c "'" then "&#39;"
  else String c EmptyString.

Fixpoint escapeEach (s : string) : string :=
  match s with
  | EmptyString => EmptyString
  | String c s' => entity c ++ escapeEach s'
  end.

(** The characters that open a tag or close an attribute. *)
Definition is_markup (c : ascii) : bool :=
  Ascii.eqb c "<" || Ascii.eqb c ">" || Ascii.eqb c (ascii_of_nat 34)
  || Ascii.eqb c "'".

Fixpoint has_markup (s : string) : bool :=
  match s with
  | EmptyString => false
  | String c s' => is_markup c || has_markup s'
  end.

(** The texts [createProductElement(product)] writes into a card; the
    price and the rating number, formatted by the platform, are left
    out. *)
Record Card : Type := mkCard {
  card_platform : string;
  card_name : string;
  card_stars : list Rating.Star;
  card_site : string
}.

(** [createProductElement(product)]; [None] when [generateStars]
    throws. *)
Definition createProductElement (product : Product) : option Card :=
  match Rating.generateStars (Rating.shown_rating (rating product)) with
  | None => None
  | Some stars =>
      Some (mkCard (escapeHtml (platform product))
                   (escapeHtml (name product))
                   stars
                   (escapeHtml (if String.eqb (platform product) ""
                                then "site" else platform product)))
  end.

(** What the popup shows. *)
Inductive View : Type :=
| ErrorShown (msg : string)
| ResultsShown (resultCount : string) (items : list Card).

(** [displayResults(results, query)]; [None] when a card throws. *)
Definition displayResults (results : list Product) (query : string) : option View :=
  match results with
  | [] => Some (ErrorShown ("No products found for " ++ dquote ++ query ++ dquote
                            ++ ". Try a different search term."))
  | _ :: _ =>
      match mapM createProductElement results with
      | Some cards =>
          Some (ResultsShown (pretty (length results) ++ " result"
                              ++ (if Nat.eqb (length results) 1 then "" else "s"))
                             cards)
      | None => None
      end
  end.

Definition fetch_failed : View :=
  ErrorShown "Failed to fetch prices. Please check your connection and try again.".

(** [response.ok] *)
Definition ok (r : Routes.Response) : bool :=
  (200 <=? Routes.status r)%nat && (Routes.status r <=? 299)%nat.

(** [data.results] *)
Definition results_of (b : Routes.Body) : list Product :=
  match b with
  | Routes.ResultsBody _ results _ => results
  | _ => []
  end.

(** [handleSearch()]: [input] is [this.productInput.value]; [post q] is
    the response to the body [{ query: q }], [None] when [fetch]
    rejects.  The result is the view left on the screen and the query
    posted, if any. *)
Definition handleSearch (input : string) (post : string -> option Routes.Response)
  : View * option string :=
  let query := Js.trim input in
  if String.eqb query "" then (ErrorShown "Please enter a product name", None)
  else
    match post query with
    | None => (fetch_failed, Some query)
    | Some response =>
        if negb (ok response) then (fetch_failed, Some query)
        else
          match displayResults (results_of (Routes.body response)) query with
          | Some view => (view, Some query)
          | None => (fetch_failed, Some query)
          end
    end.

(** [useSelectedText()]: the new value of the input and the error
    shown, if any. *)
Definition useSelectedText (stored : option string) (input : string)
  : string * option View :=
  match stored with
  | Some selectedText =>
      if String.eqb selectedText ""
      then (input, Some (ErrorShown "No text selected on the webpage. Please select text first."))
      else (selectedText, None)
  | None => (input, Some (ErrorShown "No text selected on the webpage. Please select text first."))
  end.

End Extension.

(* ===================================================================== *)
(** * Properties                                                          *)
(* ===================================================================== *)

Section DedupFacts.

Import Dedup.

Local Open Scope list_scope.

Implicit Types (p q : Product) (l products unique : list Product)
         (seen : gset string).

Lemma dedup_loop_acc products seen unique :
  dedup_loop products seen unique = unique ++ dedup_loop products seen [].
Proof.
  revert seen unique.
  induction products as [|p rest IH]; intros seen unique; simpl.
  - by rewrite app_nil_r.
  - destruct (decide (dedupKey p ∈ seen)); [apply IH|].
    rewrite (IH _ (unique ++ [p])), (IH _ ([] ++ [p])).
    by rewrite <- app_assoc.
Qed.

Lemma dedup_loop_cons p rest seen :
  dedup_loop (p :: rest) seen [] =
    if decide (dedupKey p ∈ seen) then dedup_loop rest seen []
    else p :: dedup_loop rest ({[ dedupKey p ]} ∪ seen) [].
Proof.
  simpl. destruct (decide (dedupKey p ∈ seen)); [done|].
  by rewrite dedup_loop_acc.
Qed.

(** Nothing whose key is already in [seen] gets through. *)
Lemma dedup_loop_unseen products seen q :
  q ∈ dedup_loop products seen [] → (dedupKey q ∉ seen) ∧ (q ∈ products).
Proof.
  revert seen. induction products as [|p rest IH]; intros seen.
  - simpl. by intros ?%elem_of_nil.
  - rewrite dedup_loop_cons.
    destruct (decide (dedupKey p ∈ seen)) as [Hin|Hout].
    + intros [? ?]%IH. split; [done | by apply elem_of_cons; right].
    + intros [->|Hq]%elem_of_cons.
      * split; [done | by apply elem_of_cons; left].
      * apply IH in Hq as [Hk ?]. split; [set_solver | by apply elem_of_cons; right].
Qed.

Lemma other_key_true k q : other_key k q = true ↔ dedupKey q ≠ k.
Proof.
  unfold other_key. rewrite negb_true_iff.
  destruct (String.eqb_spec (dedupKey q) k); split; congruence.
Qed.

Lemma filter_all_true {A} (f : A → bool) (l : list A) :
  (∀ x, x ∈ l → f x = true) → List.filter f l = l.
Proof.
  induction l as [|x l IH]; intros H; simpl; [done|].
  rewrite (H x) by (apply elem_of_cons; by left).
  f_equal. apply IH. intros y Hy. apply H, elem_of_cons. by right.
Qed.

(** Marking one more key as seen removes exactly the products with
    that key from what the loop keeps. *)
Lemma dedup_loop_seen_more products seen k :
  dedup_loop products ({[ k ]} ∪ seen) [] =
    List.filter (other_key k) (dedup_loop products seen []).
Proof.
  revert seen. induction products as [|p rest IH]; intros seen; [done|].
  rewrite !dedup_loop_cons.
  destruct (decide (dedupKey p ∈ seen)) as [Hin|Hout].
  - rewrite decide_True by set_solver. apply IH.
  - destruct (decide (dedupKey p = k)) as [<-|Hne].
    + rewrite decide_True by set_solver. simpl.
      replace (other_key (dedupKey p) p) with false
        by (symmetry; unfold other_key; by rewrite String.eqb_refl).
      symmetry. apply filter_all_true. intros q Hq.
      apply dedup_loop_unseen in Hq as [Hq _].
      apply other_key_true. set_solver.
    + rewrite decide_False by set_solver. simpl.
      replace (other_key k p) with true
        by (symmetry; by apply other_key_true).
      f_equal.
      replace ({[dedupKey p]} ∪ ({[k]} ∪ seen))
        with ({[k]} ∪ ({[dedupKey p]} ∪ seen)) by set_solver.
      apply IH.
Qed.

Lemma unique_of_first_occurrences products :
  unique_of products = first_occurrences products.
Proof.
  unfold unique_of. induction products as [|p rest IH]; [done|].
  rewrite dedup_loop_cons, decide_False by set_solver.
  simpl. f_equal. rewrite <- IH.
  replace ({[dedupKey p]} ∪ ∅ : gset string) with ({[dedupKey p]} ∪ (∅ : gset string))
    by done.
  apply dedup_loop_seen_more.
Qed.

Lemma dedup_loop_NoDup products seen :
  NoDup (map dedupKey (dedup_loop products seen [])).
Proof.
  revert seen. induction products as [|p rest IH]; intros seen.
  - constructor.
  - rewrite dedup_loop_cons. destruct (decide (dedupKey p ∈ seen)); [apply IH|].
    simpl. apply NoDup_cons. split; [|apply IH].
    intros (q & Hk & Hq)%list_elem_of_In%in_map_iff.
    apply list_elem_of_In, dedup_loop_unseen in Hq as [Hq _]. set_solver.
Qed.

(** *** The stable sort *)

Section Sorting.

Variable cmp : Product → Product → Z.

Lemma insert_by_perm x l : insert_by cmp x l ≡ₚ x :: l.
Proof.
  induction l as [|y l IH]; simpl; [done|].
  destruct (0 <? cmp x y)%Z; [|done].
  rewrite IH. apply Permutation_swap.
Qed.

Lemma sort_by_perm l : sort_by cmp l ≡ₚ l.
Proof.
  induction l as [|x l IH]; simpl; [done|].
  by rewrite insert_by_perm, IH.
Qed.

End Sorting.

Lemma insert_by_sorted x l :
  StronglySorted by_price l →
  StronglySorted by_price (insert_by comparePrice x l).
Proof.
  induction 1 as [|y l Hl IH Hy]; simpl.
  - repeat constructor.
  - unfold comparePrice at 1.
    destruct (Z.ltb_spec 0 (effective_price x - effective_price y)) as [Hlt|Hle].
    + constructor; [done|].
      rewrite Forall_forall. intros z Hz.
      rewrite (insert_by_perm comparePrice x l) in Hz.
      apply elem_of_cons in Hz as [->|Hz].
      * unfold by_price. lia.
      * rewrite Forall_forall in Hy. by apply Hy.
    + constructor; [by constructor|].
      constructor; [unfold by_price; lia|].
      rewrite Forall_forall in Hy |- *. intros z Hz.
      specialize (Hy z Hz). unfold by_price in *. lia.
Qed.

Lemma sortByPrice_sorted l : StronglySorted by_price (sortByPrice l).
Proof.
  unfold sortByPrice. induction l as [|x l IH]; simpl; [constructor|].
  by apply insert_by_sorted.
Qed.

(** Stability: products that [f] selects keep their order, provided
    [f] selects products of one effective price only. *)
Lemma insert_by_stable (f : Product → bool) x l :
  (∀ a b, f a = true → f b = true → effective_price a = effective_price b) →
  List.filter f (insert_by comparePrice x l) = List.filter f (x :: l).
Proof.
  intros Hf. induction l as [|y l IH]; [done|].
  simpl insert_by. unfold comparePrice at 1.
  destruct (Z.ltb_spec 0 (effective_price x - effective_price y)) as [Hlt|Hle]; [|done].
  simpl in *. rewrite IH.
  destruct (f x) eqn:Hx, (f y) eqn:Hy; try done.
  (* both selected: they would have to differ in effective price *)
  specialize (Hf x y Hx Hy). lia.
Qed.

Lemma sortByPrice_stable (f : Product → bool) l :
  (∀ a b, f a = true → f b = true → effective_price a = effective_price b) →
  List.filter f (sortByPrice l) = List.filter f l.
Proof.
  intros Hf. unfold sortByPrice. induction l as [|x l IH]; [done|].
  simpl sort_by. rewrite insert_by_stable by done.
  simpl. by rewrite IH.
Qed.

(** In a list sorted by effective price, a product that is strictly
    cheaper stands in front. *)
Lemma sorted_cheaper_first l i j p q :
  StronglySorted by_price l →
  l !! i = Some p → l !! j = Some q →
  (effective_price q < effective_price p)%Z → (j < i)%nat.
Proof.
  intros Hs. revert i j. induction Hs as [|y l Hl IH Hy]; intros i j Hi Hj Hlt.
  - by rewrite lookup_nil in Hi.
  - destruct i as [|i], j as [|j]; simpl in *; simplify_eq.
    + lia.
    + exfalso. rewrite Forall_forall in Hy.
      assert (by_price p q) as Hpq.
      { apply Hy. apply list_elem_of_lookup. eauto. }
      unfold by_price in Hpq. lia.
    + lia.
    + specialize (IH i j Hi Hj Hlt). lia.
Qed.

End DedupFacts.

Section RemoveFirst.

Local Open Scope nat_scope.

Implicit Types (x y : nat) (l : list nat).

Lemma existsb_eqb_elem_of x l : existsb (Nat.eqb x) l = true ↔ x ∈ l.
Proof.
  induction l as [|y l IH]; simpl.
  - split; [done | by intros ?%elem_of_nil].
  - rewrite orb_true_iff, IH, elem_of_cons, Nat.eqb_eq. done.
Qed.

Lemma existsb_eqb_not_elem_of x l : existsb (Nat.eqb x) l = false ↔ x ∉ l.
Proof.
  rewrite <- existsb_eqb_elem_of. destruct (existsb _ l); split; congruence.
Qed.

Lemma remove_first_elem_of x y l : y ∈ remove_first x l → y ∈ l.
Proof.
  induction l as [|z l IH]; simpl; [done|].
  destruct (Nat.eqb_spec x z) as [->|Hne]; rewrite !elem_of_cons; [auto|].
  intros [->|Hy]; auto.
Qed.

Lemma remove_first_NoDup_elem_of x y l :
  NoDup l → y ∈ remove_first x l ↔ y ∈ l ∧ y ≠ x.
Proof.
  induction 1 as [|z l Hz Hl IH]; simpl.
  - split; [by intros ?%elem_of_nil | by intros [?%elem_of_nil _]].
  - destruct (Nat.eqb_spec x z) as [->|Hne]; rewrite !elem_of_cons.
    + split; [intros Hy; split; [auto | by intros ->] | intros [[->|?] ?]; done].
    + rewrite IH. split.
      * intros [->|[? ?]]; auto.
      * intros [[->|?] ?]; auto.
Qed.

Lemma remove_first_NoDup x l : NoDup l → NoDup (remove_first x l).
Proof.
  induction 1 as [|z l Hz Hl IH]; simpl; [constructor|].
  destruct (Nat.eqb_spec x z); [done|].
  apply NoDup_cons. split; [|done].
  intros ?%remove_first_elem_of. done.
Qed.

Lemma remove_first_length x l :
  x ∈ l → S (length (remove_first x l)) = length l.
Proof.
  induction l as [|z l IH]; simpl; [by intros ?%elem_of_nil|].
  destruct (Nat.eqb_spec x z) as [->|Hne]; [done|].
  intros [?|Hx]%elem_of_cons; [done|]. simpl. by rewrite IH.
Qed.

Lemma remove_first_sorted x l :
  StronglySorted lt l → StronglySorted lt (remove_first x l).
Proof.
  induction 1 as [|z l Hl IH Hz]; simpl; [constructor|].
  destruct (Nat.eqb_spec x z); [done|].
  constructor; [done|].
  rewrite Forall_forall in Hz |- *.
  intros y ?%remove_first_elem_of. by apply Hz.
Qed.

Lemma remove_first_head x l : remove_first x (x :: l) = l.
Proof. simpl. by rewrite Nat.eqb_refl. Qed.

Lemma sorted_snoc l x :
  StronglySorted lt l → (∀ y, y ∈ l → y < x) → StronglySorted lt (l ++ [x]).
Proof.
  intros Hl Hx. apply StronglySorted_app_2; [|done|repeat constructor].
  intros y z Hy ->%list_elem_of_singleton. by apply Hx.
Qed.

Lemma sorted_head_not_in x l : StronglySorted lt (x :: l) → x ∉ l.
Proof.
  intros [Hx _]%StronglySorted_cons Hin.
  rewrite Forall_forall in Hx. specialize (Hx x Hin). lia.
Qed.

End RemoveFirst.

Section PoolFifo.

Import Pool.

Local Open Scope nat_scope.
Local Open Scope list_scope.

Implicit Types (st : State) (p : Pool) (b : Browser) (t : nat).

Lemma served_of_resolved lg t b :
  served_of (lg ++ [(t, Resolved b)]) = served_of lg ++ [t].
Proof. unfold served_of. by rewrite omap_app. Qed.

Lemma served_of_rejected lg t msg :
  served_of (lg ++ [(t, Rejected msg)]) = served_of lg.
Proof. unfold served_of. rewrite omap_app. simpl. by rewrite app_nil_r. Qed.

Lemma served_unfold bp tm la nb ar lg :
  served (mkState bp tm la nb ar lg) = served_of lg.
Proof. done. Qed.

Ltac open_state st p :=
  destruct st as [[p|] tm la nb ar lg];
  [destruct p as [sz bs av pd]|].

Ltac use_inv H :=
  destruct H as [Hpool Hws Hss Hfirst Hwb Hsb Hidle Htm];
  unfold waiting, idle in *; simpl in *.

Lemma fifo_acquire st : fifo_inv st → fifo_inv (fst (acquireFromPool st)).
Proof.
  intros H. open_state st p; [|by destruct H as [[? [=]]]].
  use_inv H. rewrite served_unfold in *.
  unfold acquireFromPool; simpl. destruct av as [|b rest]; simpl.
  - (* queued behind the pending entries *)
    constructor; unfold waiting, idle; simpl; rewrite ?served_unfold; eauto.
    + by apply sorted_snoc.
    + intros t t' Ht [Ht'| ->%list_elem_of_singleton]%elem_of_app; eauto.
    + intros t [Ht| ->%list_elem_of_singleton]%elem_of_app; [|lia].
      specialize (Hwb t Ht). lia.
    + intros t Ht. specialize (Hsb t Ht). lia.
    + by rewrite Htm.
  - (* a session was idle, hence nobody is queued *)
    assert (pd = []) as -> by (destruct pd; [done|]; by discriminate Hidle).
    constructor; unfold waiting, idle; simpl;
      rewrite ?served_unfold, ?served_of_resolved; eauto.
    + by apply sorted_snoc.
    + by intros t t' _ ?%elem_of_nil.
    + by intros t ?%elem_of_nil.
    + intros t [Ht| ->%list_elem_of_singleton]%elem_of_app; [|lia].
      specialize (Hsb t Ht). lia.
    + done.
Qed.

(** Serving the head of the queue keeps the discipline. *)
Lemma fifo_serve_head sz bs t rest tm la nb ar lg b :
  fifo_inv (mkState (Some (mkPool sz bs [] (t :: rest))) tm la nb ar lg) →
  fifo_inv (mkState (Some (mkPool sz bs [] rest)) (remove_first t tm)
                    la nb ar (lg ++ [(t, Resolved b)])).
Proof.
  intros H. use_inv H. rewrite served_unfold in *.
  apply StronglySorted_cons in Hws as [Ht Hrest].
  rewrite Forall_forall in Ht.
  constructor; unfold waiting, idle; simpl;
    rewrite ?served_unfold, ?served_of_resolved; eauto.
  - apply sorted_snoc; [done|]. intros y Hy. apply Hfirst; [done|]. by left.
  - intros y t' [Hy| ->%list_elem_of_singleton]%elem_of_app Ht'.
    + apply Hfirst; [done|]. by right.
    + by apply Ht.
  - intros y Hy. apply Hwb. by right.
  - intros y [Hy| ->%list_elem_of_singleton]%elem_of_app; [by apply Hsb|].
    apply Hwb. by left.
  - rewrite Htm. apply remove_first_head.
Qed.

Lemma fifo_release b st : fifo_inv st → fifo_inv (releaseToPool b st).
Proof.
  intros H. open_state st p; [|by destruct H as [[? [=]]]].
  unfold releaseToPool; simpl. destruct pd as [|t rest].
  - use_inv H. rewrite served_unfold in *.
    constructor; unfold waiting, idle, with_pool; simpl; rewrite ?served_unfold; eauto.
    done.
  - assert (av = []) as ->.
    { destruct H as [_ _ _ _ _ _ Hidle _]. by apply Hidle. }
    by apply fifo_serve_head.
Qed.

Lemma fifo_remove b st : fifo_inv st → fifo_inv (removeBrowserFromPool b st).
Proof.
  intros H. open_state st p; [|by destruct H as [[? [=]]]].
  use_inv H. rewrite served_unfold in *.
  constructor; unfold waiting, idle; simpl; rewrite ?served_unfold; eauto.
  intros Hpd. by rewrite (Hidle Hpd).
Qed.

Lemma fifo_launched st : fifo_inv st → fifo_inv (replacementLaunched st).
Proof.
  intros H. open_state st p; [|by destruct H as [[? [=]]]].
  unfold replacementLaunched; simpl. destruct la as [|n]; [done|].
  destruct pd as [|t rest].
  - use_inv H. rewrite served_unfold in *.
    destruct (av ++ [nb]) eqn:Hav;
      constructor; unfold waiting, idle; simpl; rewrite ?served_unfold; eauto; done.
  - assert (av = []) as ->.
    { destruct H as [_ _ _ _ _ _ Hidle _]. by apply Hidle. }
    simpl.
    eapply (fifo_serve_head sz (bs ++ [nb]) t rest tm n (S nb) ar lg nb).
    use_inv H. rewrite served_unfold in *.
    constructor; unfold waiting, idle; simpl; rewrite ?served_unfold; eauto.
Qed.

Lemma fifo_launch_failed st : fifo_inv st → fifo_inv (replacementFailed st).
Proof.
  intros H. open_state st p; [|by destruct H as [[? [=]]]].
  unfold replacementFailed; simpl. destruct la as [|n]; [done|].
  use_inv H. rewrite served_unfold in *.
  constructor; unfold waiting, idle; simpl; rewrite ?served_unfold; eauto.
Qed.

Lemma fifo_timeout t st : fifo_inv st → fifo_inv (fireTimeout t st).
Proof.
  intros H. open_state st p; [|by destruct H as [[? [=]]]].
  unfold fireTimeout; simpl. destruct (existsb (Nat.eqb t) tm); [|done].
  use_inv H. rewrite served_unfold in *.
  constructor; unfold waiting, idle; simpl;
    rewrite ?served_unfold, ?served_of_rejected; eauto.
  - by apply remove_first_sorted.
  - intros y t' Hy Ht'%remove_first_elem_of. by apply Hfirst.
  - intros y Hy%remove_first_elem_of. by apply Hwb.
  - intros Hne. apply Hidle. intros ->. done.
  - by rewrite Htm.
Qed.

Lemma fifo_step st o : fifo_inv st → fifo_inv (step st o).
Proof.
  destruct o; simpl;
    auto using fifo_acquire, fifo_release, fifo_remove, fifo_launched,
               fifo_launch_failed, fifo_timeout.
Qed.

Lemma fifo_run ops st : fifo_inv st → fifo_inv (run st ops).
Proof.
  revert st. induction ops as [|o ops IH]; intros st H; [done|].
  simpl. apply IH. by apply fifo_step.
Qed.

(** *** Initialisation *)

Lemma init_launch_inv sz k ok st :
  init_inv sz k st → init_inv sz (S k) (init_launch ok st).
Proof.
  intros (bs & Hp & Hnd & Hlt & Hlen & Htm & Hlg & Hla).
  unfold init_launch. rewrite Hp. destruct ok; simpl.
  - exists (bs ++ [nextBrowser st]). simpl. repeat split; try done.
    + apply NoDup_app. repeat split; [done| |apply NoDup_singleton].
      intros b Hb ->%list_elem_of_singleton. specialize (Hlt _ Hb). lia.
    + intros b [Hb| ->%list_elem_of_singleton]%elem_of_app; [|lia].
      specialize (Hlt _ Hb). lia.
    + rewrite length_app. simpl. lia.
  - exists bs. repeat split; try done. lia.
Qed.

Lemma init_loop_inv sz (launch_ok : nat → bool) (l : list nat) k st :
  init_inv sz k st →
  init_inv sz (k + length l)
           (fold_left (fun s i => init_launch (launch_ok i) s) l st).
Proof.
  revert k st. induction l as [|i l IH]; intros k st H; simpl.
  - by rewrite Nat.add_0_r.
  - replace (k + S (length l)) with (S k + length l) by lia.
    apply IH. by apply init_launch_inv.
Qed.

Lemma initializeBrowserPool_inv poolSize launch_ok :
  init_inv (Z.to_nat (Z.max 1 poolSize)) (Z.to_nat (Z.max 1 poolSize))
           (initializeBrowserPool poolSize launch_ok fresh).
Proof.
  unfold initializeBrowserPool.
  set (sz := Z.to_nat (Z.max 1 poolSize)).
  pose proof (init_loop_inv sz launch_ok (seq 0 sz) 0
                (with_pool fresh (mkPool sz [] [] []))) as H.
  rewrite length_seq in H. apply H.
  exists []. simpl. repeat split; try done.
  - constructor.
  - by intros b ?%elem_of_nil.
Qed.

Lemma init_inv_fifo sz k st : init_inv sz k st → fifo_inv st.
Proof.
  intros (bs & Hp & _ & _ & _ & Htm & Hlg & _).
  destruct st as [bp tm la nb ar lg]. simpl in *. subst.
  constructor; unfold waiting, idle, served; simpl; try done.
  - constructor.
  - constructor.
  - by intros t t' ?%elem_of_nil.
  - by intros t ?%elem_of_nil.
  - by intros t ?%elem_of_nil.
Qed.

Lemma fifo_reachable poolSize launch_ok ops :
  fifo_inv (run (initializeBrowserPool poolSize launch_ok fresh) ops).
Proof.
  apply fifo_run. eapply init_inv_fifo, initializeBrowserPool_inv.
Qed.

(** What [releaseToPool] does in a state that keeps the discipline. *)
Lemma release_behaviour b st :
  fifo_inv st →
  match waiting st with
  | t :: rest =>
      t ∈ timers st
      ∧ waiting (releaseToPool b st) = rest
      ∧ settled (releaseToPool b st) = settled st ++ [(t, Resolved b)]
      ∧ (t ∉ timers (releaseToPool b st))
      ∧ idle (releaseToPool b st) = idle st
  | [] =>
      idle (releaseToPool b st) = idle st ++ [b]
      ∧ settled (releaseToPool b st) = settled st
  end.
Proof.
  intros H. open_state st p; [|by destruct H as [[? [=]]]].
  use_inv H. unfold releaseToPool, waiting, idle; simpl.
  destruct pd as [|t rest]; simpl; [done|].
  subst tm. rewrite remove_first_head.
  repeat split; try done.
  - by left.
  - by apply sorted_head_not_in.
Qed.

End PoolFifo.

Section PoolSize.

Import Pool.

Local Open Scope nat_scope.
Local Open Scope list_scope.

Implicit Types (st : State) (p : Pool) (b : Browser) (t : nat).

Lemma filter_split_length {A} (f : A → bool) (l : list A) :
  length (List.filter f l) + length (List.filter (fun x => negb (f x)) l) = length l.
Proof.
  induction l as [|x l IH]; simpl; [done|].
  destruct (f x); simpl; lia.
Qed.

(** Sessions handed out and sessions idle are all owned sessions. *)
Lemma checkedOut_bound p :
  NoDup (available p) →
  (∀ b, b ∈ available p → b ∈ browsers p) →
  length (checkedOut p) + length (available p) ≤ length (browsers p).
Proof.
  intros Hnd Hsub. unfold checkedOut.
  pose proof (filter_split_length
                (fun b => existsb (Nat.eqb b) (available p)) (browsers p)) as Hsplit.
  assert (length (available p)
          ≤ length (List.filter (fun b => existsb (Nat.eqb b) (available p))
                                (browsers p))) as Hle.
  { apply submseteq_length, NoDup_submseteq; [done|].
    intros b Hb. apply list_elem_of_In, filter_In. split.
    - by apply list_elem_of_In, Hsub.
    - by apply existsb_eqb_elem_of. }
  cbv beta in Hsplit. unfold Browser in *. lia.
Qed.

Lemma size_inv_bound st :
  size_inv st → inUse st + launching st ≤ capacity st.
Proof.
  intros (p & Hp & Hnb & Hna & Hsub & Hlen & _).
  unfold inUse, capacity. rewrite Hp.
  pose proof (checkedOut_bound p Hna Hsub). lia.
Qed.

Lemma init_inv_size sz st : init_inv sz sz st → size_inv st ∧ capacity st = sz.
Proof.
  intros (bs & Hp & Hnd & Hlt & Hlen & _ & _ & Hla).
  split; [|unfold capacity; by rewrite Hp].
  exists (mkPool sz bs bs []). simpl. rewrite Hla. repeat split; try done. lia.
Qed.

Ltac close_size p :=
  eexists; split; [reflexivity|]; simpl; repeat split; eauto.

Lemma size_step st o :
  size_inv st → op_ok st o = true →
  size_inv (step st o) ∧ capacity (step st o) = capacity st.
Proof.
  intros (p & Hp & Hnb & Hna & Hsub & Hlen & Hlt) Hok.
  destruct st as [bp tm la nb ar lg]. simpl in Hp. subst bp.
  destruct p as [sz bs av pd]. simpl in *.
  unfold capacity. destruct o as [|b|b| | |t]; simpl.
  - (* acquire *)
    unfold acquireFromPool; simpl. destruct av as [|b rest]; simpl.
    + split; [|done]. close_size p.
    + split; [|done]. close_size p.
      * by apply NoDup_cons in Hna as [_ ?].
      * intros x Hx. apply Hsub. by right.
  - (* release of a checked-out session *)
    apply andb_true_iff in Hok as [Hin Hout].
    apply existsb_eqb_elem_of in Hin.
    apply negb_true_iff, existsb_eqb_not_elem_of in Hout.
    unfold releaseToPool; simpl. destruct pd as [|t rest]; simpl.
    + split; [|done]. close_size p.
      * apply NoDup_app. repeat split; [done| |apply NoDup_singleton].
        by intros x Hx ->%list_elem_of_singleton.
      * intros x [Hx| ->%list_elem_of_singleton]%elem_of_app; auto.
    + split; [|done]. close_size p.
  - (* removal of an owned session *)
    apply existsb_eqb_elem_of in Hok.
    split; [|done]. close_size p.
    + by apply remove_first_NoDup.
    + by apply remove_first_NoDup.
    + intros x Hx. apply remove_first_NoDup_elem_of in Hx as [Hx Hne]; [|done].
      apply remove_first_NoDup_elem_of; auto.
    + pose proof (remove_first_length b bs Hok). unfold Browser in *. lia.
    + intros x Hx%remove_first_elem_of. auto.
  - (* replacement launched *)
    unfold replacementLaunched; simpl. destruct la as [|n]; simpl.
    { split; [|done]. close_size p. }
    assert (NoDup (bs ++ [nb])) as Hnb'.
    { apply NoDup_app. repeat split; [done| |apply NoDup_singleton].
      intros x Hx ->%list_elem_of_singleton. specialize (Hlt _ Hx). lia. }
    assert (NoDup (av ++ [nb])) as Hna'.
    { apply NoDup_app. repeat split; [done| |apply NoDup_singleton].
      intros x Hx%Hsub ->%list_elem_of_singleton. specialize (Hlt _ Hx). lia. }
    assert (∀ x, x ∈ av ++ [nb] → x ∈ bs ++ [nb]) as Hsub'.
    { intros x [Hx| Hx]%elem_of_app; apply elem_of_app; auto. }
    assert (∀ x, x ∈ bs ++ [nb] → x < S nb) as Hlt'.
    { intros x [Hx| ->%list_elem_of_singleton]%elem_of_app; [|lia].
      specialize (Hlt _ Hx). lia. }
    assert (length (bs ++ [nb]) + n ≤ sz) as Hlen'.
    { rewrite length_app. simpl. lia. }
    destruct pd as [|t rest]; [|destruct (av ++ [nb]) as [|b0 av'] eqn:Hav]; simpl.
    + split; [|done]. close_size p.
    + split; [|done]. close_size p.
    + split; [|done]. close_size p.
      * by apply NoDup_cons in Hna' as [_ ?].
      * intros x Hx. apply Hsub'. by right.
  - (* replacement failed *)
    unfold replacementFailed; simpl. destruct la as [|n]; simpl.
    + split; [|done]. close_size p.
    + split; [|done]. close_size p. lia.
  - (* timeout *)
    unfold fireTimeout; simpl. destruct (existsb (Nat.eqb t) tm); simpl.
    + split; [|done]. close_size p.
    + split; [|done]. close_size p.
Qed.

Lemma size_run ops st n :
  size_inv st → run_ok st ops = true →
  size_inv (run st (take n ops)) ∧ capacity (run st (take n ops)) = capacity st.
Proof.
  revert st n. induction ops as [|o ops IH]; intros st n H Hok.
  - by rewrite take_nil.
  - destruct n as [|n]; [done|].
    simpl in Hok. apply andb_true_iff in Hok as [Ho Hops].
    destruct (size_step st o H Ho) as [H' Hcap].
    simpl. rewrite <- Hcap. by apply IH.
Qed.

End PoolSize.

Section RetryFacts.

Import Retry.

Local Open Scope nat_scope.
Local Open Scope list_scope.

Context {A : Type}.
Variable task : nat → Error + A.
Variable relaunch : nat → bool.

Implicit Types (st : State) (n i k : nat).

Lemma delays_emit e st :
  delays (emit e st)
  = delays st ++ match e with Delay ms => [ms] | _ => [] end.
Proof. unfold delays, emit. simpl. rewrite omap_app. by destruct e. Qed.

Lemma executions_emit e st :
  executions (emit e st)
  = executions st + match e with Call _ => 1 | _ => 0 end.
Proof.
  unfold executions, emit. simpl. rewrite List.filter_app, length_app.
  by destruct e.
Qed.

Lemma recover_quiet ok st :
  delays (recover ok st) = delays st
  ∧ executions (recover ok st) = executions st.
Proof.
  unfold recover, initializeBrowser.
  destruct (browser st), ok; simpl;
    unfold delays, executions; simpl;
    rewrite ?omap_app, ?List.filter_app, ?length_app; simpl;
    rewrite ?app_nil_r, ?Nat.add_0_r; done.
Qed.

(** State after a failed execution: recovery if the error is
    transient, then the backoff. *)
Lemma after_failure i err st :
  let st1 := if isTransient err then recover (relaunch i) (emit (Call i) st)
             else emit (Call i) st in
  delays (emit (Delay (backoff i)) st1) = delays st ++ [backoff i]
  ∧ executions (emit (Delay (backoff i)) st1) = executions st + 1.
Proof.
  intros st1. rewrite delays_emit, executions_emit. subst st1.
  destruct (isTransient err).
  - destruct (recover_quiet (relaunch i) (emit (Call i) st)) as [-> ->].
    rewrite delays_emit, executions_emit. simpl. rewrite app_nil_r. split; [done|lia].
  - rewrite delays_emit, executions_emit. simpl. rewrite app_nil_r. split; [done|lia].
Qed.

Lemma retry_loop_succeeds k : ∀ n i lastErr st (v : A),
  (∀ j, j < k → ∃ e, task (i + j) = inl e) →
  task (i + k) = inr v →
  k < n →
  ∃ st', retry_loop task relaunch n i lastErr st = (st', inr v)
         ∧ delays st' = delays st ++ map backoff (seq i k)
         ∧ executions st' = executions st + S k.
Proof.
  induction k as [|k IH]; intros n i lastErr st v Hfail Hok Hlt.
  - destruct n as [|n]; [lia|]. simpl.
    rewrite Nat.add_0_r in Hok. rewrite Hok.
    eexists. split; [done|].
    rewrite delays_emit, executions_emit. simpl. by rewrite app_nil_r.
  - destruct n as [|n]; [lia|]. simpl.
    destruct (Hfail 0) as [e He]; [lia|].
    rewrite Nat.add_0_r in He. rewrite He.
    destruct (after_failure i e st) as [Hd Hx]. cbv zeta in Hd, Hx.
    edestruct (IH n (S i) (Some e)) as (st' & Hrun & Hd' & Hx').
    + intros j Hj. destruct (Hfail (S j)) as [e' He']; [lia|].
      exists e'. by replace (S i + j) with (i + S j) by lia.
    + by replace (S i + k) with (i + S k) by lia.
    + lia.
    + exists st'. split; [exact Hrun|].
      rewrite Hd', Hx', Hd, Hx. rewrite <- app_assoc. split; [done|lia].
Qed.

Lemma retry_loop_exhausts n : ∀ i lastErr st e,
  (∀ j, j < n → ∃ e', task (i + j) = inl e') →
  1 ≤ n →
  task (i + n - 1) = inl e →
  snd (retry_loop task relaunch n i lastErr st) = inl (Some e).
Proof.
  induction n as [|n IH]; intros i lastErr st e Hfail Hn Hlast; [lia|].
  simpl. destruct (Hfail 0) as [e0 He0]; [lia|].
  rewrite Nat.add_0_r in He0. rewrite He0.
  destruct n as [|n].
  - simpl. replace (i + 1 - 1) with i in Hlast by lia. congruence.
  - apply IH.
    + intros j Hj. destruct (Hfail (S j)) as [e' He']; [lia|].
      exists e'. by replace (S i + j) with (i + S j) by lia.
    + lia.
    + by replace (S i + S n - 1) with (i + S (S n) - 1) by lia.
Qed.

End RetryFacts.

Section OrchestratorFacts.

Import Orchestrator.

Local Open Scope nat_scope.
Local Open Scope list_scope.

Variable resolveUrl : string → string → option string.

Implicit Types (st : Pool.State) (env : AttemptEnv) (b : Browser)
         (site : string) (evs : list Event).















Lemma scrapeMultipleSites_unfold envs st :
  scrapeMultipleSites resolveUrl envs st
  = (final (gather resolveUrl envs st), events (gather resolveUrl envs st),
     Dedup.deduplicateAndSort (result (gather resolveUrl envs st))).
Proof.
  unfold scrapeMultipleSites, final, events, result.
  by destruct (gather resolveUrl envs st) as [[? ?] ?].
Qed.

End OrchestratorFacts.

Section RouteFacts.

Variable resolveUrl : string → string → option string.

(** The handler on a query that passes the length test. *)
Lemma comparePrices_accepted (s : string)
      (envs : string → string → nat → Orchestrator.AttemptEnv)
      (now : string) (st : Pool.State) :
  (2 ≤ String.length (Js.trim s))%nat →
  Routes.comparePrices resolveUrl (Routes.JString s) envs now st
  = (Orchestrator.final (Orchestrator.gather resolveUrl (envs (Js.trim s)) st),
     Orchestrator.events (Orchestrator.gather resolveUrl (envs (Js.trim s)) st),
     Routes.mkResponse 200
       (Routes.ResultsBody (Js.trim s)
          (Dedup.deduplicateAndSort
             (Orchestrator.result
                (Orchestrator.gather resolveUrl (envs (Js.trim s)) st)))
          now)).
Proof.
  intros Hlen. unfold Routes.comparePrices.
  assert (Routes.falsy (Routes.JString s) = false) as ->.
  { simpl. destruct s; [simpl in Hlen; lia | done]. }
  destruct (Nat.ltb_spec (String.length (Js.trim s)) 2) as [?|_]; [lia|].
  by rewrite scrapeMultipleSites_unfold.
Qed.

(** The handler on a query that fails it. *)
Lemma comparePrices_refused (s : string)
      (envs : string → string → nat → Orchestrator.AttemptEnv)
      (now : string) (st : Pool.State) :
  (String.length (Js.trim s) < 2)%nat →
  Routes.comparePrices resolveUrl (Routes.JString s) envs now st
  = (st, [], Routes.bad_request).
Proof.
  intros Hs. unfold Routes.comparePrices.
  destruct (Routes.falsy (Routes.JString s)); [done|].
  by destruct (Nat.ltb_spec (String.length (Js.trim s)) 2) as [_|?]; [|lia].
Qed.

End RouteFacts.






(** C9, as the code has it.  A query with fewer than two characters
    after trimming - "a" for one - is rejected with status 400 and the
    body [{error: "Query must be at least 2 characters long"}], nothing
    being scraped; the two-character query "ab" is accepted and answered
    200. *)
Theorem compare_prices_rejects_short_query
        (resolveUrl : string → string → option string)
        (envs : string → string → nat → Orchestrator.AttemptEnv)
        (now : string) (st : Pool.State) :
  (∀ s : string,
      (String.length (Js.trim s) < 2)%nat →
      Routes.comparePrices resolveUrl (Routes.JString s) envs now st
      = (st, [], Routes.mkResponse 400
                   (Routes.ErrorBody "Query must be at least 2 characters long")))
  ∧ Routes.comparePrices resolveUrl (Routes.JString "a") envs now st
    = (st, [], Routes.mkResponse 400
                 (Routes.ErrorBody "Query must be at least 2 characters long"))
  ∧ Routes.status
      (Orchestrator.result
         (Routes.comparePrices resolveUrl (Routes.JString "ab") envs now st))
    = 200%nat.
Proof.
  split; [intros s Hs; by apply comparePrices_refused|]. split.
  - apply comparePrices_refused. vm_compute. lia.
  - rewrite comparePrices_accepted by (vm_compute; lia). reflexivity.
Qed.

(** C9 on the blank-padded one-character query " a ". *)
Lemma compare_prices_rejects_short_query_witness :
  Routes.comparePrices Sample.resolveUrl (Routes.JString " a ")
    (fun _ _ _ => Sample.one_item_page) "2024-01-01T00:00:00.000Z"
    Sample.two_sessions
  = (Sample.two_sessions, [],
     Routes.mkResponse 400
       (Routes.ErrorBody "Query must be at least 2 characters long")).
Proof.
  destruct (compare_prices_rejects_short_query Sample.resolveUrl
              (fun _ _ _ => Sample.one_item_page) "2024-01-01T00:00:00.000Z"
              Sample.two_sessions)
    as (H & _ & _).
  apply H. vm_compute. lia.
Defined.

(** C9 as stated fails: the query "ab" is not rejected; it is scraped
    and answered 200. *)
Lemma compare_prices_accepts_two_characters :
  Orchestrator.result
    (Routes.comparePrices Sample.resolveUrl (Routes.JString "ab")
       (fun _ _ _ => Sample.one_item_page) "2024-01-01T00:00:00.000Z"
       Sample.two_sessions)
  ≠ Routes.mkResponse 400
      (Routes.ErrorBody "Query must be at least 2 characters long")
  ∧ Routes.status
      (Orchestrator.result
         (Routes.comparePrices Sample.resolveUrl (Routes.JString "ab")
            (fun _ _ _ => Sample.one_item_page) "2024-01-01T00:00:00.000Z"
            Sample.two_sessions))
    = 200%nat.
Proof. split; [vm_compute; discriminate | vm_compute; reflexivity]. Qed.

(** C2, where the code departs from it.  The constructor does not wait
    for [initializeBrowserPool] and the server listens at once, so
    callers can be pending when a launch of the loop settles.  The loop
    pushes the new session on [available] and does not look at
    [pending].  On the default pool of size 2: callers 0 and 1 arrive
    before the first launch settles and are queued; the launch brings
    session 0, which idles while both stay pending; caller 2 arrives and
    gets session 0 at once; the second launch brings session 1 and
    caller 3 gets it at once.  Callers 2 and 3 are served before the
    earlier, still pending callers 0 and 1, and caller 0 is served only
    when caller 2 gives session 0 back.  The paths beside the loop do
    what it misses: a session that arrives as a replacement goes to the
    longest-waiting caller (last line, on a pool of size 1), as does a
    session given back through [releaseToPool]. *)
Theorem init_launch_strands_waiter :
  let queued :=
    Boot.boot (Boot.Int 2) [Boot.Request Pool.OpAcquire; Boot.Request Pool.OpAcquire] in
  let launched := Boot.step queued (Boot.Launch true) in
  let overtaken :=
    Boot.run launched
             [Boot.Request Pool.OpAcquire; Boot.Launch true;
              Boot.Request Pool.OpAcquire] in
  Pool.waiting queued = [0%nat; 1%nat]
  ∧ Pool.waiting launched = [0%nat; 1%nat] ∧ Pool.idle launched = [0%nat]
  ∧ snd (Pool.acquireFromPool launched) = Pool.Immediate 0%nat
  ∧ Pool.served overtaken = [2%nat; 3%nat]
  ∧ Pool.waiting overtaken = [0%nat; 1%nat]
  ∧ Pool.served (Pool.releaseToPool 0%nat overtaken) = [2%nat; 3%nat; 0%nat]
  ∧ Pool.served
      (Boot.boot (Boot.Int 1)
         [Boot.Launch true; Boot.Request Pool.OpAcquire; Boot.Request Pool.OpAcquire;
          Boot.Request (Pool.OpRemove 0%nat); Boot.Request Pool.OpLaunched])
    = [0%nat; 1%nat].
Proof. vm_compute. repeat split. Qed.

(** C3, as the code has it.  Starting from the initialised pool, as long
    as the callers release only sessions they hold and remove only
    sessions the pool owns, after every step the sessions checked out, the
    sessions idle and the replacement launches in flight together never
    exceed the configured capacity, [max(1, poolSize)]. *)
Theorem pool_size_bounded_under_protocol
        (poolSize : Z) (launch_ok : nat → bool) (ops : list Pool.Op) (n : nat) :
  Pool.run_ok (Pool.initializeBrowserPool poolSize launch_ok Pool.fresh) ops = true →
  let st := Pool.run (Pool.initializeBrowserPool poolSize launch_ok Pool.fresh)
                     (take n ops) in
  (Pool.inUse st + Pool.launching st ≤ Pool.capacity st)%nat
  ∧ Pool.capacity st = Z.to_nat (Z.max 1 poolSize).
Proof.
  intros Hok st.
  destruct (init_inv_size _ _ (initializeBrowserPool_inv poolSize launch_ok))
    as [Hinv Hcap].
  destruct (size_run ops _ n Hinv Hok) as [Hinv' Hcap'].
  fold st in Hinv', Hcap'.
  split; [by apply size_inv_bound | congruence].
Qed.

(** C3 on a pool of one session: the session is acquired, found broken
    and removed, and its replacement arrives. *)
Lemma pool_size_bounded_under_protocol_witness :
  (Pool.inUse
     (Pool.run (Pool.initializeBrowserPool 1 (fun _ => true) Pool.fresh)
        [Pool.OpAcquire; Pool.OpRemove 0%nat; Pool.OpLaunched])
   + 0 ≤ 1)%nat.
Proof.
  pose proof (pool_size_bounded_under_protocol 1 (fun _ => true)
                [Pool.OpAcquire; Pool.OpRemove 0%nat; Pool.OpLaunched] 3 eq_refl)
    as [H _].
  exact H.
Defined.

(** C3 as stated fails: removing a session the pool does not own, or
    removing the same session twice, still launches a replacement each
    time, and a pool of capacity 1 ends up with two sessions. *)
Lemma pool_size_exceeded_by_stray_remove :
  let foreign :=
    Pool.run (Pool.initializeBrowserPool 1 (fun _ => true) Pool.fresh)
             [Pool.OpRemove 7%nat; Pool.OpLaunched] in
  let twice :=
    Pool.run (Pool.initializeBrowserPool 1 (fun _ => true) Pool.fresh)
             [Pool.OpAcquire; Pool.OpRemove 0%nat; Pool.OpRemove 0%nat;
              Pool.OpLaunched; Pool.OpLaunched] in
  (Pool.capacity foreign = 1 ∧ Pool.inUse foreign = 2
   ∧ Pool.capacity twice = 1 ∧ Pool.inUse twice = 2)%nat.
Proof. vm_compute. repeat split. Qed.

(** C4.  A task that fails with a transient error [k] times and then
    returns [v], run with at least [k + 1] attempts: [withRetry] returns
    [v], executes the task [k + 1] times and sleeps exactly [k] times, the
    [i]-th sleep lasting [500 + i * 200] milliseconds. *)
Theorem withRetry_returns_after_transient_failures
        {A : Type} (task : nat → Error + A) (relaunch : nat → bool)
        (k attempts : nat) (v : A) (st : Retry.State) :
  (∀ i : nat, (i < k)%nat → ∃ e, task i = inl e ∧ Retry.isTransient e = true) →
  task k = inr v →
  (k + 1 ≤ attempts)%nat →
  snd (Retry.withRetry task relaunch attempts st) = inr v
  ∧ Retry.delays (fst (Retry.withRetry task relaunch attempts st))
    = (Retry.delays st
       ++ map (fun i : nat => 500 + Z.of_nat i * 200)%Z (seq 0 k))%list
  ∧ length (map (fun i : nat => 500 + Z.of_nat i * 200)%Z (seq 0 k)) = k
  ∧ Retry.executions (fst (Retry.withRetry task relaunch attempts st))
    = (Retry.executions st + (k + 1))%nat.
Proof.
  intros Hfail Hok Hatt.
  destruct (retry_loop_succeeds task relaunch k attempts 0%nat None st v)
    as (st' & Hrun & Hd & Hx).
  - intros j Hj. destruct (Hfail j Hj) as (e & He & _). by exists e.
  - done.
  - lia.
  - unfold Retry.withRetry. rewrite Hrun. simpl.
    split; [done|]. split; [exact Hd|].
    split; [by rewrite length_map, length_seq|].
    rewrite Hx. lia.
Qed.

(** C4 on a task that times out twice and then returns 7, with three
    attempts: delays of 500 and 700 milliseconds. *)
Lemma withRetry_returns_after_transient_failures_witness :
  snd (Retry.withRetry
         (fun i => if (i <? 2)%nat then inl (mkError "TimeoutError" "Navigation Timeout")
                   else inr 7%nat)
         (fun _ => true) 3 Retry.idle)
  = inr 7%nat
  ∧ Retry.delays
      (fst (Retry.withRetry
              (fun i => if (i <? 2)%nat
                        then inl (mkError "TimeoutError" "Navigation Timeout")
                        else inr 7%nat)
              (fun _ => true) 3 Retry.idle))
    = [500%Z; 700%Z].
Proof.
  destruct (withRetry_returns_after_transient_failures
              (fun i => if (i <? 2)%nat
                        then inl (mkError "TimeoutError" "Navigation Timeout")
                        else inr 7%nat)
              (fun _ => true) 2 3 7%nat Retry.idle)
    as (Hv & Hd & _).
  - intros i Hi. exists (mkError "TimeoutError" "Navigation Timeout").
    destruct i as [|[|i]]; [split; reflexivity | split; reflexivity | lia].
  - reflexivity.
  - lia.
  - split; [exact Hv | exact Hd].
Defined.

(** C5.  A task that fails on each of its [attempts] executions, with
    errors of any kind: [withRetry] throws the very error of the last
    execution. *)
Theorem withRetry_rethrows_last_error
        {A : Type} (task : nat → Error + A) (relaunch : nat → bool)
        (attempts : nat) (e : Error) (st : Retry.State) :
  (1 ≤ attempts)%nat →
  (∀ i : nat, (i < attempts)%nat → ∃ e', task i = inl e') →
  task (attempts - 1)%nat = inl e →
  snd (Retry.withRetry task relaunch attempts st) = inl (Some e).
Proof.
  intros Hn Hfail Hlast. unfold Retry.withRetry.
  apply retry_loop_exhausts; [|done|done].
  intros j Hj. destruct (Hfail j Hj) as [e' He']. by exists e'.
Qed.

(** C5 on a task whose two executions fail differently: the second error
    is the one thrown. *)
Lemma withRetry_rethrows_last_error_witness :
  snd (Retry.withRetry (A := nat)
         (fun i => if (i =? 0)%nat then inl (mkError "Error" "Protocol error")
                   else inl (mkError "TypeError" "x is undefined"))
         (fun _ => false) 2 Retry.idle)
  = inl (Some (mkError "TypeError" "x is undefined")).
Proof.
  apply withRetry_rethrows_last_error.
  - lia.
  - intros i Hi. destruct i as [|i]; simpl; eauto.
  - reflexivity.
Defined.


(** C7, as the code has it.  The output is the input rearranged in
    ascending order of effective price (the price, or 999999 when the
    price is null or 0); hence a product without price stands after every
    product whose price is not 0 and below 999999; products of equal
    effective price, in particular those without price, keep their input
    order; and [null; 10; null] becomes [10; null; null] with the two
    nulls in their original order. *)
Theorem sorter_orders_by_effective_price (l : list Product) :
  Dedup.sortByPrice l ≡ₚ l
  ∧ StronglySorted Dedup.by_price (Dedup.sortByPrice l)
  ∧ (∀ (i j : nat) (p q : Product) (z : Z),
        Dedup.sortByPrice l !! i = Some p → Dedup.sortByPrice l !! j = Some q →
        price p = None → price q = Some z → z ≠ 0%Z → (z < 999999)%Z →
        (j < i)%nat)
  ∧ List.filter Dedup.has_no_price (Dedup.sortByPrice l)
    = List.filter Dedup.has_no_price l
  ∧ (∀ v : Z,
        List.filter (Dedup.has_effective_price v) (Dedup.sortByPrice l)
        = List.filter (Dedup.has_effective_price v) l)
  ∧ Dedup.deduplicateAndSort
      [Dedup.item "first" None; Dedup.item "priced" (Some 10);
       Dedup.item "second" None]
    = [Dedup.item "priced" (Some 10); Dedup.item "first" None;
       Dedup.item "second" None].
Proof.
  split; [apply sort_by_perm|].
  split; [apply sortByPrice_sorted|].
  split.
  { intros i j p q z Hi Hj Hp Hq Hz0 Hz.
    eapply sorted_cheaper_first; [apply sortByPrice_sorted|done..|].
    unfold Dedup.effective_price, Js.or_num, Dedup.sentinel. rewrite Hp, Hq.
    destruct (Z.eqb_spec z 0); lia. }
  split.
  { apply sortByPrice_stable. intros a b Ha Hb.
    unfold Dedup.has_no_price, Dedup.effective_price in *.
    destruct (price a), (price b); done. }
  split.
  { intros v. apply sortByPrice_stable. intros a b Ha Hb.
    unfold Dedup.has_effective_price in *. lia. }
  vm_compute. reflexivity.
Qed.

(** The bound of C7 at work: in the output for [null; 10] the product
    without price (position 1) stands after the one priced 10 (position 0). *)
Lemma sorter_orders_by_effective_price_witness :
  Dedup.sortByPrice [Dedup.item "first" None; Dedup.item "priced" (Some 10)]
  ≡ₚ [Dedup.item "first" None; Dedup.item "priced" (Some 10)]
  ∧ (0 < 1)%nat.
Proof.
  destruct (sorter_orders_by_effective_price
              [Dedup.item "first" None; Dedup.item "priced" (Some 10)])
    as (Hperm & _ & H & _).
  split; [exact Hperm|].
  apply (H 1%nat 0%nat (Dedup.item "first" None) (Dedup.item "priced" (Some 10)) 10%Z);
    [reflexivity | reflexivity | reflexivity | reflexivity | lia | lia].
Defined.

(** C7 as stated fails: a product priced above the sentinel is placed
    after a product without price. *)
Lemma sorter_null_not_last :
  ¬ Dedup.nulls_last
      (Dedup.deduplicateAndSort
         [Dedup.item "dear" (Some 2000000); Dedup.item "unpriced" None]).
Proof.
  intros H.
  specialize (H 0%nat 1%nat (Dedup.item "unpriced" None)
                (Dedup.item "dear" (Some 2000000))).
  vm_compute in H.
  assert (1 < 0)%nat as Habs by (apply H; congruence).
  lia.
Qed.

(** C10, as the code has it.  A product priced 0 gets the sentinel 999999
    as effective price, compares equal to a product without price, and so
    stands after every product whose price is not 0 and below 999999,
    while its deduplication key ends with the literal price 0. *)
Theorem zero_price_sorts_as_sentinel (p : Product) :
  price p = Some 0%Z →
  Dedup.effective_price p = 999999%Z
  ∧ (∀ q : Product, price q = None →
        Dedup.comparePrice p q = 0%Z ∧ Dedup.comparePrice q p = 0%Z)
  ∧ (∀ (l : list Product) (i j : nat) (q : Product) (z : Z),
        Dedup.sortByPrice l !! i = Some p → Dedup.sortByPrice l !! j = Some q →
        price q = Some z → z ≠ 0%Z → (z < 999999)%Z → (j < i)%nat)
  ∧ Dedup.dedupKey p = Js.substring0 50 (Js.toLowerCase (name p)) ++ "-0".
Proof.
  intros Hp.
  assert (Dedup.effective_price p = 999999%Z) as Heff
    by (unfold Dedup.effective_price; by rewrite Hp).
  split; [done|]. split.
  { intros q Hq. unfold Dedup.comparePrice. rewrite Heff.
    unfold Dedup.effective_price. rewrite Hq. simpl. unfold Dedup.sentinel. lia. }
  split.
  { intros l i j q z Hi Hj Hq Hz0 Hz.
    eapply sorted_cheaper_first; [apply sortByPrice_sorted|done..|].
    rewrite Heff. unfold Dedup.effective_price, Js.or_num. rewrite Hq.
    destruct (Z.eqb_spec z 0); lia. }
  unfold Dedup.dedupKey. by rewrite Hp.
Qed.

Lemma zero_price_sorts_as_sentinel_witness :
  Dedup.effective_price (Dedup.item "free" (Some 0)) = 999999%Z
  ∧ Dedup.dedupKey (Dedup.item "free" (Some 0)) = "free-0".
Proof.
  destruct (zero_price_sorts_as_sentinel (Dedup.item "free" (Some 0)) eq_refl)
    as (H1 & _ & _ & H2).
  split; [exact H1 | exact H2].
Defined.

(** C10 as stated fails: a product priced 0 stays in front of a product
    priced above the sentinel. *)
Lemma zero_price_not_after_every_positive :
  ¬ Dedup.zero_after_positive
      (Dedup.deduplicateAndSort
         [Dedup.item "free" (Some 0); Dedup.item "dear" (Some 2000000)]).
Proof.
  intros H.
  specialize (H 0%nat 1%nat (Dedup.item "free" (Some 0))
                (Dedup.item "dear" (Some 2000000)) 2000000%Z).
  vm_compute in H.
  assert (1 < 0)%nat as Habs by (apply H; congruence).
  lia.
Qed.

(* ===================================================================== *)
(** * Further properties of the code                                      *)
(* ===================================================================== *)

Section PoolCallers.

Import Pool PoolLaws.

Local Open Scope nat_scope.
Local Open Scope list_scope.

Implicit Types (st : State) (p : Pool) (b : Browser) (t : nat).

Lemma settled_snoc bp tm la nb ar lg t x :
  settledCallers (mkState bp tm la nb ar (lg ++ [(t, x)]))
  = settledCallers (mkState bp tm la nb ar lg) ++ [t].
Proof. unfold settledCallers. simpl. by rewrite map_app. Qed.

Lemma sorted_lt_NoDup (l : list nat) : StronglySorted lt l → NoDup l.
Proof.
  induction 1 as [|x l Hl IH Hx]; constructor; [|done].
  intros Hin. rewrite Forall_forall in Hx. specialize (Hx x Hin). lia.
Qed.

Ltac open_state st p :=
  destruct st as [[p|] tm la nb ar lg];
  [destruct p as [sz bs av pd]|].

Ltac use_fifo H :=
  destruct H as [Hpool Hws Hss Hfirst Hwb Hsb Hidle Htm];
  unfold waiting, idle in *; simpl in *.

Ltac use_callers H :=
  destruct H as [Honce Hapart Hall Hbound];
  unfold waiting in *; simpl in *.

(** A caller not yet settled is settled now. *)
Lemma callers_settle sz bs bs' av av' t pd pd' tm tm' la la' nb nb' ar lg x :
  callers_inv (mkState (Some (mkPool sz bs av pd)) tm la nb ar lg) →
  NoDup pd → t ∈ pd → (∀ y, y ∈ pd' ↔ y ∈ pd ∧ y ≠ t) → t < ar →
  callers_inv (mkState (Some (mkPool sz bs' av' pd')) tm' la' nb' ar
                       (lg ++ [(t, x)])).
Proof.
  intros H Hnd Ht Hpd' Hlt. use_callers H.
  constructor; unfold waiting; simpl; rewrite ?settled_snoc.
  - apply NoDup_app. repeat split; [done| |apply NoDup_singleton].
    intros y Hy ->%list_elem_of_singleton. by apply (Hapart t).
  - intros y [Hy Hne]%Hpd' [Hin| ->%list_elem_of_singleton]%elem_of_app; [|done].
    by apply (Hapart y).
  - intros y Hy. destruct (Hall y Hy) as [Hin|Hin].
    + destruct (decide (y = t)) as [->|Hne].
      * right. apply elem_of_app. right. by apply list_elem_of_singleton.
      * left. by apply Hpd'.
    + right. apply elem_of_app. by left.
  - intros y [Hy| ->%list_elem_of_singleton]%elem_of_app; [by apply Hbound|done].
Qed.

Lemma tail_spec (t : nat) (rest : list nat) :
  NoDup (t :: rest) → ∀ y, y ∈ rest ↔ y ∈ t :: rest ∧ y ≠ t.
Proof.
  intros [Ht _]%NoDup_cons y. rewrite elem_of_cons. split.
  - intros Hy. split; [by right|]. by intros ->.
  - by intros [[->|?] ?].
Qed.

Lemma callers_step st o :
  fifo_inv st → callers_inv st → callers_inv (step st o).
Proof.
  intros Hf Hc. open_state st p; [|by destruct Hf as [[? [=]]]].
  pose proof Hf as Hf'. use_fifo Hf'.
  assert (NoDup pd) as Hnd by by apply sorted_lt_NoDup.
  destruct o as [|b|b| | |t]; simpl.
  - (* acquire *)
    unfold acquireFromPool; simpl. destruct av as [|b rest]; simpl.
    + use_callers Hc.
      constructor; unfold waiting; simpl.
      * done.
      * intros y [Hy| ->%list_elem_of_singleton]%elem_of_app; [by apply Hapart|].
        intros Hin%Hbound. lia.
      * intros y Hy. destruct (decide (y = ar)) as [->|Hne].
        -- left. apply elem_of_app. right. by apply list_elem_of_singleton.
        -- destruct (Hall y) as [?|?]; [lia| |by right].
           left. apply elem_of_app. by left.
      * intros y Hy%Hbound. lia.
    + assert (pd = []) as -> by (destruct pd; [done|]; by discriminate Hidle).
      use_callers Hc.
      constructor; unfold waiting; simpl; rewrite ?settled_snoc.
      * apply NoDup_app. repeat split; [done| |apply NoDup_singleton].
        intros y Hy%Hbound ->%list_elem_of_singleton. lia.
      * by intros y ?%elem_of_nil.
      * intros y Hy. right. apply elem_of_app.
        destruct (decide (y = ar)) as [->|Hne].
        -- right. by apply list_elem_of_singleton.
        -- left. destruct (Hall y) as [?%elem_of_nil|?]; [lia|done|done].
      * intros y [Hy%Hbound| ->%list_elem_of_singleton]%elem_of_app; lia.
  - (* release *)
    unfold releaseToPool; simpl. destruct pd as [|t rest].
    { use_callers Hc. by constructor. }
    eapply callers_settle; [exact Hc|done|by left|by apply tail_spec|].
    apply Hwb. by left.
  - (* remove *)
    use_callers Hc. by constructor.
  - (* replacement launched *)
    unfold replacementLaunched; simpl. destruct la as [|n]; [done|].
    destruct pd as [|t rest].
    + use_callers Hc. destruct (av ++ [nb]); by constructor.
    + destruct (av ++ [nb]) as [|b0 av'] eqn:Hav.
      { by destruct av. }
      eapply callers_settle; [exact Hc|done|by left|by apply tail_spec|].
      apply Hwb. by left.
  - (* replacement failed *)
    unfold replacementFailed; simpl. destruct la as [|n]; [done|].
    use_callers Hc. by constructor.
  - (* timer *)
    unfold fireTimeout; simpl.
    destruct (existsb (Nat.eqb t) tm) eqn:Harmed; [|done].
    apply existsb_eqb_elem_of in Harmed. rewrite Htm in Harmed.
    eapply callers_settle; [exact Hc|done|exact Harmed| |by apply Hwb].
    intros y. by apply remove_first_NoDup_elem_of.
Qed.

Lemma callers_run ops st :
  fifo_inv st → callers_inv st → callers_inv (run st ops).
Proof.
  revert st. induction ops as [|o ops IH]; intros st Hf Hc; [done|].
  simpl. apply IH; [by apply fifo_step | by apply callers_step].
Qed.

Lemma init_inv_callers sz k st : init_inv sz k st → arrivals st = 0 → callers_inv st.
Proof.
  intros (bs & Hp & _ & _ & _ & Htm & Hlg & _) Har.
  destruct st as [bp tm la nb ar lg]. simpl in *. subst.
  constructor; unfold waiting, settledCallers; simpl.
  - constructor.
  - by intros t ?%elem_of_nil.
  - intros t Ht. lia.
  - by intros t ?%elem_of_nil.
Qed.

Lemma init_launch_arrivals ok st : arrivals (init_launch ok st) = arrivals st.
Proof. unfold init_launch. destruct (browserPool st), ok; done. Qed.

Lemma init_loop_arrivals (launch_ok : nat → bool) (l : list nat) st :
  arrivals (fold_left (fun s i => init_launch (launch_ok i) s) l st) = arrivals st.
Proof.
  revert st. induction l as [|i l IH]; intros st; simpl; [done|].
  by rewrite IH, init_launch_arrivals.
Qed.

Lemma callers_reachable poolSize launch_ok ops :
  callers_inv (run (initializeBrowserPool poolSize launch_ok fresh) ops).
Proof.
  apply callers_run.
  - eapply init_inv_fifo, initializeBrowserPool_inv.
  - eapply init_inv_callers; [apply initializeBrowserPool_inv|].
    unfold initializeBrowserPool. by rewrite init_loop_arrivals.
Qed.

End PoolCallers.

(** X1.  Whatever the callers do once the pool is initialised, every
    call of [acquireFromPool] is settled at most once - never handed two
    sessions, never both served and rejected - a queued caller is not
    settled yet, and no caller is forgotten: each one that arrived is
    either still queued or settled. *)
Theorem pool_settles_every_caller_once
        (poolSize : Z) (launch_ok : nat → bool) (ops : list Pool.Op) :
  let st := Pool.run (Pool.initializeBrowserPool poolSize launch_ok Pool.fresh) ops in
  NoDup (PoolLaws.settledCallers st)
  ∧ (∀ t : nat, t ∈ Pool.waiting st → t ∉ PoolLaws.settledCallers st)
  ∧ (∀ t : nat, (t < Pool.arrivals st)%nat ↔
                t ∈ Pool.waiting st ∨ t ∈ PoolLaws.settledCallers st).
Proof.
  intros st.
  destruct (callers_reachable poolSize launch_ok ops) as [H1 H2 H3 H4].
  destruct (fifo_reachable poolSize launch_ok ops) as [_ _ _ _ Hwb _ _ _].
  fold st in H1, H2, H3, H4, Hwb.
  repeat split; auto.
  intros [?|?]; auto.
Qed.

Section PoolSessions.

Import Pool PoolLaws.

Local Open Scope nat_scope.
Local Open Scope list_scope.

Implicit Types (st : State) (p : Pool) (b : Browser) (t : nat).

Lemma remove_first_snoc (x : nat) (l : list nat) :
  x ∉ l → remove_first x (l ++ [x]) = l.
Proof.
  induction l as [|y l IH]; simpl; intros Hx.
  - by rewrite Nat.eqb_refl.
  - apply not_elem_of_cons in Hx as [Hne Hx].
    destruct (Nat.eqb_spec x y); [done|]. by rewrite IH.
Qed.

Lemma existsb_eqb_snoc (x : nat) (l : list nat) :
  existsb (Nat.eqb x) (l ++ [x]) = true.
Proof.
  apply existsb_eqb_elem_of, elem_of_app. right. by apply list_elem_of_singleton.
Qed.

(** An acquire that has to wait and then times out. *)
Lemma acquire_then_timeout st :
  fifo_inv st → idle st = [] →
  fireTimeout (arrivals st) (fst (acquireFromPool st))
  = mkState (browserPool st) (timers st) (launching st) (nextBrowser st)
            (S (arrivals st))
            (settled st ++ [(arrivals st, Rejected "Pool acquire timeout")]).
Proof.
  intros H Hidle. destruct st as [[[sz bs av pd]|] tm la nb ar lg];
    [|by destruct H as [[? [=]]]].
  destruct H as [_ _ _ _ Hwb _ _ Htm]. unfold waiting, idle in *. simpl in *.
  subst av tm. unfold acquireFromPool, fireTimeout. simpl.
  rewrite existsb_eqb_snoc.
  assert (ar ∉ pd) as Hfresh by (intros Hin%Hwb; lia).
  by rewrite !remove_first_snoc.
Qed.

Lemma size_reachable poolSize launch_ok ops :
  run_ok (initializeBrowserPool poolSize launch_ok fresh) ops = true →
  size_inv (run (initializeBrowserPool poolSize launch_ok fresh) ops).
Proof.
  intros Hok.
  destruct (init_inv_size _ _ (initializeBrowserPool_inv poolSize launch_ok))
    as [Hinv _].
  destruct (size_run ops _ (length ops) Hinv Hok) as [H _].
  by rewrite take_ge in H.
Qed.

(** The session an immediate acquire returns is owned, no longer idle,
    and not the one the next immediate acquire returns. *)
Lemma acquire_exclusive st st1 b :
  size_inv st → acquireFromPool st = (st1, Immediate b) →
  b ∈ owned st1 ∧ (b ∉ idle st1)
  ∧ ∀ st2 b', acquireFromPool st1 = (st2, Immediate b') → b' ≠ b.
Proof.
  intros (p & Hp & Hnb & Hna & Hsub & _) Hacq.
  destruct st as [bp tm la nb ar lg]. simpl in Hp. subst bp.
  destruct p as [sz bs av pd]. simpl in *.
  unfold acquireFromPool in Hacq. simpl in Hacq.
  destruct av as [|b0 rest]; [done|]. injection Hacq as <- ->.
  apply NoDup_cons in Hna as [Hb Hrest].
  unfold owned, idle. simpl. repeat split.
  - apply Hsub. by left.
  - done.
  - intros st2 b'. unfold acquireFromPool. simpl.
    destruct rest as [|b1 rest']; [done|]. intros [= _ <-] ->.
    apply Hb. by left.
Qed.

(** The array the launch loop of [initializeBrowserPool] builds. *)
Lemma init_loop_sessions sz (launch_ok : nat → bool) (l : list nat) :
  ∀ bs tm la nb ar lg,
    fold_left (fun s i => init_launch (launch_ok i) s) l
              (mkState (Some (mkPool sz bs bs [])) tm la nb ar lg)
    = mkState (Some (mkPool sz (bs ++ seq nb (length (List.filter launch_ok l)))
                            (bs ++ seq nb (length (List.filter launch_ok l))) []))
              tm la (nb + length (List.filter launch_ok l)) ar lg.
Proof.
  induction l as [|i l IH]; intros bs tm la nb ar lg; simpl.
  - by rewrite app_nil_r, Nat.add_0_r.
  - unfold init_launch at 2. simpl. destruct (launch_ok i); simpl.
    + rewrite IH. rewrite <- !app_assoc. simpl.
      by rewrite ?Nat.add_succ_r.
    + apply IH.
Qed.

(** Once the pool is dropped, no step brings it back or serves anyone. *)
Lemma dropped_stays st o :
  browserPool st = None →
  browserPool (step st o) = None ∧ served (step st o) = served st.
Proof.
  intros Hp. destruct st as [bp tm la nb ar lg]. simpl in Hp. subst bp.
  destruct o as [|b|b| | |t]; simpl.
  - unfold acquireFromPool, served. simpl. by rewrite served_of_rejected.
  - done.
  - done.
  - unfold replacementLaunched. simpl. by destruct la.
  - unfold replacementFailed. simpl. by destruct la.
  - unfold fireTimeout. simpl. by destruct (existsb (Nat.eqb t) tm).
Qed.

Lemma dropped_run ops st :
  browserPool st = None →
  browserPool (run st ops) = None ∧ served (run st ops) = served st.
Proof.
  revert st. induction ops as [|o ops IH]; intros st Hp; [done|].
  simpl. destruct (dropped_stays st o Hp) as [Hp' Hs].
  destruct (IH _ Hp') as [? ?]. split; [done|congruence].
Qed.

End PoolSessions.

(** X2.  In a pool without idle session, a caller that arrives and whose
    30-second timer then fires leaves no trace in the pool: the queue,
    the timers and the sessions are as before, the caller is rejected
    with "Pool acquire timeout", and only the arrival count has moved. *)
Theorem pool_acquire_timeout_leaves_pool_unchanged
        (poolSize : Z) (launch_ok : nat → bool) (ops : list Pool.Op) :
  let st := Pool.run (Pool.initializeBrowserPool poolSize launch_ok Pool.fresh) ops in
  Pool.idle st = [] →
  Pool.fireTimeout (Pool.arrivals st) (fst (Pool.acquireFromPool st))
  = Pool.mkState (Pool.browserPool st) (Pool.timers st) (Pool.launching st)
                 (Pool.nextBrowser st) (S (Pool.arrivals st))
                 (Pool.settled st
                  ++ [(Pool.arrivals st, Pool.Rejected "Pool acquire timeout")])%list.
Proof.
  intros st Hidle. apply acquire_then_timeout; [apply fifo_reachable|done].
Qed.

(** X2 on a pool of one session that is checked out. *)
Lemma pool_acquire_timeout_leaves_pool_unchanged_witness :
  Pool.waiting
    (Pool.fireTimeout 1
       (fst (Pool.acquireFromPool
               (Pool.run (Pool.initializeBrowserPool 1 (fun _ => true) Pool.fresh)
                         [Pool.OpAcquire]))))
  = [].
Proof.
  pose proof (pool_acquire_timeout_leaves_pool_unchanged 1 (fun _ => true)
                [Pool.OpAcquire] eq_refl) as H.
  apply (f_equal Pool.waiting) in H. exact H.
Defined.

(** X3.  While the callers follow the protocol (release only what they
    hold, remove only what the pool owns), the session an [acquireFromPool]
    call returns at once is owned by the pool, is no longer idle, and is
    not the session the next such call returns. *)
Theorem pool_hands_out_distinct_sessions
        (poolSize : Z) (launch_ok : nat → bool) (ops : list Pool.Op)
        (st1 : Pool.State) (b : Browser) :
  Pool.run_ok (Pool.initializeBrowserPool poolSize launch_ok Pool.fresh) ops = true →
  Pool.acquireFromPool
    (Pool.run (Pool.initializeBrowserPool poolSize launch_ok Pool.fresh) ops)
  = (st1, Pool.Immediate b) →
  b ∈ PoolLaws.owned st1
  ∧ (b ∉ Pool.idle st1)
  ∧ ∀ (st2 : Pool.State) (b' : Browser),
      Pool.acquireFromPool st1 = (st2, Pool.Immediate b') → b' ≠ b.
Proof.
  intros Hok Hacq. eapply acquire_exclusive; [|exact Hacq].
  by apply size_reachable.
Qed.

(** X3 on a pool of two sessions: the first caller gets session 0. *)
Lemma pool_hands_out_distinct_sessions_witness :
  0%nat ∈ PoolLaws.owned (fst (Pool.acquireFromPool Sample.two_sessions))
  ∧ (0%nat ∉ Pool.idle (fst (Pool.acquireFromPool Sample.two_sessions))).
Proof.
  destruct (pool_hands_out_distinct_sessions 2 (fun _ => true) []
              (fst (Pool.acquireFromPool Sample.two_sessions)) 0%nat
              eq_refl eq_refl)
    as (H1 & H2 & _).
  split; [exact H1 | exact H2].
Defined.

Section BootFacts.

Import Pool PoolLaws.

Local Open Scope nat_scope.
Local Open Scope list_scope.

Implicit Types (st : State) (p : Pool) (b : Browser) (t : nat).

Lemma start_disciplined poolSize : disciplined (Boot.start poolSize fresh).
Proof.
  split.
  - constructor; unfold waiting, idle, served; simpl; try done.
    + constructor.
    + constructor.
    + by intros t t' ?%elem_of_nil.
    + by intros t ?%elem_of_nil.
    + by intros t ?%elem_of_nil.
  - constructor; unfold waiting, settledCallers; simpl.
    + constructor.
    + by intros t ?%elem_of_nil.
    + intros t Ht. lia.
    + by intros t ?%elem_of_nil.
Qed.

Lemma start_tidy poolSize : Boot.tidy (Boot.start poolSize fresh).
Proof.
  eexists. split; [reflexivity|]. simpl. repeat split.
  - constructor.
  - constructor.
  - done.
  - by intros b ?%elem_of_nil.
Qed.

(** A launch of the loop that fails, or that meets no pending caller,
    keeps the queue discipline. *)
Lemma launch_disciplined ok st :
  disciplined st → (ok = true → waiting st = []) →
  disciplined (init_launch ok st).
Proof.
  intros [Hf Hc] Hw. destruct st as [[[sz bs av pd]|] tm la nb ar lg];
    [|by destruct Hf as [[? [=]]]].
  unfold init_launch. simpl. destruct ok; [|done].
  unfold waiting in Hw. simpl in Hw. rewrite (Hw eq_refl) in *.
  split.
  - destruct Hf as [Hpool Hws Hss Hfirst Hwb Hsb Hidle Htm].
    constructor; unfold waiting, idle, served in *; simpl in *; eauto; done.
  - destruct Hc as [Honce Hapart Hall Hbound].
    constructor; unfold waiting, settledCallers in *; simpl in *; eauto.
Qed.

Lemma calm_run es st :
  disciplined st → Boot.calm st es = true → disciplined (Boot.run st es).
Proof.
  revert st. induction es as [|e es IH]; intros st H Hcalm; [done|].
  simpl in Hcalm. apply andb_true_iff in Hcalm as [He Hes].
  simpl. apply IH; [|done].
  destruct e as [ok|o]; simpl.
  - apply launch_disciplined; [done|]. intros ->.
    by destruct (waiting st).
  - destruct H. split; [by apply fifo_step | by apply callers_step].
Qed.

Lemma calm_reachable poolSize es :
  Boot.calm (Boot.start poolSize fresh) es = true →
  disciplined (Boot.boot poolSize es).
Proof. apply calm_run, start_disciplined. Qed.

Ltac close_tidy :=
  eexists; split; [reflexivity|]; simpl; repeat split; eauto.

Lemma tidy_step st o :
  Boot.tidy st → op_ok st o = true → Boot.tidy (step st o).
Proof.
  intros (p & Hp & Hnb & Hna & Hsub & Hlt) Hok.
  destruct st as [bp tm la nb ar lg]. simpl in Hp. subst bp.
  destruct p as [sz bs av pd]. simpl in *.
  destruct o as [|b|b| | |t]; simpl.
  - unfold acquireFromPool; simpl. destruct av as [|b rest]; simpl.
    + close_tidy.
    + close_tidy.
      * by apply NoDup_cons in Hna as [_ ?].
      * intros x Hx. apply Hsub. by right.
  - apply andb_true_iff in Hok as [Hin Hout].
    apply existsb_eqb_elem_of in Hin.
    apply negb_true_iff, existsb_eqb_not_elem_of in Hout.
    unfold releaseToPool; simpl. destruct pd as [|t rest]; simpl.
    + close_tidy.
      * apply NoDup_app. repeat split; [done| |apply NoDup_singleton].
        by intros x Hx ->%list_elem_of_singleton.
      * intros x [Hx| ->%list_elem_of_singleton]%elem_of_app; auto.
    + close_tidy.
  - apply existsb_eqb_elem_of in Hok.
    close_tidy.
    + by apply remove_first_NoDup.
    + by apply remove_first_NoDup.
    + intros x Hx. apply remove_first_NoDup_elem_of in Hx as [Hx Hne]; [|done].
      apply remove_first_NoDup_elem_of; auto.
    + intros x Hx%remove_first_elem_of. auto.
  - unfold replacementLaunched; simpl. destruct la as [|n]; simpl.
    { close_tidy. }
    assert (NoDup (bs ++ [nb])) as Hnb'.
    { apply NoDup_app. repeat split; [done| |apply NoDup_singleton].
      intros x Hx ->%list_elem_of_singleton. specialize (Hlt _ Hx). lia. }
    assert (NoDup (av ++ [nb])) as Hna'.
    { apply NoDup_app. repeat split; [done| |apply NoDup_singleton].
      intros x Hx%Hsub ->%list_elem_of_singleton. specialize (Hlt _ Hx). lia. }
    assert (∀ x, x ∈ av ++ [nb] → x ∈ bs ++ [nb]) as Hsub'.
    { intros x [Hx| Hx]%elem_of_app; apply elem_of_app; auto. }
    assert (∀ x, x ∈ bs ++ [nb] → x < S nb) as Hlt'.
    { intros x [Hx| ->%list_elem_of_singleton]%elem_of_app; [|lia].
      specialize (Hlt _ Hx). lia. }
    destruct pd as [|t rest]; [|destruct (av ++ [nb]) as [|b0 av'] eqn:Hav]; simpl.
    + close_tidy.
    + close_tidy.
    + close_tidy.
      * by apply NoDup_cons in Hna' as [_ ?].
      * intros x Hx. apply Hsub'. by right.
  - unfold replacementFailed; simpl. destruct la as [|n]; simpl; close_tidy.
  - unfold fireTimeout; simpl. destruct (existsb (Nat.eqb t) tm); simpl; close_tidy.
Qed.

Lemma tidy_launch ok st : Boot.tidy st → Boot.tidy (init_launch ok st).
Proof.
  intros (p & Hp & Hnb & Hna & Hsub & Hlt).
  destruct st as [bp tm la nb ar lg]. simpl in Hp. subst bp.
  destruct p as [sz bs av pd]. simpl in *.
  unfold init_launch. simpl. destruct ok; [|close_tidy].
  close_tidy.
  - apply NoDup_app. repeat split; [done| |apply NoDup_singleton].
    intros x Hx ->%list_elem_of_singleton. specialize (Hlt _ Hx). lia.
  - apply NoDup_app. repeat split; [done| |apply NoDup_singleton].
    intros x Hx%Hsub ->%list_elem_of_singleton. specialize (Hlt _ Hx). lia.
  - intros x [Hx| Hx]%elem_of_app; apply elem_of_app; auto.
  - intros x [Hx| ->%list_elem_of_singleton]%elem_of_app; [|lia].
    specialize (Hlt _ Hx). lia.
Qed.

Lemma tidy_run es st :
  Boot.tidy st → Boot.run_ok st es = true → Boot.tidy (Boot.run st es).
Proof.
  revert st. induction es as [|e es IH]; intros st H Hok; [done|].
  simpl in Hok. apply andb_true_iff in Hok as [He Hes].
  simpl. apply IH; [|done].
  destruct e as [ok|o]; simpl; [by apply tidy_launch | by apply tidy_step].
Qed.

Lemma tidy_reachable poolSize es :
  Boot.run_ok (Boot.start poolSize fresh) es = true →
  Boot.tidy (Boot.boot poolSize es).
Proof. apply tidy_run, start_tidy. Qed.

(** Removal of an owned session followed by the arrival of its
    replacement, in any tidy state. *)
Lemma remove_then_replace_tidy st b :
  Boot.tidy st → b ∈ owned st →
  let st2 := replacementLaunched (removeBrowserFromPool b st) in
  length (owned st2) = length (owned st)
  ∧ (b ∉ owned st2)
  ∧ nextBrowser st ∈ owned st2
  ∧ launching st2 = launching st
  ∧ match waiting st with
    | [] => idle st2 = remove_first b (idle st) ++ [nextBrowser st]
            ∧ settled st2 = settled st
    | t :: rest =>
        waiting st2 = rest
        ∧ ∃ oldest,
            remove_first b (idle st) ++ [nextBrowser st] = oldest :: idle st2
            ∧ settled st2 = settled st ++ [(t, Resolved oldest)]
    end.
Proof.
  intros (p & Hp & Hnb & Hna & Hsub & Hlt) Hb.
  destruct st as [bp tm la nb ar lg]. simpl in Hp. subst bp.
  destruct p as [sz bs av pd].
  unfold waiting, idle, owned in *. simpl in *.
  assert (length (remove_first b bs ++ [nb]) = length bs) as Hlen.
  { rewrite length_app. simpl. pose proof (remove_first_length b bs Hb).
    unfold Browser in *. lia. }
  assert (b ∉ remove_first b bs ++ [nb]) as Hgone.
  { intros [Hin| ->%list_elem_of_singleton]%elem_of_app.
    - apply remove_first_NoDup_elem_of in Hin as [_ ?]; done.
    - specialize (Hlt _ Hb). lia. }
  assert (nb ∈ remove_first b bs ++ [nb]) as Hnew.
  { apply elem_of_app. right. by apply list_elem_of_singleton. }
  destruct pd as [|t rest].
  - destruct (remove_first b av ++ [nb]) eqn:Hav; simpl; rewrite ?Hav; done.
  - unfold replacementLaunched, removeBrowserFromPool. simpl.
    unfold Browser in *.
    destruct (remove_first b av ++ [nb]) as [|b0 rest'] eqn:Hav.
    { exfalso. revert Hav. by destruct (remove_first b av). }
    simpl. repeat split; try done. by exists b0.
Qed.

Lemma loop_is_atomic (z : Z) (launch_ok : nat → bool) st :
  Boot.run (Boot.start (Boot.Int z) st)
           (Boot.loop launch_ok (Boot.iterations (Boot.max1 (Boot.Int z))))
  = initializeBrowserPool z launch_ok st.
Proof.
  unfold initializeBrowserPool, Boot.run, Boot.loop, Boot.start. simpl.
  generalize (with_pool st (mkPool (Z.to_nat (Z.max 1 z)) [] [] [])).
  generalize (seq 0 (Z.to_nat (Z.max 1 z))).
  intros l. induction l as [|i l IH]; intros s; [done|]. simpl. apply IH.
Qed.

End BootFacts.

(** X4.  While the callers follow the protocol - also while
    [initializeBrowserPool] is still launching - removing an owned
    session and then receiving its replacement leaves the pool with as
    many owned sessions as before: the removed session is gone, the new
    one is owned, no launch remains in flight on its account.  With
    nobody pending the new session joins the end of the available
    queue.  Otherwise the longest-waiting caller receives
    [available.shift()], the oldest idle session: that is the new
    session unless a session was idle while the caller waited, which
    happens only when a launch of the initialisation loop settled while
    a caller was pending. *)
Theorem pool_replacement_restores_ownership
        (poolSize : Boot.Number) (es : list Boot.Event) (b : Browser) :
  Boot.run_ok (Boot.start poolSize Pool.fresh) es = true →
  let st := Boot.boot poolSize es in
  b ∈ PoolLaws.owned st →
  let st2 := Pool.replacementLaunched (Pool.removeBrowserFromPool b st) in
  length (PoolLaws.owned st2) = length (PoolLaws.owned st)
  ∧ (b ∉ PoolLaws.owned st2)
  ∧ Pool.nextBrowser st ∈ PoolLaws.owned st2
  ∧ Pool.launching st2 = Pool.launching st
  ∧ match Pool.waiting st with
    | [] => Pool.idle st2
            = (remove_first b (Pool.idle st) ++ [Pool.nextBrowser st])%list
            ∧ Pool.settled st2 = Pool.settled st
    | t :: rest =>
        Pool.waiting st2 = rest
        ∧ ∃ oldest,
            (remove_first b (Pool.idle st) ++ [Pool.nextBrowser st])%list
            = oldest :: Pool.idle st2
            ∧ Pool.settled st2
              = (Pool.settled st ++ [(t, Pool.Resolved oldest)])%list
    end
  ∧ (Boot.calm (Boot.start poolSize Pool.fresh) es = true →
     Pool.waiting st ≠ [] → Pool.idle st = []).
Proof.
  intros Hok st Hb st2.
  destruct (remove_then_replace_tidy st b (tidy_reachable poolSize es Hok) Hb)
    as (H1 & H2 & H3 & H4 & H5).
  repeat split; try done.
  intros Hcalm. destruct (calm_reachable poolSize es Hcalm) as [Hf _].
  by destruct Hf.
Qed.

(** X4 on a pool of size 2 whose first caller arrived before the first
    launch settled: session 0 is held by caller 1 and found broken, and
    the replacement, session 2, stays idle while the pending caller 0
    receives the idle session 1. *)
Lemma pool_replacement_restores_ownership_witness :
  let st := Boot.boot (Boot.Int 2)
              [Boot.Request Pool.OpAcquire; Boot.Launch true;
               Boot.Request Pool.OpAcquire; Boot.Launch true] in
  let st2 := Pool.replacementLaunched (Pool.removeBrowserFromPool 0%nat st) in
  PoolLaws.owned st = [0%nat; 1%nat]
  ∧ PoolLaws.owned st2 = [1%nat; 2%nat]
  ∧ Pool.settled st2
    = [(1%nat, Pool.Resolved 0%nat); (0%nat, Pool.Resolved 1%nat)]
  ∧ Pool.idle st2 = [2%nat]
  ∧ (0%nat ∉ PoolLaws.owned st2).
Proof.
  pose proof (pool_replacement_restores_ownership (Boot.Int 2)
                [Boot.Request Pool.OpAcquire; Boot.Launch true;
                 Boot.Request Pool.OpAcquire; Boot.Launch true] 0%nat eq_refl) as H.
  cbv zeta in H.
  destruct H as (_ & Hgone & _).
  - vm_compute. left.
  - repeat split; [reflexivity..|exact Hgone].
Defined.

(** X5.  [initializeBrowserPool], when nothing else runs between its
    launches, leaves a pool whose sessions are exactly the launches that
    succeeded, all idle and pairwise distinct; failed launches are
    skipped, nobody is queued and nothing is in flight.  For a numeric
    [poolSize] it makes [max(1, poolSize)] launches, at least one.  For
    [NaN] - a [PUPPETEER_POOL_SIZE] that is not a number - it makes
    none: the pool owns no session and a caller can only wait. *)
Theorem initializeBrowserPool_builds_idle_pool
        (poolSize : Boot.Number) (launch_ok : nat → bool) :
  let n := Boot.iterations (Boot.max1 poolSize) in
  let st := Boot.boot poolSize (Boot.loop launch_ok n) in
  let launched := length (List.filter launch_ok (seq 0 n)) in
  Pool.idle st = seq 0 launched
  ∧ PoolLaws.owned st = seq 0 launched
  ∧ (launched ≤ n)%nat
  ∧ Pool.waiting st = []
  ∧ Pool.launching st = 0%nat
  ∧ Pool.nextBrowser st = launched
  ∧ match poolSize with
    | Boot.Int z =>
        n = Z.to_nat (Z.max 1 z) ∧ (1 ≤ n)%nat
        ∧ st = Pool.initializeBrowserPool z launch_ok Pool.fresh
    | Boot.NaN =>
        n = 0%nat ∧ PoolLaws.owned st = []
        ∧ snd (Pool.acquireFromPool st) = Pool.Waiting 0
    end.
Proof.
  intros n st launched.
  assert (launched ≤ n)%nat as Hle.
  { subst launched. etrans; [apply List.filter_length_le|]. by rewrite length_seq. }
  destruct poolSize as [z|].
  - assert (st = Pool.initializeBrowserPool z launch_ok Pool.fresh) as Hst.
    { subst st n. unfold Boot.boot. apply loop_is_atomic. }
    assert (n = Z.to_nat (Z.max 1 z)) as Hn by done.
    rewrite Hst.
    unfold Pool.initializeBrowserPool, Pool.fresh, Pool.with_pool. simpl.
    rewrite (init_loop_sessions _ launch_ok _ [] [] 0%nat 0%nat 0%nat []).
    rewrite <- Hn. fold launched.
    unfold Pool.idle, PoolLaws.owned, Pool.waiting. simpl.
    repeat split; try done. lia.
  - subst st launched n. vm_compute. repeat split. lia.
Qed.

(** X6.  [destroyPool] closes every session the pool owns, checked out
    or idle, and drops the pool for good: whatever happens afterwards the
    pool stays absent, nobody is served any more, [acquireFromPool]
    throws "No browser pool", and [releaseToPool] and
    [removeBrowserFromPool] do nothing. *)
Theorem destroyPool_is_final (st : Pool.State) (ops : list Pool.Op) :
  let after := Pool.run (fst (PoolLaws.destroyPool st)) ops in
  snd (PoolLaws.destroyPool st) = PoolLaws.owned st
  ∧ Pool.browserPool after = None
  ∧ Pool.served after = Pool.served st
  ∧ snd (Pool.acquireFromPool after) = Pool.Threw "No browser pool"
  ∧ (∀ b : Browser, Pool.releaseToPool b after = after)
  ∧ (∀ b : Browser, Pool.removeBrowserFromPool b after = after)
  ∧ snd (PoolLaws.destroyPool after) = [].
Proof.
  intros after.
  assert (Pool.browserPool (fst (PoolLaws.destroyPool st)) = None) as Hnone.
  { unfold PoolLaws.destroyPool. by destruct (Pool.browserPool st) eqn:Hp. }
  destruct (dropped_run ops _ Hnone) as [Hp Hs]. fold after in Hp, Hs.
  split.
  { unfold PoolLaws.destroyPool, PoolLaws.owned. by destruct (Pool.browserPool st). }
  split; [done|]. split.
  { rewrite Hs. unfold PoolLaws.destroyPool. by destruct (Pool.browserPool st). }
  unfold Pool.acquireFromPool, Pool.releaseToPool, Pool.removeBrowserFromPool,
    PoolLaws.destroyPool.
  rewrite Hp. done.
Qed.

Section RetryMore.

Import Retry Scrapers.

Local Open Scope nat_scope.
Local Open Scope list_scope.

Context {A : Type}.
Variable task : nat → Error + A.
Variable relaunch : nat → bool.

Implicit Types (st : State) (n i k : nat).

Lemma recoveries_emit e st :
  recoveries (emit e st)
  = recoveries st + match e with Reinitialize _ => 1 | _ => 0 end.
Proof.
  unfold recoveries, emit. simpl. rewrite List.filter_app, length_app.
  by destruct e.
Qed.

Lemma recoveries_recover ok st : recoveries (recover ok st) = S (recoveries st).
Proof.
  unfold recover, initializeBrowser.
  destruct (browser st), ok; simpl;
    unfold recoveries, emit; simpl;
    rewrite ?List.filter_app, ?length_app; simpl; lia.
Qed.

(** The loop on a task that keeps failing for [k] executions. *)
Lemma retry_loop_failures k : ∀ n i lastErr st (errs : nat → Error),
  (∀ j, j < k → task (i + j) = inl (errs (i + j))) →
  k ≤ n →
  ∃ st',
    retry_loop task relaunch n i lastErr st
    = retry_loop task relaunch (n - k) (i + k)
                 (match k with 0 => lastErr | S k' => Some (errs (i + k')) end) st'
    ∧ delays st' = delays st ++ map backoff (seq i k)
    ∧ executions st' = executions st + k
    ∧ recoveries st'
      = recoveries st + length (List.filter (fun j => isTransient (errs j)) (seq i k))
    ∧ ((∀ j, j < k → isTransient (errs (i + j)) = false) →
       browser st' = browser st ∧ Retry.nextBrowser st' = Retry.nextBrowser st
       ∧ closings st' = closings st).
Proof.
  induction k as [|k IH]; intros n i lastErr st errs Hfail Hle.
  - exists st. rewrite Nat.sub_0_r, Nat.add_0_r. simpl.
    rewrite app_nil_r, !Nat.add_0_r. done.
  - destruct n as [|n]; [lia|]. simpl retry_loop at 1.
    pose proof (Hfail 0 ltac:(lia)) as H0. rewrite Nat.add_0_r in H0. rewrite H0.
    set (st1 := if isTransient (errs i) then recover (relaunch i) (emit (Call i) st)
                else emit (Call i) st).
    destruct (after_failure relaunch i (errs i) st) as [Hd Hx].
    cbv zeta in Hd, Hx. fold st1 in Hd, Hx.
    destruct (IH n (S i) (Some (errs i)) (emit (Delay (backoff i)) st1) errs)
      as (st' & Hrun & Hd' & Hx' & Hr' & Hq'); [|lia|].
    { intros j Hj. replace (S i + j) with (i + S j) by lia. apply Hfail. lia. }
    exists st'. replace (i + S k) with (S i + k) by lia.
    simpl Nat.sub. split.
    { rewrite Hrun. destruct k as [|k']; [by rewrite !Nat.add_0_r|].
      by replace (S i + k') with (i + S k') by lia. }
    split; [by rewrite Hd', Hd, <- app_assoc|].
    split; [rewrite Hx', Hx; lia|].
    assert (recoveries (emit (Delay (backoff i)) st1)
            = recoveries st + (if isTransient (errs i) then 1 else 0)) as Hrec.
    { rewrite recoveries_emit. subst st1. destruct (isTransient (errs i)).
      - rewrite recoveries_recover, recoveries_emit. lia.
      - rewrite recoveries_emit. lia. }
    split.
    { rewrite Hr', Hrec. simpl. destruct (isTransient (errs i)); simpl; lia. }
    intros Hnone.
    destruct Hq' as (Hb & Hnb & Hcl).
    { intros j Hj. replace (S i + j) with (i + S j) by lia. apply Hnone. lia. }
    pose proof (Hnone 0 ltac:(lia)) as Hi. rewrite Nat.add_0_r in Hi.
    subst st1. rewrite Hi in Hb, Hnb, Hcl.
    rewrite Hb, Hnb, Hcl. unfold closings, emit. simpl.
    rewrite !List.filter_app, !length_app. simpl. repeat split; lia.
Qed.

End RetryMore.

(** X7.  When every one of its [attempts] executions fails, [withRetry]
    runs the task exactly [attempts] times and sleeps [attempts] times,
    for 500, 700, 900, ... milliseconds: it also sleeps after the last
    failure, before it throws.  With no attempt at all it throws
    [undefined] (here [None]) without running the task. *)
Theorem withRetry_exhaustion_cost
        {A : Type} (task : nat → Error + A) (relaunch : nat → bool)
        (attempts : nat) (errs : nat → Error) (st : Retry.State) :
  (∀ i : nat, (i < attempts)%nat → task i = inl (errs i)) →
  snd (Retry.withRetry task relaunch attempts st)
  = inl (match attempts with O => None | S n => Some (errs n) end)
  ∧ Retry.executions (fst (Retry.withRetry task relaunch attempts st))
    = (Retry.executions st + attempts)%nat
  ∧ Retry.delays (fst (Retry.withRetry task relaunch attempts st))
    = (Retry.delays st
       ++ map (fun i : nat => 500 + Z.of_nat i * 200)%Z (seq 0 attempts))%list.
Proof.
  intros Hfail.
  destruct (retry_loop_failures task relaunch attempts attempts 0%nat None st errs)
    as (st' & Hrun & Hd & Hx & _); [by intros j Hj; apply Hfail|lia|].
  unfold Retry.withRetry. rewrite Hrun, Nat.sub_diag. simpl.
  repeat split; done.
Qed.

(** X7 on a task that fails twice, with two attempts. *)
Lemma withRetry_exhaustion_cost_witness :
  Retry.delays
    (fst (Retry.withRetry (A := nat) (fun _ => inl Sample.timeout_error)
            (fun _ => true) 2 Retry.idle))
  = [500%Z; 700%Z].
Proof.
  destruct (withRetry_exhaustion_cost (A := nat) (fun _ => inl Sample.timeout_error)
              (fun _ => true) 2 (fun _ => Sample.timeout_error) Retry.idle)
    as (_ & _ & H).
  - intros i Hi. reflexivity.
  - exact H.
Defined.

(** X8.  [withRetry] reinitializes the shared browser once for each
    failed execution whose error message matches
    [/Protocol error|Connection closed|Timeout/], and for no other: when
    the task fails [k] times before it returns or the attempts run out,
    the number of reinitializations is the number of transient errors
    among those [k]; if none is transient the shared browser is neither
    closed nor replaced. *)
Theorem withRetry_recovers_only_on_transient_errors
        {A : Type} (task : nat → Error + A) (relaunch : nat → bool)
        (k attempts : nat) (errs : nat → Error) (st : Retry.State) :
  (∀ i : nat, (i < k)%nat → task i = inl (errs i)) →
  (k ≤ attempts)%nat →
  ((k < attempts)%nat → ∃ v, task k = inr v) →
  let final := fst (Retry.withRetry task relaunch attempts st) in
  Scrapers.recoveries final
  = (Scrapers.recoveries st
     + length (List.filter (fun i => Retry.isTransient (errs i)) (seq 0 k)))%nat
  ∧ ((∀ i : nat, (i < k)%nat → Retry.isTransient (errs i) = false) →
     Retry.browser final = Retry.browser st
     ∧ Scrapers.closings final = Scrapers.closings st).
Proof.
  intros Hfail Hle Hok final.
  destruct (retry_loop_failures task relaunch k attempts 0%nat None st errs)
    as (st' & Hrun & _ & _ & Hr & Hq); [by intros j Hj; apply Hfail|lia|].
  simpl in Hrun.
  assert (final = st' ∨ ∃ c, final = Retry.emit (Retry.Call c) st') as Hfinal.
  { subst final. unfold Retry.withRetry. rewrite Hrun.
    destruct (attempts - k)%nat as [|m] eqn:Hm; [by left|].
    destruct Hok as [v Hv]; [lia|]. simpl. rewrite Hv. simpl. eauto. }
  assert (Scrapers.recoveries final = Scrapers.recoveries st'
          ∧ Retry.browser final = Retry.browser st'
          ∧ Scrapers.closings final = Scrapers.closings st') as (-> & -> & ->).
  { destruct Hfinal as [->|[c ->]]; [done|].
    unfold Scrapers.recoveries, Scrapers.closings, Retry.emit. simpl.
    rewrite !List.filter_app, !length_app. simpl. repeat split; lia. }
  split; [exact Hr|].
  intros Hnone. destruct Hq as (Hb & _ & Hc); [by intros j Hj; apply Hnone|].
  done.
Qed.

(** X8 on a task that fails once with a non-transient error and then
    returns: the shared browser is left alone. *)
Lemma withRetry_recovers_only_on_transient_errors_witness :
  Scrapers.recoveries
    (fst (Retry.withRetry
            (fun i => if (i =? 0)%nat then inl (mkError "TypeError" "x is undefined")
                      else inr 3%nat)
            (fun _ => true) 2 Retry.idle))
  = 0%nat.
Proof.
  destruct (withRetry_recovers_only_on_transient_errors
              (fun i => if (i =? 0)%nat then inl (mkError "TypeError" "x is undefined")
                        else inr 3%nat)
              (fun _ => true) 1 2 (fun _ => mkError "TypeError" "x is undefined")
              Retry.idle)
    as (H & _).
  - intros i Hi. destruct i; [reflexivity|lia].
  - lia.
  - intros _. exists 3%nat. reflexivity.
  - exact H.
Defined.

Section Classification.

Local Open Scope string_scope.

Lemma prefix_spec (n h : string) :
  String.prefix n h = true ↔ ∃ post, h = n ++ post.
Proof.
  revert h. induction n as [|c n IH]; intros h.
  - cbn. split; [intros _; by exists h | by destruct h].
  - destruct h as [|d h]; cbn.
    + split; [done | by intros [post [=]]].
    + destruct (Ascii.ascii_dec c d) as [->|Hne].
      * rewrite IH. split; intros [post Hp]; exists post.
        -- by rewrite Hp.
        -- by injection Hp.
      * split; [done | intros [post [=]]; done].
Qed.

Lemma includes_spec (n h : string) :
  Js.includes n h = true ↔ ∃ pre post, h = pre ++ n ++ post.
Proof.
  induction h as [|d h IH].
  - cbn [Js.includes]. destruct (String.prefix n "") eqn:Hp.
    + apply prefix_spec in Hp as [post Hp]. split; [|done].
      intros _. by exists "", post.
    + split; [done|]. intros (pre & post & Hh).
      destruct pre; [|done]. simpl in Hh.
      assert (String.prefix n "" = true) by (apply prefix_spec; eauto).
      congruence.
  - cbn [Js.includes]. destruct (String.prefix n (String d h)) eqn:Hp.
    + apply prefix_spec in Hp as [post Hp]. split; [|done].
      intros _. by exists "", post.
    + rewrite IH. split.
      * intros (pre & post & ->). by exists (String d pre), post.
      * intros (pre & post & Hh). destruct pre as [|c pre].
        -- simpl in Hh.
           assert (String.prefix n (String d h) = true)
             by (apply prefix_spec; eauto).
           congruence.
        -- injection Hh as -> ->. eauto.
Qed.

End Classification.

(** X9.  [withRetry] classifies an error as transient exactly when its
    message contains, anywhere and with this very capitalisation, one of
    "Protocol error", "Connection closed" or "Timeout".  The pool's own
    rejections, "Pool acquire timeout" and "No browser pool", are
    therefore not transient. *)
Theorem transient_iff_message_contains_phrase (e : Error) :
  (Retry.isTransient e = true ↔
   ∃ pre phrase post : string,
     In phrase ["Protocol error"; "Connection closed"; "Timeout"]
     ∧ message e = pre ++ phrase ++ post)
  ∧ (∀ n : string, Retry.isTransient (mkError n "Pool acquire timeout") = false)
  ∧ (∀ n : string, Retry.isTransient (mkError n "No browser pool") = false).
Proof.
  split; [|split; intros n; reflexivity].
  unfold Retry.isTransient. rewrite !orb_true_iff, !includes_spec. split.
  - intros [[(pre & post & H)|(pre & post & H)]|(pre & post & H)];
      eexists pre, _, post; (split; [|exact H]); simpl; auto.
  - intros (pre & phrase & post & Hin & H). simpl in Hin.
    destruct Hin as [<-|[<-|[<-|[]]]]; eauto.
Qed.

(** X10.  [scrapeAmazon] and [scrapeFlipkart] never throw: they return
    the products of the first run of their inner function that succeeds,
    among two at most, and the empty list when both runs throw; they
    sleep 500 ms after a first failure and 700 ms after a second one. *)
Theorem scrapeWithRetry_never_throws
        (task : nat → Error + list Product) (relaunch : nat → bool) :
  snd (Scrapers.scrapeWithRetry task relaunch Retry.idle)
  = match task 0%nat, task 1%nat with
    | inr products, _ => products
    | inl _, inr products => products
    | inl _, inl _ => []
    end
  ∧ Retry.delays (fst (Scrapers.scrapeWithRetry task relaunch Retry.idle))
    = match task 0%nat, task 1%nat with
      | inr _, _ => []
      | inl _, inr _ => [500%Z]
      | inl _, inl _ => [500%Z; 700%Z]
      end
  ∧ (Retry.executions (fst (Scrapers.scrapeWithRetry task relaunch Retry.idle)) ≤ 2)%nat.
Proof.
  unfold Scrapers.scrapeWithRetry, Retry.withRetry. simpl.
  destruct (task 0%nat) as [e0|l0]; simpl.
  - destruct (task 1%nat) as [e1|l1]; simpl.
    + destruct (after_failure relaunch 0 e0 Retry.idle) as [Hd0 Hx0].
      cbv zeta in Hd0, Hx0.
      match goal with
      | |- context [Retry.emit (Retry.Call 1) ?s] =>
          destruct (after_failure relaunch 1 e1 s) as [Hd1 Hx1]
      end.
      cbv zeta in Hd1, Hx1. rewrite Hd1, Hx1, Hd0, Hx0.
      repeat split. unfold Retry.executions. simpl. lia.
    + destruct (after_failure relaunch 0 e0 Retry.idle) as [Hd0 Hx0].
      cbv zeta in Hd0, Hx0.
      rewrite delays_emit, executions_emit, Hd0, Hx0.
      repeat split. unfold Retry.executions. simpl. lia.
  - repeat split. unfold Retry.executions. simpl. lia.
Qed.

(** X11.  [scrapeMyntra] and [scrapeSnapdeal] turn every failure of the
    page - no shared browser, no page, a failed navigation or extraction -
    into the empty list; a page that was opened is always closed; and the
    only error that leaves the function is a rejection of that
    [page.close()], which also discards the products extracted. *)
Theorem scrapeDirect_throws_only_on_close
        (browser : option Browser) (env : Scrapers.PageEnv) :
  let run := Scrapers.scrapeDirect browser env in
  (∀ err : Error,
      snd run = inl err ↔
      browser ≠ None ∧ Scrapers.openPage env = None
      ∧ Scrapers.closePage env = Some err)
  ∧ (In Scrapers.Opened (fst run) → In Scrapers.CloseCalled (fst run))
  ∧ (Scrapers.closePage env = None →
     snd run = inr match browser, Scrapers.openPage env, Scrapers.extract env with
                   | Some _, None, inr products => products
                   | _, _, _ => []
                   end).
Proof.
  unfold Scrapers.scrapeDirect.
  destruct browser as [b|], (Scrapers.openPage env) as [e1|],
    (Scrapers.closePage env) as [e3|], (Scrapers.extract env) as [e2|l];
    simpl; repeat split; try done; try (intros; intuition congruence);
    try (intros [=]; subst; done); auto.
Qed.

Section AttemptShape.

Import Orchestrator OrchestratorLaws.

Local Open Scope nat_scope.
Local Open Scope list_scope.

Variable resolveUrl : string → string → option string.

Implicit Types (st : Pool.State) (env : AttemptEnv) (b : Browser)
         (site : string) (evs : list Event).

(** The three ways [browser] is obtained, or not. *)
Lemma obtain_browser_cases env st :
  (∃ b, result (obtain_browser env st) = inr (b, true)
        ∧ events (obtain_browser env st) = [Borrow b])
  ∨ (∃ b, result (obtain_browser env st) = inr (b, false)
          ∧ launch env = None
          ∧ (events (obtain_browser env st) = [Launch b]
             ∨ events (obtain_browser env st) = [AcquireFailed; Launch b]))
  ∨ (∃ e, result (obtain_browser env st) = inl e
          ∧ launch env = Some e
          ∧ (events (obtain_browser env st) = []
             ∨ events (obtain_browser env st) = [AcquireFailed])).
Proof.
  unfold obtain_browser, borrow, events, result.
  destruct (Pool.browserPool st) as [p|]; simpl.
  - destruct (Pool.acquireFromPool st) as [st' [b|msg|t]]; simpl.
    + left. eauto.
    + destruct (launch env) as [e|]; simpl; [right; right|right; left]; eauto 10.
    + destruct (settlement t _) as [[b|msg]|]; simpl.
      * left. eauto.
      * destruct (launch env) as [e|]; simpl; [right; right|right; left]; eauto 10.
      * destruct (launch env) as [e|]; simpl; [right; right|right; left]; eauto 10.
  - destruct (launch env) as [e|]; simpl; [right; right|right; left]; eauto 10.
Qed.

Lemma attempt_has_shape site n env st :
  attempt_shape env n (events (attempt resolveUrl site n env st))
                (result (attempt resolveUrl site n env st)).
Proof.
  pose proof (obtain_browser_cases env st) as Hob.
  unfold attempt, events, result in *.
  destruct (obtain_browser env st) as [[st1 evs0] r0]. simpl in Hob.
  assert (∀ e, newPage env = Some e → In (Some e) (errors_of env)) as Hnp
    by (intros e <-; unfold errors_of; simpl; auto).
  assert (∀ e, pageSetup env = Some e → In (Some e) (errors_of env)) as Hps
    by (intros e <-; unfold errors_of; simpl; auto).
  assert (∀ e, extraction env = inl e → In (Some e) (errors_of env)) as Hex
    by (intros e He; unfold errors_of; rewrite He; simpl; auto).
  destruct Hob as [(b & -> & ->)|[(b & -> & Hl & [->| ->])|(e & -> & Hl & [->| ->])]];
    simpl.
  - (* borrowed *)
    destruct (newPage env) as [e|] eqn:Hn; [by constructor; auto|].
    destruct (pageSetup env) as [e|] eqn:Hs; [by constructor; auto|].
    destruct (known_site site);
      [destruct (extraction env) as [e|data] eqn:He|]; by constructor; auto.
  - (* launched *)
    destruct (newPage env) as [e|] eqn:Hn.
    { constructor. intros e' [= <-]. auto. }
    destruct (pageSetup env) as [e|] eqn:Hs.
    { constructor. intros e' [= <-]. auto. }
    destruct (known_site site);
      [destruct (extraction env) as [e|data] eqn:He|];
      constructor; intros e' [=]; subst; auto.
  - (* launched after a failed acquisition *)
    destruct (newPage env) as [e|] eqn:Hn.
    { constructor. intros e' [= <-]. auto. }
    destruct (pageSetup env) as [e|] eqn:Hs.
    { constructor. intros e' [= <-]. auto. }
    destruct (known_site site);
      [destruct (extraction env) as [e|data] eqn:He|];
      constructor; intros e' [=]; subst; auto.
  - constructor. unfold errors_of. rewrite Hl. simpl. auto.
  - constructor. unfold errors_of. rewrite Hl. simpl. auto.
Qed.

Lemma attempt_shape_counts env n evs r :
  attempt_shape env n evs r →
  attempts_made evs = 1 ∧ delays_slept evs = 0.
Proof. by destruct 1. Qed.

Lemma counts_app evs evs' :
  attempts_made (evs ++ evs') = attempts_made evs + attempts_made evs'
  ∧ delays_slept (evs ++ evs') = delays_slept evs + delays_slept evs'.
Proof.
  unfold attempts_made, delays_slept. by rewrite !List.filter_app, !length_app.
Qed.

End AttemptShape.

(** X12.  In every pass through the [try] block of
    [scrapeSiteWithTempBrowser] the session is accounted for on every
    exit path: a session borrowed from the pool is either released or
    removed, never both; a browser launched for the attempt is closed and
    never handed to the pool; and nothing is released to or removed from
    the pool that was not borrowed in that same pass. *)
Theorem attempt_accounts_for_its_session
        (resolveUrl : string → string → option string) (site : string) (n : nat)
        (env : Orchestrator.AttemptEnv) (st : Pool.State) :
  let evs := Orchestrator.events (Orchestrator.attempt resolveUrl site n env st) in
  (∀ b : Browser,
      In (Orchestrator.Borrow b) evs →
      (In (Orchestrator.Release b) evs ∧ ¬ In (Orchestrator.Remove b) evs)
      ∨ (In (Orchestrator.Remove b) evs ∧ ¬ In (Orchestrator.Release b) evs))
  ∧ (∀ b : Browser,
        In (Orchestrator.Launch b) evs →
        In (Orchestrator.Close b) evs
        ∧ ¬ In (Orchestrator.Release b) evs ∧ ¬ In (Orchestrator.Remove b) evs)
  ∧ (∀ b : Browser,
        In (Orchestrator.Release b) evs ∨ In (Orchestrator.Remove b) evs →
        In (Orchestrator.Borrow b) evs)
  ∧ (∀ data : list Product,
        Orchestrator.result (Orchestrator.attempt resolveUrl site n env st) = inr data →
        ∀ b : Browser, ¬ In (Orchestrator.Remove b) evs).
Proof.
  intros evs. subst evs.
  destruct (attempt_has_shape resolveUrl site n env st); simpl;
    repeat split; intros; intuition (try congruence).
Qed.

Section TwoAttempts.

Local Open Scope nat_scope.

(** Both attempts were made when [scrapeSiteWithTempBrowser] throws. *)
Lemma scrape_makes_at_most_two_attempts_aux
      (resolveUrl : string → string → option string) (site : string)
      (envs : nat → Orchestrator.AttemptEnv) (st : Pool.State) :
  match Orchestrator.result
          (Orchestrator.scrapeSiteWithTempBrowser resolveUrl site envs st) with
  | inr _ => True
  | inl _ =>
      OrchestratorLaws.attempts_made
        (Orchestrator.events
           (Orchestrator.scrapeSiteWithTempBrowser resolveUrl site envs st)) = 2
      ∧ OrchestratorLaws.delays_slept
          (Orchestrator.events
             (Orchestrator.scrapeSiteWithTempBrowser resolveUrl site envs st)) = 2
  end.
Proof.
  unfold Orchestrator.scrapeSiteWithTempBrowser. cbn [Orchestrator.attempt_loop].
  pose proof (attempt_has_shape resolveUrl site 0 (envs 0) st) as H1.
  apply attempt_shape_counts in H1 as [Ha1 Hd1].
  unfold Orchestrator.events, Orchestrator.result in *.
  destruct (Orchestrator.attempt resolveUrl site 0 (envs 0) st)
    as [[st1 evs1] [e1|l1]]; simpl in *; [|done].
  pose proof (attempt_has_shape resolveUrl site 1 (envs 1) st1) as H2.
  apply attempt_shape_counts in H2 as [Ha2 Hd2].
  unfold Orchestrator.events, Orchestrator.result in *.
  destruct (Orchestrator.attempt resolveUrl site 1 (envs 1) st1)
    as [[st2 evs2] [e2|l2]]; simpl in *; [|done].
  destruct (counts_app evs1 (Orchestrator.Delay 600 :: evs2
                             ++ [Orchestrator.Delay 600])%list) as [-> ->].
  change (Orchestrator.Delay 600 :: evs2 ++ [Orchestrator.Delay 600])%list
    with ([Orchestrator.Delay 600] ++ evs2 ++ [Orchestrator.Delay 600])%list.
  destruct (counts_app [Orchestrator.Delay 600]
              (evs2 ++ [Orchestrator.Delay 600])%list) as [-> ->].
  destruct (counts_app evs2 [Orchestrator.Delay 600]) as [-> ->].
  by rewrite Ha1, Hd1, Ha2, Hd2.
Qed.

End TwoAttempts.

(** X13.  [scrapeSiteWithTempBrowser] makes one attempt or two, never
    more.  When it returns, it slept 600 ms once for each attempt that
    failed before.  When it throws, both attempts failed, it slept 600 ms
    twice - also after the second failure - and what it throws is a new
    plain [Error] carrying the message of the second attempt's error (its
    name when that message is empty): the class of the original error is
    not kept. *)
Theorem scrape_makes_at_most_two_attempts
        (resolveUrl : string → string → option string) (site : string)
        (envs : nat → Orchestrator.AttemptEnv) (st : Pool.State) :
  let run := Orchestrator.scrapeSiteWithTempBrowser resolveUrl site envs st in
  let evs := Orchestrator.events run in
  match Orchestrator.result run with
  | inr _ =>
      (OrchestratorLaws.attempts_made evs = 1%nat
       ∧ OrchestratorLaws.delays_slept evs = 0%nat)
      ∨ (OrchestratorLaws.attempts_made evs = 2%nat
         ∧ OrchestratorLaws.delays_slept evs = 1%nat)
  | inl e =>
      OrchestratorLaws.attempts_made evs = 2%nat
      ∧ OrchestratorLaws.delays_slept evs = 2%nat
      ∧ err_name e = "Error"
      ∧ ∃ e2 : Error,
          In (Some e2) (OrchestratorLaws.errors_of (envs 1%nat))
          ∧ message e = if String.eqb (message e2) "" then err_name e2
                        else message e2
  end.
Proof.
  intros run evs. subst evs run.
  unfold Orchestrator.scrapeSiteWithTempBrowser. cbn [Orchestrator.attempt_loop].
  pose proof (attempt_has_shape resolveUrl site 0 (envs 0%nat) st) as H1.
  apply attempt_shape_counts in H1 as [Ha1 Hd1].
  unfold Orchestrator.events, Orchestrator.result in *.
  destruct (Orchestrator.attempt resolveUrl site 0 (envs 0%nat) st)
    as [[st1 evs1] [e1|l1]]; simpl in *; [|by left].
  pose proof (attempt_has_shape resolveUrl site 1 (envs 1%nat) st1) as H2.
  pose proof (attempt_shape_counts _ _ _ _ H2) as [Ha2 Hd2].
  unfold Orchestrator.events, Orchestrator.result in *.
  destruct (Orchestrator.attempt resolveUrl site 1 (envs 1%nat) st1)
    as [[st2 evs2] [e2|l2]]; simpl in *.
  - destruct (counts_app evs1 (Orchestrator.Delay 600 :: evs2
                               ++ [Orchestrator.Delay 600])%list) as [-> ->].
    change (Orchestrator.Delay 600 :: evs2 ++ [Orchestrator.Delay 600])%list
      with ([Orchestrator.Delay 600] ++ evs2 ++ [Orchestrator.Delay 600])%list.
    destruct (counts_app [Orchestrator.Delay 600]
                (evs2 ++ [Orchestrator.Delay 600])%list) as [-> ->].
    destruct (counts_app evs2 [Orchestrator.Delay 600]) as [-> ->].
    rewrite Ha1, Hd1, Ha2, Hd2.
    repeat split; try done.
    exists e2. split.
    + inversion H2; subst; auto;
        match goal with H : ∀ e, inl _ = inl e → _ |- _ => by apply H end.
    + unfold error_toString. by destruct (String.eqb (message e2) "").
  - right.
    destruct (counts_app evs1 (Orchestrator.Delay 600 :: evs2)%list) as [-> ->].
    change (Orchestrator.Delay 600 :: evs2)%list
      with ([Orchestrator.Delay 600] ++ evs2)%list.
    destruct (counts_app [Orchestrator.Delay 600] evs2) as [-> ->].
    by rewrite Ha1, Hd1, Ha2, Hd2.
Qed.

(** A property of the pool that every part of a request keeps, given
    that borrowing keeps it and yields a session [H] holds of, and that
    releasing and removing such a session keep it. *)
Section RequestInvariant.

Import Orchestrator.

Local Open Scope nat_scope.
Local Open Scope list_scope.

Variable resolveUrl : string → string → option string.
Variable P : Pool.State → Prop.
Variable E : AttemptEnv → Prop.
Variable H : Browser → Pool.State → Prop.

Hypothesis P_borrow : ∀ env st,
  P st → E env →
  P (final (borrow env st))
  ∧ ∀ b, result (borrow env st) = Some b → H b (final (borrow env st)).
Hypothesis P_release : ∀ st b, P st → H b st → P (Pool.releaseToPool b st).
Hypothesis P_remove : ∀ st b, P st → H b st → P (Pool.removeBrowserFromPool b st).
Hypothesis P_launched : ∀ st, P st → P (launched st).

Lemma obtain_browser_keeps env st :
  P st → E env →
  P (final (obtain_browser env st))
  ∧ ∀ b, result (obtain_browser env st) = inr (b, true) →
         H b (final (obtain_browser env st)).
Proof.
  intros HP HE. unfold obtain_browser.
  destruct (Pool.browserPool st) as [p|].
  - destruct (P_borrow env st HP HE) as [HP1 HH1].
    unfold final, result in *.
    destruct (borrow env st) as [[st1 evs] [b|]]; simpl in *.
    + split; [done|]. intros b' [= <-]. by apply HH1.
    + destruct (launch env); simpl; split; auto; discriminate.
  - unfold final, result. destruct (launch env); simpl; split; auto; discriminate.
Qed.

Lemma attempt_keeps site n env st :
  P st → E env → P (final (attempt resolveUrl site n env st)).
Proof.
  intros HP HE. destruct (obtain_browser_keeps env st HP HE) as [HP1 HH1].
  unfold attempt, final, result in *.
  destruct (obtain_browser env st) as [[st1 evs] [e|[b [|]]]]; simpl in *; [done| |].
  - specialize (HH1 b eq_refl).
    destruct (newPage env); simpl; [auto|].
    destruct (pageSetup env); simpl; [auto|].
    destruct (known_site site); [destruct (extraction env)|]; simpl; auto.
  - destruct (newPage env); simpl; [auto|].
    destruct (pageSetup env); simpl; [auto|].
    destruct (known_site site); [destruct (extraction env)|]; simpl; auto.
Qed.

Lemma attempt_loop_keeps site envs k n lastErr st :
  P st → (∀ i, E (envs i)) →
  P (final (attempt_loop resolveUrl site envs k n lastErr st)).
Proof.
  intros HP HE. revert n lastErr st HP.
  induction k as [|k IH]; intros n lastErr st HP; simpl; [done|].
  pose proof (attempt_keeps site n (envs n) st HP (HE n)) as Ha.
  unfold final in *.
  destruct (attempt resolveUrl site n (envs n) st) as [[st1 evs] [err|l]];
    simpl in *; [|done].
  specialize (IH (S n) (Some err) st1 Ha).
  by destruct (attempt_loop resolveUrl site envs k (S n) (Some err) st1) as [[? ?] ?].
Qed.

Lemma scrape_one_keeps envs acc site :
  P (final acc) → (∀ i, E (envs site i)) →
  P (final (scrape_one resolveUrl envs acc site)).
Proof.
  intros HP HE. destruct acc as [[st sofar] products].
  unfold scrape_one, scrapeSiteWithTempBrowser.
  pose proof (attempt_loop_keeps site (envs site) 2 0 None st HP HE) as Hl.
  unfold final in *.
  by destruct (attempt_loop resolveUrl site (envs site) 2 0 None st)
    as [[st1 evs] [err|[|p l]]].
Qed.

Lemma fold_scrape_keeps envs (l : list string) acc :
  P (final acc) → (∀ site i, E (envs site i)) →
  P (final (fold_left (scrape_one resolveUrl envs) l acc)).
Proof.
  intros HP HE. revert acc HP.
  induction l as [|s l IH]; intros acc HP; simpl; [done|].
  apply IH. by apply scrape_one_keeps.
Qed.

Lemma comparePrices_keeps query envs now st :
  P st → (∀ q site i, E (envs q site i)) →
  P (final (Routes.comparePrices resolveUrl query envs now st)).
Proof.
  intros HP HE. unfold Routes.comparePrices.
  destruct (Routes.falsy query); [done|].
  destruct query; try done.
  destruct (String.length (Js.trim s) <? 2); [done|].
  rewrite scrapeMultipleSites_unfold. unfold final at 1. simpl.
  unfold gather. by apply fold_scrape_keeps.
Qed.

End RequestInvariant.

Section RequestKeepsDiscipline.

Import Orchestrator.

Lemma launched_fifo st : Pool.fifo_inv st → Pool.fifo_inv (launched st).
Proof. by intros []; constructor. Qed.

Lemma launched_callers st : PoolLaws.callers_inv st → PoolLaws.callers_inv (launched st).
Proof. by intros []; constructor. Qed.

Lemma disciplined_step st o : PoolLaws.disciplined st → PoolLaws.disciplined (Pool.step st o).
Proof. intros [? ?]. split; [by apply fifo_step | by apply callers_step]. Qed.

Lemma disciplined_run ops st : PoolLaws.disciplined st → PoolLaws.disciplined (Pool.run st ops).
Proof. intros [? ?]. split; [by apply fifo_run | by apply callers_run]. Qed.

Lemma borrow_disciplined env st :
  PoolLaws.disciplined st → PoolLaws.disciplined (final (borrow env st)).
Proof.
  intros HP. unfold borrow, final.
  pose proof (disciplined_step st Pool.OpAcquire HP) as Hacq. simpl in Hacq.
  destruct (Pool.acquireFromPool st) as [st' [b|msg|t]]; simpl in *; [done|done|].
  pose proof (disciplined_run (while_waiting env) st' Hacq) as Hrun.
  set (st1 := Pool.run st' (while_waiting env)) in *.
  set (st2 := match settlement t st1 with
              | Some _ => st1
              | None => Pool.fireTimeout t st1
              end).
  assert (PoolLaws.disciplined st2) as Hst2.
  { subst st2. destruct (settlement t st1); [done|].
    apply (disciplined_step st1 (Pool.OpTimeout t) Hrun). }
  by destruct (settlement t st2) as [[b|msg]|].
Qed.

End RequestKeepsDiscipline.

Section RequestKeepsCapacity.

Import Orchestrator OrchestratorLaws.

Local Open Scope nat_scope.
Local Open Scope list_scope.

Implicit Types (st : Pool.State) (b : Browser) (t : nat) (o : Pool.Op).

Lemma quiet_op_ok st o : PoolLaws.quiet o = true → Pool.op_ok st o = true.
Proof. by destruct o. Qed.

Lemma sound_quiet_step c st o :
  PoolLaws.sound c st → PoolLaws.quiet o = true → PoolLaws.sound c (Pool.step st o).
Proof.
  intros (Hs & Hd & Hc) Hq.
  destruct (size_step st o Hs (quiet_op_ok st o Hq)) as [Hs' Hc'].
  split; [done|]. split; [by apply disciplined_step | congruence].
Qed.

Lemma held_op_ok_release st b :
  held b st → is_Some (Pool.browserPool st) →
  Pool.op_ok st (Pool.OpRelease b) = true.
Proof.
  intros [Hin Hout] [p Hp]. unfold PoolLaws.owned, Pool.idle, Pool.op_ok in *.
  rewrite Hp in *. apply andb_true_iff. split.
  - by apply existsb_eqb_elem_of.
  - by apply negb_true_iff, existsb_eqb_not_elem_of.
Qed.

Lemma held_op_ok_remove st b :
  held b st → Pool.op_ok st (Pool.OpRemove b) = true.
Proof.
  intros [Hin _]. unfold PoolLaws.owned, Pool.op_ok in *.
  destruct (Pool.browserPool st); [|done]. by apply existsb_eqb_elem_of.
Qed.

Lemma sound_release c st b :
  PoolLaws.sound c st → held b st → PoolLaws.sound c (Pool.releaseToPool b st).
Proof.
  intros (Hs & Hd & Hc) Hh.
  assert (is_Some (Pool.browserPool st)) as Hp by by destruct Hd as [[] _].
  destruct (size_step st (Pool.OpRelease b) Hs (held_op_ok_release st b Hh Hp))
    as [Hs' Hc'].
  split; [done|]. split; [apply (disciplined_step st (Pool.OpRelease b) Hd)|].
  simpl in Hc'. congruence.
Qed.

Lemma sound_remove c st b :
  PoolLaws.sound c st → held b st → PoolLaws.sound c (Pool.removeBrowserFromPool b st).
Proof.
  intros (Hs & Hd & Hc) Hh.
  destruct (size_step st (Pool.OpRemove b) Hs (held_op_ok_remove st b Hh))
    as [Hs' Hc'].
  split; [done|]. split; [apply (disciplined_step st (Pool.OpRemove b) Hd)|].
  simpl in Hc'. congruence.
Qed.

Lemma sound_launched c st : PoolLaws.sound c st → PoolLaws.sound c (launched st).
Proof.
  intros ((p & Hp & Hnb & Hna & Hsub & Hlen & Hlt) & [Hf Hcl] & Hc).
  split; [|split; [split; [by apply launched_fifo | by apply launched_callers]|done]].
  exists p. simpl. repeat split; try done.
  intros b Hb. specialize (Hlt b Hb). lia.
Qed.

(** A held session stays held through a quiet step. *)
Lemma held_quiet_step st o b :
  Pool.size_inv st → PoolLaws.quiet o = true → held b st → held b (Pool.step st o).
Proof.
  intros (p & Hp & Hnb & Hna & Hsub & Hlen & Hlt) Hq [Hin Hout].
  destruct st as [bp tm la nb ar lg]. simpl in Hp. subst bp.
  destruct p as [sz bs av pd]. unfold held, PoolLaws.owned, Pool.idle in *.
  simpl in *.
  destruct o as [|b'|b'| | |t]; simpl; try done.
  - unfold Pool.acquireFromPool. simpl. destruct av as [|b0 rest]; simpl; [done|].
    split; [done|]. intros Hr. apply Hout. by right.
  - unfold Pool.replacementLaunched. simpl. destruct la as [|n]; simpl; [done|].
    assert (b ≠ nb) as Hne by (specialize (Hlt b Hin); lia).
    assert (b ∉ av ++ [nb]) as Hout'.
    { intros [?| ->%list_elem_of_singleton]%elem_of_app; done. }
    assert (b ∈ bs ++ [nb]) as Hin' by (apply elem_of_app; by left).
    destruct pd as [|t rest]; [|destruct (av ++ [nb]) as [|b0 av'] eqn:Hav];
      simpl; try done.
    split; [done|]. intros Hr. apply Hout'. by right.
  - unfold Pool.replacementFailed. simpl. by destruct la.
  - unfold Pool.fireTimeout. simpl. by destruct (existsb (Nat.eqb t) tm).
Qed.

(** What a quiet step appends to the log of settlements: a session
    handed out in that step is held afterwards. *)
Lemma settled_quiet_step st o :
  Pool.size_inv st → PoolLaws.quiet o = true →
  ∃ extra, Pool.settled (Pool.step st o) = Pool.settled st ++ extra
           ∧ ∀ t b, In (t, Pool.Resolved b) extra → held b (Pool.step st o).
Proof.
  intros (p & Hp & Hnb & Hna & Hsub & Hlen & Hlt) Hq.
  destruct st as [bp tm la nb ar lg]. simpl in Hp. subst bp.
  destruct p as [sz bs av pd]. unfold held, PoolLaws.owned, Pool.idle.
  simpl in *.
  destruct o as [|b'|b'| | |t]; simpl; try done.
  - unfold Pool.acquireFromPool. simpl. destruct av as [|b0 rest]; simpl.
    + exists []. rewrite app_nil_r. split; [done | by intros ? ? []].
    + eexists. split; [reflexivity|]. intros t b [[= _ <-]|[]].
      apply NoDup_cons in Hna as [Hb0 _]. split; [|done].
      apply Hsub. by left.
  - unfold Pool.replacementLaunched. simpl. destruct la as [|n]; simpl.
    { exists []. rewrite app_nil_r. split; [done | by intros ? ? []]. }
    assert (NoDup (av ++ [nb])) as Hna'.
    { apply NoDup_app. repeat split; [done| |apply NoDup_singleton].
      intros x Hx%Hsub ->%list_elem_of_singleton. specialize (Hlt _ Hx). lia. }
    destruct pd as [|t rest]; [|destruct (av ++ [nb]) as [|b0 av'] eqn:Hav]; simpl.
    + exists []. rewrite app_nil_r. split; [done | by intros ? ? []].
    + exists []. rewrite app_nil_r. split; [done | by intros ? ? []].
    + eexists. split; [reflexivity|]. intros t' b [[= _ <-]|[]].
      apply NoDup_cons in Hna' as [Hb0 _]. split; [|done].
      assert (b0 ∈ av ++ [nb]) as Hb by (rewrite Hav; by left).
      apply elem_of_app in Hb as [Hb|Hb]; apply elem_of_app; auto.
  - unfold Pool.replacementFailed. simpl. destruct la;
      exists []; rewrite app_nil_r; (split; [done | by intros ? ? []]).
  - unfold Pool.fireTimeout. simpl. destruct (existsb (Nat.eqb t) tm); simpl.
    + eexists. split; [reflexivity|]. by intros t' b [[=]|[]].
    + exists []. rewrite app_nil_r. split; [done | by intros ? ? []].
Qed.

Lemma find_append {A} (f : A → bool) (l k : list A) :
  List.find f (l ++ k)
  = match List.find f l with Some x => Some x | None => List.find f k end.
Proof.
  induction l as [|x l IH]; simpl; [done|]. by destruct (f x).
Qed.

Lemma settlement_app t bp tm la nb ar lg extra bp' tm' la' nb' ar' :
  settlement t (Pool.mkState bp' tm' la' nb' ar' (lg ++ extra))
  = match settlement t (Pool.mkState bp tm la nb ar lg) with
    | Some x => Some x
    | None => snd <$> List.find (fun x => Nat.eqb (fst x) t) extra
    end.
Proof.
  unfold settlement. simpl. rewrite find_append.
  by destruct (List.find _ lg).
Qed.

Lemma resolved_held_quiet_step t st o :
  Pool.size_inv st → PoolLaws.quiet o = true →
  resolved_held t st → resolved_held t (Pool.step st o).
Proof.
  intros Hs Hq HQ b Hb.
  destruct (settled_quiet_step st o Hs Hq) as (extra & Hext & Hnew).
  destruct st as [bp tm la nb ar lg].
  destruct (Pool.step _ o) as [bp' tm' la' nb' ar' lg'] eqn:Hstep.
  simpl in Hext. subst lg'.
  rewrite (settlement_app t bp tm la nb ar) in Hb.
  destruct (settlement t (Pool.mkState bp tm la nb ar lg)) as [x|] eqn:Hold.
  - injection Hb as ->. rewrite <- Hstep. apply held_quiet_step; auto.
  - destruct (List.find _ extra) as [[t' x]|] eqn:Hfind; [|done].
    simpl in Hb. injection Hb as ->.
    apply find_some in Hfind as [Hin Ht]. simpl in Ht.
    apply Nat.eqb_eq in Ht as ->. by apply (Hnew t b).
Qed.

Lemma quiet_run_keeps c t ops st :
  PoolLaws.sound c st → forallb PoolLaws.quiet ops = true → resolved_held t st →
  PoolLaws.sound c (Pool.run st ops) ∧ resolved_held t (Pool.run st ops).
Proof.
  revert st. induction ops as [|o ops IH]; intros st Hs Hq HQ; [done|].
  simpl in Hq. apply andb_true_iff in Hq as [Ho Hops]. simpl.
  apply IH; [by apply sound_quiet_step|done|].
  apply resolved_held_quiet_step; [by destruct Hs|done|done].
Qed.

Lemma borrow_sound c env st :
  PoolLaws.sound c st → quiet_env env = true →
  PoolLaws.sound c (final (borrow env st))
  ∧ ∀ b, result (borrow env st) = Some b → held b (final (borrow env st)).
Proof.
  intros Hs Hq. unfold borrow, final, result.
  pose proof (sound_quiet_step c st Pool.OpAcquire Hs eq_refl) as Hacq.
  destruct (settled_quiet_step st Pool.OpAcquire ltac:(by destruct Hs) eq_refl)
    as (extra & Hext & Hnew).
  simpl in Hacq, Hext, Hnew.
  destruct (Pool.acquireFromPool st) as [st' [b|msg|t]] eqn:Hacq'; simpl in *.
  - split; [done|]. intros b' [= <-].
    (* the entry appended is the caller's own *)
    destruct Hs as ((p & Hp & _) & _ & _).
    unfold Pool.acquireFromPool in Hacq'. rewrite Hp in Hacq'.
    destruct (Pool.available p) as [|b0 rest]; [done|].
    injection Hacq' as <- <-. simpl in Hext.
    apply app_inv_head in Hext. subst extra.
    apply (Hnew (Pool.arrivals st) b0). by left.
  - split; [done|]. discriminate.
  - assert (resolved_held t st') as HQ.
    { intros b Hb. exfalso.
      destruct Hs as ((p & Hp & _) & [_ Hcl] & _).
      unfold Pool.acquireFromPool in Hacq'. rewrite Hp in Hacq'.
      destruct (Pool.available p) as [|b0 rest]; [|done].
      injection Hacq' as <- <-.
      unfold settlement in Hb. simpl in Hb.
      destruct (List.find _ (Pool.settled st)) as [[t' x]|] eqn:Hfind; [|done].
      apply find_some in Hfind as [Hin Ht]. simpl in Ht.
      apply Nat.eqb_eq in Ht as ->.
      destruct Hcl as [_ _ _ Hbound].
      assert (Pool.arrivals st ∈ PoolLaws.settledCallers st) as Hmem.
      { unfold PoolLaws.settledCallers. apply list_elem_of_In, in_map_iff.
        by exists (Pool.arrivals st, x). }
      specialize (Hbound _ Hmem). lia. }
    destruct (quiet_run_keeps c t (while_waiting env) st' Hacq Hq HQ) as [Hs1 HQ1].
    set (st1 := Pool.run st' (while_waiting env)) in *.
    set (st2 := match settlement t st1 with
                | Some _ => st1
                | None => Pool.fireTimeout t st1
                end).
    assert (PoolLaws.sound c st2 ∧ resolved_held t st2) as [Hs2 HQ2].
    { subst st2. destruct (settlement t st1); [done|]. split.
      - apply (sound_quiet_step c st1 (Pool.OpTimeout t) Hs1 eq_refl).
      - apply (resolved_held_quiet_step t st1 (Pool.OpTimeout t));
          [by destruct Hs1|done|done]. }
    destruct (settlement t st2) as [[b|msg]|] eqn:Hset; simpl.
    + split; [done|]. intros b' [= <-]. by apply HQ2.
    + split; [done|]. discriminate.
    + split; [done|]. discriminate.
Qed.

End RequestKeepsCapacity.

(** X14.  Provided that, before the request, no launch of
    [initializeBrowserPool] brought a session while a caller was
    pending, and that no launch of the loop settles during the request
    (as is the case once the loop has finished), a request to
    [/api/compare-prices], whatever its query and whatever the sites,
    other requests and timers do meanwhile, leaves the pool's queue in
    order: callers served and callers pending in
    their order of arrival, every caller served before every caller
    still pending, each caller settled once, no session idle while a
    caller waits, an armed timer for exactly the callers still waiting;
    and [releaseToPool] then hands a session to the longest-waiting
    caller, whose timer it cancels, or appends it to the available
    queue when nobody waits. *)
Theorem request_keeps_queue_discipline
        (resolveUrl : string → string → option string)
        (poolSize : Boot.Number) (es : list Boot.Event)
        (query : Routes.JsValue)
        (envs : string → string → nat → Orchestrator.AttemptEnv) (now : string) :
  Boot.calm (Boot.start poolSize Pool.fresh) es = true →
  let st := Boot.boot poolSize es in
  let after := Orchestrator.final (Routes.comparePrices resolveUrl query envs now st) in
  StronglySorted lt (Pool.served after)
  ∧ StronglySorted lt (Pool.waiting after)
  ∧ (∀ t t' : nat, t ∈ Pool.served after → t' ∈ Pool.waiting after → (t < t')%nat)
  ∧ NoDup (PoolLaws.settledCallers after)
  ∧ (Pool.waiting after ≠ [] → Pool.idle after = [])
  ∧ Pool.timers after = Pool.waiting after
  ∧ ∀ b : Browser,
      match Pool.waiting after with
      | t :: rest =>
          t ∈ Pool.timers after
          ∧ Pool.waiting (Pool.releaseToPool b after) = rest
          ∧ Pool.settled (Pool.releaseToPool b after)
            = (Pool.settled after ++ [(t, Pool.Resolved b)])%list
          ∧ (t ∉ Pool.timers (Pool.releaseToPool b after))
          ∧ Pool.idle (Pool.releaseToPool b after) = Pool.idle after
      | [] =>
          Pool.idle (Pool.releaseToPool b after) = (Pool.idle after ++ [b])%list
          ∧ Pool.settled (Pool.releaseToPool b after) = Pool.settled after
      end.
Proof.
  intros Hcalm st after.
  assert (PoolLaws.disciplined after) as [Hf Hc].
  { apply (comparePrices_keeps resolveUrl PoolLaws.disciplined
             (fun _ => True) (fun _ _ => True)); auto.
    - intros env s HP _. split; [by apply borrow_disciplined|done].
    - intros s b HP _. apply (disciplined_step s (Pool.OpRelease b) HP).
    - intros s b HP _. apply (disciplined_step s (Pool.OpRemove b) HP).
    - intros s [? ?]. split; [by apply launched_fifo | by apply launched_callers].
    - by apply calm_reachable. }
  pose proof (fun b => release_behaviour b after Hf) as Hrel.
  destruct Hf as [_ Hws Hss Hfirst _ _ Hidle Htm]. destruct Hc as [Honce _ _ _].
  repeat split; done.
Qed.

(** X14 on a pool of size 2 whose first caller arrived between the two
    launches. *)
Lemma request_keeps_queue_discipline_witness :
  let after :=
    Orchestrator.final
      (Routes.comparePrices Sample.resolveUrl (Routes.JString "ab")
         (fun _ _ _ => Sample.failing_page) "2024-01-01T00:00:00.000Z"
         (Boot.boot (Boot.Int 2)
            [Boot.Launch true; Boot.Request Pool.OpAcquire; Boot.Launch true])) in
  Pool.timers after = Pool.waiting after
  ∧ StronglySorted lt (Pool.served after).
Proof.
  destruct (request_keeps_queue_discipline Sample.resolveUrl (Boot.Int 2)
              [Boot.Launch true; Boot.Request Pool.OpAcquire; Boot.Launch true]
              (Routes.JString "ab") (fun _ _ _ => Sample.failing_page)
              "2024-01-01T00:00:00.000Z" eq_refl)
    as (Hs & _ & _ & _ & _ & Ht & _).
  split; [exact Ht | exact Hs].
Defined.

(** X15.  A request to [/api/compare-prices] respects the pool's
    protocol: when it starts on a pool whose callers followed the
    protocol, and the pool sees only arrivals, timers and replacement
    launches while the request waits for a session, then after the
    request the sessions checked out, idle and being launched still fit
    the capacity [max(1, poolSize)]. *)
Theorem request_keeps_pool_within_capacity
        (resolveUrl : string → string → option string)
        (poolSize : Z) (launch_ok : nat → bool) (ops : list Pool.Op)
        (query : Routes.JsValue)
        (envs : string → string → nat → Orchestrator.AttemptEnv) (now : string) :
  Pool.run_ok (Pool.initializeBrowserPool poolSize launch_ok Pool.fresh) ops = true →
  (∀ (q site : string) (i : nat), OrchestratorLaws.quiet_env (envs q site i) = true) →
  let st := Pool.run (Pool.initializeBrowserPool poolSize launch_ok Pool.fresh) ops in
  let after := Orchestrator.final (Routes.comparePrices resolveUrl query envs now st) in
  (Pool.inUse after + Pool.launching after ≤ Pool.capacity after)%nat
  ∧ Pool.capacity after = Z.to_nat (Z.max 1 poolSize).
Proof.
  intros Hok Hquiet st after.
  assert (PoolLaws.sound (Z.to_nat (Z.max 1 poolSize)) after) as (Hs & _ & Hc).
  { apply (comparePrices_keeps resolveUrl (PoolLaws.sound (Z.to_nat (Z.max 1 poolSize)))
             (fun env => OrchestratorLaws.quiet_env env = true)
             OrchestratorLaws.held); auto.
    - intros env s HP HE. by apply borrow_sound.
    - intros s b HP Hh. by apply sound_release.
    - intros s b HP Hh. by apply sound_remove.
    - intros s HP. by apply sound_launched.
    - destruct (init_inv_size _ _ (initializeBrowserPool_inv poolSize launch_ok))
        as [Hinv Hcap].
      destruct (size_run ops _ (length ops) Hinv Hok) as [Hs Hcap'].
      rewrite take_ge in Hs, Hcap' by done.
      split; [done|]. split; [|subst st; by rewrite Hcap', Hcap].
      split; [apply fifo_reachable | apply callers_reachable]. }
  split; [by apply size_inv_bound | done].
Qed.

(** X15 on a pool of one session and sites whose pages all time out. *)
Lemma request_keeps_pool_within_capacity_witness :
  (Pool.inUse
     (Orchestrator.final
        (Routes.comparePrices Sample.resolveUrl (Routes.JString "ab")
           (fun _ _ _ => Sample.failing_page) "2024-01-01T00:00:00.000Z"
           Sample.one_session))
   ≤ 1)%nat.
Proof.
  destruct (request_keeps_pool_within_capacity Sample.resolveUrl 1 (fun _ => true) []
              (Routes.JString "ab") (fun _ _ _ => Sample.failing_page)
              "2024-01-01T00:00:00.000Z" eq_refl)
    as [H Hc].
  - intros q site i. reflexivity.
  - cbv zeta in H, Hc. change (Z.to_nat (Z.max 1 1)) with 1%nat in Hc.
    unfold Sample.one_session. simpl Pool.run in H, Hc. lia.
Defined.

Section GatherSound.

Import Orchestrator.

Local Open Scope nat_scope.
Local Open Scope list_scope.

Variable resolveUrl : string → string → option string.

Local Abbreviation extracted := (OrchestratorLaws.extracted resolveUrl).

Lemma attempt_result_extracted site n envs st l p :
  result (attempt resolveUrl site n (envs n) st) = inr l → In p l →
  extracted envs n p.
Proof.
  unfold attempt, result.
  destruct (obtain_browser (envs n) st) as [[st1 evs0] [err|[b borrowed]]];
    simpl; [done|].
  destruct (newPage (envs n)); [by destruct borrowed|].
  destruct (pageSetup (envs n)); [by destruct borrowed|].
  destruct (known_site site).
  - destruct (extraction (envs n)) as [err|data] eqn:He; [by destruct borrowed|].
    intros Hl Hp. exists data. split; [done|].
    destruct borrowed; simpl in Hl; injection Hl as <-; done.
  - intros Hl Hp. destruct borrowed; simpl in Hl; injection Hl as <-; done.
Qed.

Lemma attempt_loop_result_extracted site envs k : ∀ n lastErr st l p,
  result (attempt_loop resolveUrl site envs k n lastErr st) = inr l → In p l →
  ∃ i, n ≤ i < n + k ∧ extracted envs i p.
Proof.
  induction k as [|k IH]; intros n lastErr st l p; simpl; [done|].
  pose proof (attempt_result_extracted site n envs st) as Ha.
  unfold result in *.
  destruct (attempt resolveUrl site n (envs n) st) as [[st1 evs] [err|l1]]; simpl in *.
  - specialize (IH (S n) (Some err) st1 l p).
    destruct (attempt_loop resolveUrl site envs k (S n) (Some err) st1)
      as [[st2 evs2] r2]. simpl in *.
    intros Hl Hp. destruct (IH Hl Hp) as (i & Hi & He). exists i. split; [lia|done].
  - intros [= <-] Hp. exists n. split; [lia|]. by apply (Ha l1 p).
Qed.

Lemma scrape_one_sound envs acc site p :
  In p (result (scrape_one resolveUrl envs acc site)) →
  In p (result acc) ∨ ∃ i, i < 2 ∧ extracted (envs site) i p.
Proof.
  destruct acc as [[st sofar] products]. unfold scrape_one, scrapeSiteWithTempBrowser.
  pose proof (attempt_loop_result_extracted site (envs site) 2 0 None st) as Hl.
  unfold result in *.
  destruct (attempt_loop resolveUrl site (envs site) 2 0 None st)
    as [[st1 evs] [err|[|q l]]]; simpl in *; auto.
  intros [Hp|Hp]%in_app_or; [by left|right].
  destruct (Hl (q :: l) p eq_refl Hp) as (i & Hi & He). exists i. split; [lia|done].
Qed.

Lemma fold_scrape_sound envs (l : list string) acc p :
  In p (result (fold_left (scrape_one resolveUrl envs) l acc)) →
  In p (result acc) ∨ ∃ site i, In site l ∧ i < 2 ∧ extracted (envs site) i p.
Proof.
  revert acc. induction l as [|s l IH]; intros acc; simpl; [auto|].
  intros [Hp|(site & i & Hs & Hi & He)]%IH.
  - apply scrape_one_sound in Hp as [Hp|(i & Hi & He)]; [by left|].
    right. exists s, i. auto.
  - right. exists site, i. auto.
Qed.

End GatherSound.

Section DedupMore.

Import Dedup.

Local Open Scope list_scope.

Implicit Types (p q : Product) (l : list Product).

Lemma unique_of_subset l q : q ∈ unique_of l → q ∈ l.
Proof. intros Hq. by apply dedup_loop_unseen in Hq as [_ ?]. Qed.

Lemma deduplicateAndSort_subset l q : In q (deduplicateAndSort l) → In q l.
Proof.
  intros Hq%list_elem_of_In. apply list_elem_of_In, unique_of_subset.
  unfold deduplicateAndSort, sortByPrice in Hq.
  by rewrite (sort_by_perm comparePrice (unique_of l)) in Hq.
Qed.

Lemma first_occurrences_keys l p :
  p ∈ l → ∃ q, q ∈ first_occurrences l ∧ dedupKey q = dedupKey p.
Proof.
  induction l as [|x l IH]; [by intros ?%elem_of_nil|].
  intros [->|Hp]%elem_of_cons; simpl.
  - exists x. split; [by left|done].
  - destruct (IH Hp) as (q & Hq & Hk).
    destruct (String.eqb_spec (dedupKey q) (dedupKey x)) as [Heq|Hne].
    + exists x. split; [by left | congruence].
    + exists q. split; [|done]. right.
      apply list_elem_of_In, filter_In. split; [by apply list_elem_of_In|].
      apply negb_true_iff. by apply String.eqb_neq.
Qed.

Lemma first_occurrences_NoDup l :
  NoDup (map dedupKey l) → first_occurrences l = l.
Proof.
  induction l as [|x l IH]; [done|]. simpl.
  intros [Hx Hl]%NoDup_cons. rewrite IH by done. f_equal.
  apply filter_all_true. intros q Hq. apply negb_true_iff, String.eqb_neq.
  intros Heq. apply Hx. rewrite <- Heq.
  apply list_elem_of_In, in_map. by apply list_elem_of_In.
Qed.

Lemma insert_by_front x l :
  Forall (by_price x) l → insert_by comparePrice x l = x :: l.
Proof.
  destruct l as [|y l]; [done|]. intros [Hxy _]%Forall_cons. simpl.
  unfold comparePrice, by_price in *.
  destruct (Z.ltb_spec 0 (effective_price x - effective_price y)); [lia|done].
Qed.

Lemma sortByPrice_sorted_id l : StronglySorted by_price l → sortByPrice l = l.
Proof.
  unfold sortByPrice. induction 1 as [|x l Hl IH Hx]; [done|].
  simpl. rewrite IH. by apply insert_by_front.
Qed.

Lemma map_key_perm l l' : l ≡ₚ l' → map dedupKey l ≡ₚ map dedupKey l'.
Proof. intros H. by apply Permutation_map. Qed.

Lemma lower_app (a b : string) :
  Js.toLowerCase (a ++ b) = (Js.toLowerCase a ++ Js.toLowerCase b)%string.
Proof. induction a as [|c a IH]; simpl; [done|]. by rewrite IH. Qed.

Lemma lower_length (a : string) :
  String.length (Js.toLowerCase a) = String.length a.
Proof. induction a as [|c a IH]; simpl; [done|]. by rewrite IH. Qed.

Lemma substring0_app (a b : string) :
  Js.substring0 (String.length a) (a ++ b) = a.
Proof.
  unfold Js.substring0. induction a as [|c a IH]; simpl.
  - by destruct b.
  - by rewrite IH.
Qed.

End DedupMore.

(** X16.  Every product in the answer of [/api/compare-prices] was
    extracted by the adapter of one of the four sites on its first or its
    second attempt, its link normalized against the page URL of that
    attempt: the orchestrator, the deduplicator and the sorter never make
    up or alter a product. *)
Theorem answered_products_were_extracted
        (resolveUrl : string → string → option string) (s : string)
        (envs : string → string → nat → Orchestrator.AttemptEnv)
        (now : string) (st : Pool.State) (results : list Product) (p : Product) :
  Routes.body (Orchestrator.result
                 (Routes.comparePrices resolveUrl (Routes.JString s) envs now st))
  = Routes.ResultsBody (Js.trim s) results now →
  In p results →
  ∃ (site : string) (i : nat) (data : list Product),
    In site Orchestrator.sites ∧ (i < 2)%nat
    ∧ Orchestrator.extraction (envs (Js.trim s) site i) = inr data
    ∧ In p (map (Orchestrator.normalize resolveUrl
                   (Orchestrator.pageUrl (envs (Js.trim s) site i))) data).
Proof.
  unfold Routes.comparePrices.
  destruct (Routes.falsy (Routes.JString s)); [done|].
  destruct (String.length (Js.trim s) <? 2)%nat; [done|].
  rewrite scrapeMultipleSites_unfold. unfold Orchestrator.result at 1. simpl.
  intros [= <-] Hp%deduplicateAndSort_subset.
  apply fold_scrape_sound in Hp as [[]|(site & i & Hs & Hi & data & He & Hin)].
  exists site, i, data. auto.
Qed.

(** X16 on the query "ab" when Amazon finds one book. *)
Lemma answered_products_were_extracted_witness :
  ∃ (site : string) (i : nat) (data : list Product),
    In site Orchestrator.sites ∧ (i < 2)%nat
    ∧ Orchestrator.extraction (Sample.one_item_page) = inr data
    ∧ In (Dedup.item "book" (Some 250%Z))
         (map (Orchestrator.normalize Sample.resolveUrl
                 (Orchestrator.pageUrl Sample.one_item_page)) data).
Proof.
  apply (answered_products_were_extracted Sample.resolveUrl "ab"
           (fun _ _ _ => Sample.one_item_page) "2024-01-01T00:00:00.000Z"
           Sample.two_sessions [Dedup.item "book" (Some 250%Z)]
           (Dedup.item "book" (Some 250%Z))).
  - vm_compute. reflexivity.
  - by left.
Defined.

(** X17.  [deduplicateAndSort] is idempotent: applied to its own output
    it changes nothing. *)
Theorem deduplicateAndSort_idempotent (products : list Product) :
  Dedup.deduplicateAndSort (Dedup.deduplicateAndSort products)
  = Dedup.deduplicateAndSort products.
Proof.
  unfold Dedup.deduplicateAndSort at 1.
  assert (Dedup.unique_of (Dedup.deduplicateAndSort products)
          = Dedup.deduplicateAndSort products) as ->.
  { rewrite unique_of_first_occurrences. apply first_occurrences_NoDup.
    unfold Dedup.deduplicateAndSort, Dedup.sortByPrice.
    rewrite (map_key_perm _ _ (sort_by_perm Dedup.comparePrice _)).
    apply dedup_loop_NoDup. }
  apply sortByPrice_sorted_id, sortByPrice_sorted.
Qed.

(** X18.  [deduplicateAndSort] neither invents nor loses a key: every
    product it returns is one of its input, every input product has a
    returned product with the same key, the output is never longer than
    the input, and when all input keys differ the output is the whole
    input, rearranged. *)
Theorem deduplicateAndSort_covers_input (products : list Product) :
  (∀ q : Product, In q (Dedup.deduplicateAndSort products) → In q products)
  ∧ (∀ p : Product, In p products →
        ∃ q, In q (Dedup.deduplicateAndSort products)
             ∧ Dedup.dedupKey q = Dedup.dedupKey p)
  ∧ (length (Dedup.deduplicateAndSort products) ≤ length products)%nat
  ∧ (NoDup (map Dedup.dedupKey products) →
     Dedup.deduplicateAndSort products ≡ₚ products).
Proof.
  assert (Dedup.deduplicateAndSort products ≡ₚ Dedup.unique_of products) as Hperm
    by apply sort_by_perm.
  split; [apply deduplicateAndSort_subset|]. split.
  { intros p Hp%list_elem_of_In.
    destruct (first_occurrences_keys products p Hp) as (q & Hq & Hk).
    exists q. split; [|done]. apply list_elem_of_In.
    by rewrite Hperm, unique_of_first_occurrences. }
  split.
  { rewrite Hperm. apply submseteq_length, NoDup_submseteq.
    - apply (NoDup_fmap_1 Dedup.dedupKey). apply dedup_loop_NoDup.
    - intros q. apply unique_of_subset. }
  intros Hnd. rewrite Hperm, unique_of_first_occurrences.
  by rewrite first_occurrences_NoDup.
Qed.

(** X18 on two different books. *)
Lemma deduplicateAndSort_covers_input_witness :
  Dedup.deduplicateAndSort [Dedup.item "b" (Some 2%Z); Dedup.item "a" (Some 1%Z)]
  ≡ₚ [Dedup.item "b" (Some 2%Z); Dedup.item "a" (Some 1%Z)].
Proof.
  destruct (deduplicateAndSort_covers_input
              [Dedup.item "b" (Some 2%Z); Dedup.item "a" (Some 1%Z)])
    as (_ & _ & _ & H).
  apply H. vm_compute. repeat constructor; set_solver.
Defined.

(** X19.  The deduplication key ignores the platform, the image, the
    rating and the link, the case of the letters, and everything after
    the 50th character of the name: of two products with equal prices
    whose names agree, up to case, on their first 50 characters, only the
    first is kept, even when they come from different sites. *)
Theorem deduplicator_merges_lookalikes (p q : Product) :
  price p = price q →
  (Js.toLowerCase (name p) = Js.toLowerCase (name q)
   ∨ ∃ common rest rest' : string,
       String.length common = 50%nat
       ∧ Js.toLowerCase (name p) = (common ++ rest)%string
       ∧ Js.toLowerCase (name q) = (common ++ rest')%string) →
  Dedup.dedupKey p = Dedup.dedupKey q
  ∧ Dedup.deduplicateAndSort [p; q] = [p].
Proof.
  intros Hprice Hname.
  assert (Dedup.dedupKey p = Dedup.dedupKey q) as Hkey.
  { unfold Dedup.dedupKey. rewrite Hprice. f_equal.
    destruct Hname as [->|(common & rest & rest' & Hlen & -> & ->)]; [done|].
    by rewrite <- Hlen, !substring0_app. }
  split; [done|].
  unfold Dedup.deduplicateAndSort. rewrite unique_of_first_occurrences. simpl.
  rewrite Hkey, String.eqb_refl. reflexivity.
Qed.

(** X19 on the same phone listed by two sites in different case. *)
Lemma deduplicator_merges_lookalikes_witness :
  Dedup.deduplicateAndSort
    [mkProduct "Amazon" "Phone X" (Some 100%Z) None None None;
     mkProduct "Flipkart" "PHONE X" (Some 100%Z) None (Some (QArith_base.inject_Z 4)) None]
  = [mkProduct "Amazon" "Phone X" (Some 100%Z) None None None].
Proof.
  apply (deduplicator_merges_lookalikes
           (mkProduct "Amazon" "Phone X" (Some 100%Z) None None None)
           (mkProduct "Flipkart" "PHONE X" (Some 100%Z) None (Some (QArith_base.inject_Z 4)) None)).
  - reflexivity.
  - left. reflexivity.
Defined.

Section Diagnostics.

Import Service.

Local Open Scope nat_scope.
Local Open Scope list_scope.

Lemma tail_drop {A} (k : nat) (l : list A) : tail (drop k l) = drop (S k) l.
Proof.
  revert l. induction k as [|k IH]; intros [|x l]; simpl; done.
Qed.

Lemma logDebug_lastN (all logs : list string) (l : string) :
  logs = lastN maxDebugLogs all →
  logDebug (Some l) logs = lastN maxDebugLogs (all ++ [l]).
Proof.
  intros ->. unfold logDebug, lastN, maxDebugLogs.
  rewrite !length_app, length_drop. simpl.
  destruct (Nat.le_gt_cases 200 (length all)) as [Hge|Hlt].
  - destruct (Nat.ltb_spec 200 (length all - (length all - 200) + 1)); [|lia].
    rewrite <- drop_app_le by lia. rewrite tail_drop. f_equal. lia.
  - destruct (Nat.ltb_spec 200 (length all - (length all - 200) + 1)); [lia|].
    replace (length all - 200) with 0 by lia.
    replace (length all + 1 - 200) with 0 by lia. by rewrite !drop_0.
Qed.

Lemma logged_lastN (lines : list (option string)) (all logs : list string) :
  logs = lastN maxDebugLogs all →
  fold_left (fun acc line => logDebug line acc) lines logs
  = lastN maxDebugLogs (all ++ omap id lines).
Proof.
  revert all logs. induction lines as [|[l|] lines IH]; intros all logs Hlogs; simpl.
  - by rewrite app_nil_r.
  - rewrite (IH (all ++ [l])); [by rewrite <- app_assoc|].
    by apply logDebug_lastN.
  - by apply IH.
Qed.

Lemma lastN_lastN {A} (n m : nat) (l : list A) :
  n ≤ m → lastN n (lastN m l) = lastN n l.
Proof.
  intros Hnm. unfold lastN. rewrite length_drop, drop_drop. f_equal. lia.
Qed.

Lemma lastN_length {A} (n : nat) (l : list A) : length (lastN n l) ≤ n.
Proof. unfold lastN. rewrite length_drop. lia. Qed.

End Diagnostics.

(** X20.  The debug log is a ring buffer: after any sequence of
    [logDebug] calls on the empty log, [_debugLogs] holds the last 200
    lines that could be formatted, oldest first, and never more; a call
    whose line cannot be formatted changes nothing; and [GET /api/logs]
    returns the last 100 of all lines logged. *)
Theorem debug_log_keeps_last_lines (lines : list (option string)) :
  let logs := fold_left (fun acc line => Service.logDebug line acc) lines [] in
  logs = Service.lastN 200 (omap id lines)
  ∧ (length logs ≤ 200)%nat
  ∧ Service.apiLogs logs = Service.lastN 100 (omap id lines)
  ∧ (length (Service.apiLogs logs) ≤ 100)%nat
  ∧ Service.logDebug None logs = logs.
Proof.
  intros logs.
  assert (logs = Service.lastN 200 (omap id lines)) as Hlogs.
  { subst logs. by rewrite (logged_lastN lines [] []). }
  split; [done|]. split; [rewrite Hlogs; apply lastN_length|].
  split; [rewrite Hlogs; unfold Service.apiLogs; apply lastN_lastN; lia|].
  split; [apply lastN_length|done].
Qed.

(** X21.  [POST /api/compare-prices] answers 200 exactly when the query
    is a string of at least two characters after trimming; it answers 400
    when the query is missing, [null], empty, [0], [false] or a shorter
    string, and 500 ("Failed to fetch product data") for any other value
    that is not a string.  Unless it answers 200 it scrapes nothing and
    leaves the pool untouched. *)
Theorem compare_prices_status_by_query
        (resolveUrl : string → string → option string) (query : Routes.JsValue)
        (envs : string → string → nat → Orchestrator.AttemptEnv)
        (now : string) (st : Pool.State) :
  let answer := Routes.comparePrices resolveUrl query envs now st in
  let code := Routes.status (Orchestrator.result answer) in
  (code = 200%nat ↔ ∃ s, query = Routes.JString s ∧ (2 ≤ String.length (Js.trim s))%nat)
  ∧ (code = 400%nat ↔
     Routes.falsy query = true
     ∨ ∃ s, query = Routes.JString s ∧ (String.length (Js.trim s) < 2)%nat)
  ∧ (code = 500%nat ↔
     Routes.falsy query = false ∧ ∀ s, query ≠ Routes.JString s)
  ∧ (code ≠ 200%nat → answer = (st, [], Orchestrator.result answer)).
Proof.
  intros answer code. subst code answer.
  destruct query as [| |b|z|s|]; unfold Routes.comparePrices; simpl;
    try (repeat split; try (intros (s' & [=] & _)); try done;
         try (intros [[=]|(s' & [=] & _)]); try (intros [[=] _]); auto;
         fail).
  - (* booleans *)
    destruct b; simpl; repeat split; try done;
      try (intros (s' & [=] & _)); try (intros [[=]|(s' & [=] & _)]);
      try (intros [[=] _]); auto.
  - (* numbers *)
    destruct (z =? 0)%Z; simpl; repeat split; try done;
      try (intros (s' & [=] & _)); try (intros [[=]|(s' & [=] & _)]);
      try (intros [[=] _]); auto.
  - (* strings *)
    destruct (String.eqb_spec s "") as [->|Hne]; simpl.
    + repeat split; try done; auto.
      * intros (s' & [= <-] & Hl). simpl in Hl. lia.
      * intros [[=] _].
    + destruct (Nat.ltb_spec (String.length (Js.trim s)) 2) as [Hlt|Hge]; simpl.
      * repeat split; try done; eauto.
        -- intros (s' & [= <-] & Hl). lia.
        -- intros [_ Hs]. by destruct (Hs s).
      * rewrite scrapeMultipleSites_unfold. simpl.
        repeat split; try done; eauto.
        -- intros [[=]|(s' & [= <-] & Hl)]. lia.
        -- intros [_ Hs]. by destruct (Hs s).
Qed.

Section DebugRoutes.

Import Service.

Local Open Scope nat_scope.
Local Open Scope list_scope.

Lemma short_test (q : string) :
  String.eqb q "" || (String.length q <? 2) = (String.length q <? 2).
Proof. by destruct q. Qed.

Lemma lower_ascii_idem (c : ascii) :
  Js.lower_ascii (Js.lower_ascii c) = Js.lower_ascii c.
Proof. destruct c as [[] [] [] [] [] [] [] []]; reflexivity. Qed.

Lemma toLowerCase_idem (s : string) :
  Js.toLowerCase (Js.toLowerCase s) = Js.toLowerCase s.
Proof.
  induction s as [|c s IH]; simpl; [done|]. by rewrite IH, lower_ascii_idem.
Qed.

(** A site without a branch in [scrapeSiteWithTempBrowser] yields no
    product. *)
Lemma attempt_unknown_site resolveUrl site n env st l :
  Orchestrator.known_site site = false →
  Orchestrator.result (Orchestrator.attempt resolveUrl site n env st) = inr l →
  l = [].
Proof.
  intros Hk. unfold Orchestrator.attempt, Orchestrator.result. rewrite Hk.
  destruct (Orchestrator.obtain_browser env st) as [[st1 evs0] [err|[b borrowed]]];
    simpl; [done|].
  destruct (Orchestrator.newPage env); [by destruct borrowed|].
  destruct (Orchestrator.pageSetup env); [by destruct borrowed|].
  destruct borrowed; simpl; by intros [= <-].
Qed.

Lemma scrape_unknown_site resolveUrl site envs st l :
  Orchestrator.known_site site = false →
  Orchestrator.result
    (Orchestrator.scrapeSiteWithTempBrowser resolveUrl site envs st) = inr l →
  l = [].
Proof.
  intros Hk. unfold Orchestrator.scrapeSiteWithTempBrowser.
  cbn [Orchestrator.attempt_loop].
  pose proof (attempt_unknown_site resolveUrl site 0 (envs 0) st) as H0.
  unfold Orchestrator.result in *.
  destruct (Orchestrator.attempt resolveUrl site 0 (envs 0) st)
    as [[st1 evs1] [e1|l1]]; simpl in *; [|intros [= <-]; by apply H0].
  pose proof (attempt_unknown_site resolveUrl site 1 (envs 1) st1) as H1.
  unfold Orchestrator.result in *.
  destruct (Orchestrator.attempt resolveUrl site 1 (envs 1) st1)
    as [[st2 evs2] [e2|l2]]; simpl in *; [done|intros [= <-]; by apply H1].
Qed.

Lemma runScraper_lower site query scraper :
  runScraper (Some (Js.toLowerCase (param site))) query scraper
  = runScraper site query scraper.
Proof.
  unfold runScraper. cbn [param]. by rewrite toLowerCase_idem.
Qed.

End DebugRoutes.

(** X22.  [GET /api/temp-scrape] rejects a query shorter than two
    characters after trimming with 400 and scrapes nothing; otherwise it
    answers 200 with the number of products and at most the first five of
    them when the scrape returns, and 500 "temp-scrape failed" when both
    attempts threw.  It has no check of the site name: a site without an
    adapter is scraped like any other and, when the scrape returns, is
    answered 200 with a count of 0. *)
Theorem temp_scrape_answers
        (resolveUrl : string → string → option string) (site query : option string)
        (envs : string → string → nat → Orchestrator.AttemptEnv) (st : Pool.State) :
  let q := Js.trim (Service.param query) in
  let name := Js.toLowerCase (Service.param site) in
  let answer := Service.tempScrape resolveUrl site query envs st in
  let scrape := Orchestrator.scrapeSiteWithTempBrowser resolveUrl name (envs q name) st in
  ((String.length q < 2)%nat → answer = (st, [], Service.short_query))
  ∧ ((2 ≤ String.length q)%nat →
     match Orchestrator.result scrape with
     | inr data =>
         Orchestrator.result answer
         = Service.mkResponse 200
             (Service.TempBody name q (length data) (take 5 data))
         ∧ (length (take 5 data) ≤ 5)%nat
         ∧ (Orchestrator.known_site name = false → data = [])
     | inl err =>
         Service.status (Orchestrator.result answer) = 500%nat
         ∧ OrchestratorLaws.attempts_made (Orchestrator.events answer) = 2%nat
     end).
Proof.
  intros q name answer scrape. subst answer. unfold Service.tempScrape.
  fold q name. rewrite short_test. fold scrape. split.
  - intros Hq. by destruct (Nat.ltb_spec (String.length q) 2); [|lia].
  - intros Hq. destruct (Nat.ltb_spec (String.length q) 2); [lia|].
    pose proof (scrape_makes_at_most_two_attempts_aux resolveUrl name (envs q name) st)
      as Htwo.
    pose proof (scrape_unknown_site resolveUrl name (envs q name) st) as Hunk.
    fold scrape in Htwo, Hunk.
    unfold Orchestrator.result, Orchestrator.events in *.
    destruct scrape as [[st1 evs] [err|data]]; simpl in *.
    + split; [done|]. by destruct Htwo.
    + split; [done|]. split; [rewrite length_take; lia|]. intros Hk. by apply Hunk.
Qed.

(** X22 on an unknown site with a page that opens. *)
Lemma temp_scrape_answers_witness :
  Orchestrator.result
    (Service.tempScrape Sample.resolveUrl (Some "Ebay") (Some " shoes ")
       (fun _ _ _ => Sample.one_item_page) Sample.two_sessions)
  = Service.mkResponse 200 (Service.TempBody "ebay" "shoes" 0 []).
Proof.
  destruct (temp_scrape_answers Sample.resolveUrl (Some "Ebay") (Some " shoes ")
              (fun _ _ _ => Sample.one_item_page) Sample.two_sessions)
    as [_ H].
  cbv zeta in H. specialize (H ltac:(vm_compute; lia)).
  exact (proj1 H).
Defined.

(** X23.  [GET /api/run-scraper] checks the query first: shorter than
    two characters after trimming, the answer is 400 whatever the site.
    Otherwise the site name is matched without regard to case; it is
    answered 400 "Unknown site" exactly when it is none of the four
    adapters and neither "constructor" nor "__proto__", two names the
    dispatch object inherits: the first is answered 200 with the query
    itself as samples, the second 500.  For an adapter the answer is 200
    with the number of results and at most the first five, or 500 when
    the adapter throws. *)
Theorem run_scraper_answers
        (site query : option string)
        (scraper : string → string → Error + list Product) :
  let q := Js.trim (Service.param query) in
  let name := Js.toLowerCase (Service.param site) in
  let answer := Service.runScraper site query scraper in
  ((String.length q < 2)%nat → answer = Service.short_query)
  ∧ Service.runScraper (Some name) query scraper = answer
  ∧ ((2 ≤ String.length q)%nat →
     (answer = Service.mkResponse 400 (Service.ErrorBody "Unknown site") ↔
      Orchestrator.known_site name = false
      ∧ name ≠ "constructor" ∧ name ≠ "__proto__")
     ∧ (Orchestrator.known_site name = true →
        answer = match scraper name q with
                 | inr results =>
                     Service.mkResponse 200
                       (Service.RunBody name q (length results) (take 5 results))
                 | inl err =>
                     Service.mkResponse 500
                       (Service.FailureBody "run-scraper failed" (message err))
                 end)
     ∧ (name = "constructor" →
        answer = Service.mkResponse 200
                   (Service.RunTextBody name q (String.length q)
                                        (Js.substring0 5 q)))
     ∧ (name = "__proto__" → Service.status answer = 500%nat)).
Proof.
  intros q name answer. subst answer.
  split; [|split; [subst name; apply runScraper_lower|]];
    unfold Service.runScraper; fold q name; rewrite short_test.
  { intros Hq. by destruct (Nat.ltb_spec (String.length q) 2); [|lia]. }
  intros Hq. destruct (Nat.ltb_spec (String.length q) 2); [lia|].
  unfold Service.mapping.
  destruct (Orchestrator.known_site name) eqn:Hk.
  - split; [|split; [done|split]].
    + split; [|by intros [[=] _]]. by destruct (scraper name q).
    + intros ->. done.
    + intros ->. done.
  - destruct (String.eqb_spec name "constructor") as [Hc|Hc].
    + split; [|split; [done|split; [done|]]].
      * split; [done|]. by intros (_ & ? & _).
      * intros Hp. rewrite Hp in Hc. done.
    + destruct (String.eqb_spec name "__proto__") as [Hp|Hp].
      * split; [|split; [done|split; [done|done]]].
        split; [done|]. by intros (_ & _ & ?).
      * split; [|split; [done|split; [done|done]]].
        split; done.
Qed.

(** X23 on the site "Constructor". *)
Lemma run_scraper_answers_witness :
  Service.runScraper (Some "Constructor") (Some "shoes") (fun _ _ => inr [])
  = Service.mkResponse 200 (Service.RunTextBody "constructor" "shoes" 5 "shoes").
Proof.
  destruct (run_scraper_answers (Some "Constructor") (Some "shoes") (fun _ _ => inr []))
    as (_ & _ & H).
  cbv zeta in H. destruct (H ltac:(vm_compute; lia)) as (_ & _ & Hc & _).
  exact (Hc eq_refl).
Defined.

(* ===================================================================== *)
(** ** The extension                                                      *)
(* ===================================================================== *)

Section SearchHistory.

Local Open Scope nat_scope.
Local Open Scope list_scope.

Lemma lastN_sublist {A} (n : nat) (l : list A) : Service.lastN n l `sublist_of` l.
Proof. apply sublist_drop. Qed.

Lemma lastN_last {A} (n : nat) (l : list A) (x : A) :
  0 < n → last (Service.lastN n (l ++ [x])) = Some x.
Proof.
  intros Hn. unfold Service.lastN.
  rewrite drop_app_le; [apply last_snoc|].
  rewrite length_app. simpl. lia.
Qed.

Lemma filter_sublist {A} (f : A → bool) (l : list A) : List.filter f l `sublist_of` l.
Proof.
  induction l as [|x l IH]; simpl; [constructor|].
  destruct (f x); by constructor.
Qed.

Lemma filter_length_le {A} (f : A → bool) (l : list A) :
  length (List.filter f l) ≤ length l.
Proof. apply sublist_length, filter_sublist. Qed.



(** A history of at most 100 entries stays so, and only loses entries or
    gains tracked ones, in order. *)
Lemma history_run (acts : list Extension.Action) (h : Extension.History) :
  length (Extension.entries h) ≤ 100 →
  length (Extension.entries (foldl Extension.act h acts)) ≤ 100
  ∧ Extension.entries (foldl Extension.act h acts)
      `sublist_of` Extension.entries h ++ omap Extension.tracked acts.
Proof.
  revert h. induction acts as [|a acts IH]; intros h Hh; simpl.
  { split; [done|]. by rewrite app_nil_r. }
  destruct a as [q now|now]; simpl.
  - destruct (IH (Extension.trackSearchAnalytics q now h)) as [Hlen Hsub].
    { simpl. apply lastN_length. }
    split; [done|]. etrans; [exact Hsub|].
    change (?x :: ?l) with ([x] ++ l). rewrite (assoc_L (++)).
    apply sublist_app; [|done].
    simpl. apply lastN_sublist.
  - destruct (IH (Extension.cleanupOldData now h)) as [Hlen Hsub].
    { destruct h as [l|]; simpl in *; [|lia].
      etrans; [apply filter_length_le|done]. }
    split; [done|]. etrans; [exact Hsub|].
    apply sublist_app; [|done].
    destruct h as [l|]; simpl; [apply filter_sublist|done].
Qed.

(** X24.  Whatever searches are tracked and whenever the cleanup alarm
    fires, starting from a storage without the key [searchHistory], the
    stored history never holds more than 100 entries and holds only
    tracked searches, in the order they were tracked.  Right after a
    search is tracked it is the last entry of the history; a later
    cleanup may drop it again. *)
Theorem search_history_bounded (acts : list Extension.Action) :
  let history := Extension.entries (foldl Extension.act None acts) in
  length history ≤ 100
  ∧ history `sublist_of` omap Extension.tracked acts
  ∧ ∀ q now,
      last (Extension.entries
              (foldl Extension.act None (acts ++ [Extension.Track q now])))
      = Some (Extension.mkSearch q now).
Proof.
  destruct (history_run acts None) as [Hlen Hsub]; [simpl; lia|].
  split; [done|]. split; [done|].
  intros q now. rewrite foldl_app. simpl. apply lastN_last. lia.
Qed.



End SearchHistory.

Section Escaping.

Local Arguments String.append _ _ : simpl nomatch.

Lemma append_assoc (s t u : string) : (s ++ t) ++ u = s ++ (t ++ u).
Proof. induction s as [|c s IH]; simpl; [done|]. by rewrite IH. Qed.

Lemma replaceAll_app (c : ascii) (by_ s t : string) :
  Extension.replaceAll c by_ (s ++ t)
  = Extension.replaceAll c by_ s ++ Extension.replaceAll c by_ t.
Proof.
  induction s as [|d s IH]; simpl; [done|].
  destruct (Ascii.eqb c d); simpl; rewrite IH; [|done].
  by rewrite append_assoc.
Qed.

(** The five passes on a text that begins with [d]: the entity of [d],
    untouched by the later passes, then the five passes on the rest. *)
Lemma replaced_cons (d : ascii) (s : string) :
  Extension.replaced (String d s) = Extension.entity d ++ Extension.replaced s.
Proof.
  unfold Extension.replaced, Extension.entity.
  cbn [Extension.replaceAll].
  rewrite (Ascii.eqb_sym "&" d).
  destruct (Ascii.eqb_spec d "&") as [->|Hamp].
  { rewrite !replaceAll_app. done. }
  cbn [Extension.replaceAll].
  rewrite (Ascii.eqb_sym "<" d).
  destruct (Ascii.eqb_spec d "<") as [->|Hlt].
  { rewrite !replaceAll_app. done. }
  cbn [Extension.replaceAll].
  rewrite (Ascii.eqb_sym ">" d).
  destruct (Ascii.eqb_spec d ">") as [->|Hgt].
  { rewrite !replaceAll_app. done. }
  cbn [Extension.replaceAll].
  rewrite (Ascii.eqb_sym (ascii_of_nat 34) d).
  destruct (Ascii.eqb_spec d (ascii_of_nat 34)) as [->|Hq].
  { rewrite !replaceAll_app. done. }
  cbn [Extension.replaceAll].
  rewrite (Ascii.eqb_sym "'" d).
  destruct (Ascii.eqb_spec d "'") as [->|Hs]; done.
Qed.

Lemma escapeHtml_each (s : string) : Extension.escapeHtml s = Extension.escapeEach s.
Proof.
  unfold Extension.escapeHtml. destruct (String.eqb_spec s "") as [->|_]; [done|].
  induction s as [|d s IH]; [done|].
  by rewrite replaced_cons, IH.
Qed.

Lemma has_markup_app (s t : string) :
  Extension.has_markup (s ++ t) = Extension.has_markup s || Extension.has_markup t.
Proof. induction s as [|c s IH]; simpl; [done|]. by rewrite IH, orb_assoc. Qed.

Lemma entity_clean (c : ascii) : Extension.has_markup (Extension.entity c) = false.
Proof.
  unfold Extension.entity.
  destruct (Ascii.eqb c "&") eqn:E1; [done|].
  destruct (Ascii.eqb c "<") eqn:E2; [done|].
  destruct (Ascii.eqb c ">") eqn:E3; [done|].
  destruct (Ascii.eqb c (ascii_of_nat 34)) eqn:E4; [done|].
  destruct (Ascii.eqb c "'") eqn:E5; [done|].
  simpl. unfold Extension.is_markup. by rewrite E2, E3, E4, E5.
Qed.

Lemma escapeHtml_clean (s : string) :
  Extension.has_markup (Extension.escapeHtml s) = false.
Proof.
  rewrite escapeHtml_each.
  induction s as [|c s IH]; [done|]. simpl.
  by rewrite has_markup_app, entity_clean, IH.
Qed.

(** X26.  The five successive replacements of [escapeHtml] amount to one
    pass that writes each character as its entity: the ampersands of the
    entities written by the first replacement are not escaped again, and
    the result holds no [<], [>] or quote. *)
Theorem escapeHtml_one_pass (s : string) :
  Extension.escapeHtml s = Extension.escapeEach s
  ∧ Extension.has_markup (Extension.escapeHtml s) = false.
Proof. split; [apply escapeHtml_each|apply escapeHtml_clean]. Qed.

End Escaping.

Section Stars.

Import QArith Qround.

(** [generateStars] on the fraction [n/d], by quotient and remainder. *)
Lemma generateStars_cases (n : Z) (d : positive) :
  let r := (n # d)%Q in
  let f := (n / Z.pos d)%Z in
  let m := (n mod Z.pos d)%Z in
  Rating.generateStars r =
    if (n <? 0)%Z then None
    else if (Z.pos d <=? 2 * m)%Z
         then (if (4 <? f)%Z then None
               else Some (replicate (Z.to_nat f) Rating.Filled ++ [Rating.Hollow]
                          ++ replicate (Z.to_nat (4 - f)) Rating.Hollow)%list)
         else (if (5 <? f)%Z then None
               else Some (replicate (Z.to_nat f) Rating.Filled
                          ++ replicate (Z.to_nat (5 - f)) Rating.Hollow)%list).
Proof.
  intros r f m. unfold Rating.generateStars, Rating.repeat_glyph.
  change (Qfloor r) with f.
  pose proof (Z.div_mod n (Z.pos d) ltac:(lia)) as Hdm.
  pose proof (Z.mod_pos_bound n (Z.pos d) ltac:(lia)) as Hm.
  fold f m in Hdm, Hm.
  destruct (Z.ltb_spec n 0) as [Hn|Hn].
  { assert (f < 0)%Z as Hf by (subst f; apply Z.div_lt_upper_bound; lia).
    destruct (Z.ltb_spec f 0); [done|lia]. }
  assert (0 ≤ f)%Z as Hf by (subst f; apply Z.div_pos; lia).
  destruct (Z.ltb_spec f 0); [lia|].
  assert (Qle_bool (1 # 2) (Rating.remainder1 r) = (Z.pos d <=? 2 * m)%Z) as ->.
  { unfold Rating.remainder1.
    assert (Qle_bool 0 r = true) as ->.
    { unfold Qle_bool, r. simpl. apply Z.leb_le. lia. }
    change (Qfloor r) with f.
    unfold Qle_bool, Qminus, Qplus, Qopp, inject_Z, r. simpl Qnum. simpl Qden.
    apply eq_true_iff_eq. rewrite !Z.leb_le.
    rewrite !Pos2Z.inj_mul. lia. }
  destruct (Z.leb_spec (Z.pos d) (2 * m)).
  - destruct (Z.ltb_spec 4 f); destruct (Z.ltb_spec (5 - f - 1) 0); try lia; [done|].
    by replace (5 - f - 1)%Z with (4 - f)%Z by lia.
  - destruct (Z.ltb_spec 5 f); destruct (Z.ltb_spec (5 - f - 0) 0); try lia; [done|].
    by replace (5 - f - 0)%Z with (5 - f)%Z by lia.
Qed.

Lemma filled_app (a b : list Rating.Star) :
  Rating.filled (a ++ b)%list = (Rating.filled a + Rating.filled b)%nat.
Proof. unfold Rating.filled. by rewrite List.filter_app, length_app. Qed.

Lemma filled_Filled (n : nat) : Rating.filled (replicate n Rating.Filled) = n.
Proof.
  induction n as [|n IH]; [done|]. unfold Rating.filled in *. simpl. by rewrite IH.
Qed.

Lemma filled_Hollow (n : nat) : Rating.filled (replicate n Rating.Hollow) = 0%nat.
Proof.
  induction n as [|n IH]; [done|]. unfold Rating.filled in *. simpl. by rewrite IH.
Qed.

Lemma generateStars_spec (r : Q) :
  (is_Some (Rating.generateStars r) ↔ (0 <= r)%Q ∧ (r < 11 # 2)%Q)
  ∧ ∀ stars, Rating.generateStars r = Some stars →
             length stars = 5%nat ∧ Rating.filled stars = Z.to_nat (Qfloor r).
Proof.
  destruct r as [n d]. rewrite generateStars_cases.
  pose proof (Z.div_mod n (Z.pos d) ltac:(lia)) as Hdm.
  pose proof (Z.mod_pos_bound n (Z.pos d) ltac:(lia)) as Hm.
  unfold Qle, Qlt. simpl Qnum. simpl Qden.
  change (Qfloor (n # d)) with (n / Z.pos d)%Z.
  set (f := (n / Z.pos d)%Z) in *. set (m := (n mod Z.pos d)%Z) in *.
  destruct (Z.ltb_spec n 0) as [Hn|Hn].
  { split; [|done]. split; [by intros [? [=]]|lia]. }
  assert (0 ≤ f)%Z as Hf by (subst f; apply Z.div_pos; lia).
  destruct (Z.leb_spec (Z.pos d) (2 * m)).
  - destruct (Z.ltb_spec 4 f).
    + split; [|done]. split; [by intros [? [=]]|]. intros [_ ?]. nia.
    + split.
      * split; [|done]. intros _. split; [lia|nia].
      * intros stars [= <-]. rewrite length_app, filled_app. simpl.
        rewrite !length_replicate, filled_Filled.
        change (Rating.filled (Rating.Hollow :: ?l)) with (Rating.filled l).
        rewrite filled_Hollow. split; lia.
  - destruct (Z.ltb_spec 5 f).
    + split; [|done]. split; [by intros [? [=]]|]. intros [_ ?]. nia.
    + split.
      * split; [|done]. intros _. split; [lia|nia].
      * intros stars [= <-]. rewrite !length_app, !length_replicate.
        rewrite !filled_app, filled_Filled, filled_Hollow. split; lia.
Qed.

(** X27.  [generateStars] returns a star line exactly for the ratings
    from 0 up to, but not including, 5.5; the line then has five glyphs,
    as many of them filled as the rating has whole units.  For every
    other rating - a negative one, or one of 5.5 and more - a [repeat]
    gets a negative count and the function throws. *)
Theorem generateStars_draws_five_or_throws (r : Q) :
  (Rating.generateStars r = None ↔ (r < 0)%Q ∨ (11 # 2 <= r)%Q)
  ∧ ∀ stars, Rating.generateStars r = Some stars →
             length stars = 5%nat ∧ Rating.filled stars = Z.to_nat (Qfloor r).
Proof.
  destruct (generateStars_spec r) as [Hdom Hline]. split; [|exact Hline].
  split.
  - intros Hnone.
    destruct (Qlt_le_dec r 0) as [?|H0]; [by left|].
    destruct (Qlt_le_dec r (11 # 2)) as [H5|?]; [|by right].
    destruct Hdom as [_ Hdom]. destruct (Hdom (conj H0 H5)) as [? Hs].
    by rewrite Hnone in Hs.
  - intros Hout. destruct (Rating.generateStars r) eqn:E; [|done]. exfalso.
    destruct Hdom as [Hdom _]. destruct (Hdom ltac:(eauto)) as [H0 H5].
    destruct Hout as [Hneg|Hbig].
    + by apply (Qlt_not_le _ _ Hneg).
    + by apply (Qlt_not_le _ _ H5).
Qed.

(** A product card is not drawn exactly when the rating of the product
    is below 0 or at least 5.5. *)
Lemma createProductElement_none (p : Product) :
  Extension.createProductElement p = None
  ↔ ∃ r, rating p = Some r ∧ ((r < 0)%Q ∨ (11 # 2 <= r)%Q).
Proof.
  unfold Extension.createProductElement.
  pose proof (generateStars_spec (Rating.shown_rating (rating p))) as [H _].
  assert (∀ r, rating p = Some r →
               ((0 <= Rating.shown_rating (rating p))%Q
                ∧ (Rating.shown_rating (rating p) < 11 # 2)%Q)
               ↔ ((0 <= r)%Q ∧ (r < 11 # 2)%Q)) as Hshown.
  { intros r ->. unfold Rating.shown_rating.
    destruct (Qeq_bool r 0) eqn:E; [|done].
    apply Qeq_bool_iff in E. by rewrite E. }
  destruct (Rating.generateStars (Rating.shown_rating (rating p))) as [stars|] eqn:E.
  - split; [done|]. intros (r & Hr & Hout). exfalso.
    destruct H as [H _]. apply (Hshown r Hr) in H as [H0 H5]; [|eauto].
    destruct Hout as [Hneg|Hbig].
    + by apply (Qlt_not_le _ _ Hneg).
    + by apply (Qlt_not_le _ _ H5).
  - split; [|done]. intros _.
    destruct (rating p) as [r|] eqn:Hr.
    + exists r. split; [done|].
      destruct (Qlt_le_dec r 0) as [?|H0]; [by left|].
      destruct (Qlt_le_dec r (11 # 2)) as [H5|?]; [|by right].
      exfalso. destruct H as [_ H].
      destruct H as [? [=]]. by apply (Hshown r eq_refl).
    + exfalso. destruct H as [_ H]. by destruct H as [? [=]].
Qed.

End Stars.

Section Cards.

Import QArith.

(** X28.  [displayResults] throws exactly when some product of the list
    has a rating below 0 or of 5.5 and more: the star line of its card
    cannot be drawn.  When it shows the list, there is one card for each
    product, and the platform and the name written into a card hold no
    markup character. *)
Theorem displayResults_throws_on_rating_out_of_range
        (results : list Product) (query : string) :
  (Extension.displayResults results query = None
   ↔ Exists (fun p => ∃ r, rating p = Some r ∧ ((r < 0)%Q ∨ (11 # 2 <= r)%Q))
            results)
  ∧ ∀ count cards,
      Extension.displayResults results query
      = Some (Extension.ResultsShown count cards) →
      length cards = length results
      ∧ Forall (fun c => Extension.has_markup (Extension.card_name c) = false
                         ∧ Extension.has_markup (Extension.card_platform c) = false)
               cards.
Proof.
  split.
  - unfold Extension.displayResults.
    destruct results as [|p results]; [split; [done|by intros ?%Exists_nil]|].
    set (l := p :: results).
    trans (mapM Extension.createProductElement l = None).
    { by destruct (mapM Extension.createProductElement l). }
    rewrite mapM_None.
    split; intros H; (eapply Exists_impl; [exact H|]); intros x;
      apply createProductElement_none.
  - intros count cards. unfold Extension.displayResults.
    destruct results as [|p results]; [done|]. set (l := p :: results).
    destruct (mapM Extension.createProductElement l) as [cards'|] eqn:E; [|done].
    intros [= _ <-]. split; [symmetry; by eapply length_mapM|].
    apply mapM_Some in E.
    induction E as [|x c l' cards'' Hxc _ IH]; constructor; [|done].
    unfold Extension.createProductElement in Hxc.
    destruct (Rating.generateStars _); [|done]. injection Hxc as <-. simpl.
    split; apply escapeHtml_clean.
Qed.

End Cards.

Section Trim.

Lemma trimStart_clean (s : string) : Extension.starts_clean (Js.trimStart s).
Proof.
  induction s as [|c s IH]; simpl; [done|].
  destruct (Js.is_space c) eqn:E; [done|]. simpl. done.
Qed.

Lemma trimEnd_clean (s : string) :
  Extension.starts_clean s → Extension.starts_clean (Js.trimEnd s).
Proof.
  destruct s as [|c s]; simpl; [done|]. intros Hc.
  destruct (Js.trimEnd s); simpl; [by rewrite Hc|done].
Qed.

Lemma trimStart_id (s : string) : Extension.starts_clean s → Js.trimStart s = s.
Proof. destruct s as [|c s]; simpl; [done|]. by intros ->. Qed.

Lemma trimEnd_idem (s : string) : Js.trimEnd (Js.trimEnd s) = Js.trimEnd s.
Proof.
  induction s as [|c s IH]; simpl; [done|].
  destruct (Js.trimEnd s) as [|d r] eqn:E.
  - destruct (Js.is_space c) eqn:Hc; simpl; [done|]. by rewrite Hc.
  - change (Js.trimEnd (String c (String d r)))
      with (match Js.trimEnd (String d r) with
            | EmptyString => if Js.is_space c then EmptyString else String c EmptyString
            | String e r' => String c (String e r')
            end).
    by rewrite IH.
Qed.

(** Trimming a trimmed text changes nothing. *)
Lemma trim_idem (s : string) : Js.trim (Js.trim s) = Js.trim s.
Proof.
  unfold Js.trim.
  rewrite (trimStart_id (Js.trimEnd (Js.trimStart s))).
  - apply trimEnd_idem.
  - apply trimEnd_clean, trimStart_clean.
Qed.

End Trim.

Section Popup.

Variable resolveUrl : string → string → option string.

(** X29.  The popup against the endpoint.  An input that is blank after
    trimming is refused in the popup and nothing is posted.  An input of
    one character is posted, refused by the endpoint with 400, and shown
    as a failure to fetch.  Any longer input is posted trimmed, the
    endpoint trims it again to the same query, answers 200, and the popup
    shows what [displayResults] makes of the deduplicated, sorted list -
    or the failure to fetch when [displayResults] throws. *)
Theorem popup_search_outcome
        (envs : string → string → nat → Orchestrator.AttemptEnv)
        (now : string) (st : Pool.State) (input : string) :
  let server q :=
    Some (Orchestrator.result
            (Routes.comparePrices resolveUrl (Routes.JString q) envs now st)) in
  let q := Js.trim input in
  Extension.handleSearch input server =
    if String.eqb q "" then (Extension.ErrorShown "Please enter a product name", None)
    else if (String.length q <? 2)%nat then (Extension.fetch_failed, Some q)
    else (default Extension.fetch_failed
            (Extension.displayResults
               (Dedup.deduplicateAndSort
                  (Orchestrator.result (Orchestrator.gather resolveUrl (envs q) st)))
               q),
          Some q).
Proof.
  intros server q. unfold Extension.handleSearch. fold q.
  destruct (String.eqb q ""); [done|]. unfold server.
  destruct (Nat.ltb_spec (String.length q) 2) as [Hlt|Hge].
  - rewrite comparePrices_refused by (unfold q; by rewrite trim_idem). done.
  - rewrite comparePrices_accepted by (unfold q; by rewrite trim_idem).
    unfold q. rewrite trim_idem. fold q. cbn [Orchestrator.result snd].
    unfold Extension.ok. cbn [Routes.status Routes.body Extension.results_of].
    cbn [Nat.leb andb negb].
    by destruct (Extension.displayResults _ q).
Qed.

(** What the content script stores is trimmed and has three characters
    or more. *)
Lemma stored_by_page (ws : list Extension.Write) (stored : option string) :
  forallb Extension.from_page ws = true →
  (∀ s, stored = Some s → Js.trim s = s ∧ (3 ≤ String.length s)%nat) →
  ∀ s, foldl Extension.write stored ws = Some s →
       Js.trim s = s ∧ (3 ≤ String.length s)%nat.
Proof.
  revert stored. induction ws as [|w ws IH]; intros stored Hp Hst s; simpl.
  { apply Hst. }
  simpl in Hp. apply andb_true_iff in Hp as [Hw Hp].
  apply IH; [done|]. destruct w as [sel|sel]; [|done]. simpl.
  unfold Extension.handleSelectionChange.
  destruct (negb (String.eqb (Js.trim sel) "")) ; simpl; [|done].
  destruct (Nat.ltb_spec 2 (String.length (Js.trim sel))); [|done].
  intros s' [= <-]. split; [apply trim_idem|lia].
Qed.

(** X30.  A selection stored by the content script alone - whatever the
    selections were - is always usable: [useSelectedText] puts it into
    the input without an error, [handleSearch] posts it unchanged, and
    the endpoint accepts it with 200. *)
Theorem page_selection_is_accepted
        (ws : list Extension.Write) (s input : string)
        (envs : string → string → nat → Orchestrator.AttemptEnv)
        (now : string) (st : Pool.State)
        (post : string → option Routes.Response) :
  forallb Extension.from_page ws = true →
  foldl Extension.write None ws = Some s →
  Extension.useSelectedText (Some s) input = (s, None)
  ∧ snd (Extension.handleSearch s post) = Some s
  ∧ Routes.status
      (Orchestrator.result
         (Routes.comparePrices resolveUrl (Routes.JString s) envs now st)) = 200%nat.
Proof.
  intros Hp Hs.
  destruct (stored_by_page ws None Hp ltac:(done) s Hs) as [Htrim Hlen].
  assert (String.eqb s "" = false) as Hne.
  { destruct s; [simpl in Hlen; lia|done]. }
  split; [|split].
  - unfold Extension.useSelectedText. by rewrite Hne.
  - unfold Extension.handleSearch. rewrite Htrim, Hne.
    destruct (post s) as [r|]; [|done].
    destruct (negb (Extension.ok r)); [done|].
    by destruct (Extension.displayResults _ s).
  - rewrite comparePrices_accepted by (rewrite Htrim; lia). done.
Qed.

End Popup.

(** X30 on the selections " a " and "  shoes ": the first is too short to
    be stored, the second is stored trimmed. *)
Lemma page_selection_is_accepted_witness :
  Extension.useSelectedText (Some "shoes") "" = ("shoes", None)
  ∧ snd (Extension.handleSearch "shoes" (fun _ => None)) = Some "shoes"
  ∧ Routes.status
      (Orchestrator.result
         (Routes.comparePrices Sample.resolveUrl (Routes.JString "shoes")
            (fun _ _ _ => Sample.failing_page) "2024-01-01T00:00:00.000Z"
            Sample.two_sessions)) = 200%nat.
Proof.
  apply (page_selection_is_accepted Sample.resolveUrl
           [Extension.SelectionChanged " a "; Extension.SelectionChanged "  shoes "]
           "shoes" "" (fun _ _ _ => Sample.failing_page)
           "2024-01-01T00:00:00.000Z" Sample.two_sessions (fun _ => None)).
  - reflexivity.
  - reflexivity.
Defined.
